(** * dustcollector: a shallow embedding of the snapshot correlation engine

    The Go package [dustcollector] inventories EBS snapshots, correlates
    them with images, launch configurations/templates and autoscaling
    groups, groups them by volume ("bars") and derives a deletion plan.

    Conventions of the embedding:
    - Go [int] and [int64] are [Z] with 64-bit two's-complement wrap-around
      written out ([wrap64]).
    - A pointer field of the SDK's structs that the provider always fills
      is a plain value; a field the provider may leave nil is an [option],
      whether the code checks it or not: dereferencing [None] panics.
    - A Go panic is the [Panic] outcome; a Go [error] value is an
      [option Error] ([None] is [nil]).
    - [*Nugget] and [*Bar] are indices into the expedition's [Nuggets] and
      [Bars] slices, so that mutation through one alias is seen through
      the others.
    - A goroutine is the tree of its accesses to the memory it shares with
      the others; the Go runtime's choice of the goroutine that makes the
      next step is part of the environment, like the provider's answers,
      so that a theorem about every environment holds for every
      interleaving, lost updates of unsynchronised slices included.
      Log output is left out. *)

From Stdlib Require Import ZArith Lia List String Ascii DecimalString Floats.
From stdpp Require Import base list strings.
Import ListNotations.

Local Open Scope Z_scope.

(** ** Outcomes: a computation returns or panics *)

Inductive Outcome (A : Type) : Type :=
| Done (a : A)
| Panic (msg : string).
Arguments Done {A} a.
Arguments Panic {A} msg.

#[global] Instance Outcome_ret : MRet Outcome := fun _ a => Done a.
#[global] Instance Outcome_bind : MBind Outcome := fun _ _ f m =>
  match m with
  | Done a => f a
  | Panic msg => Panic msg
  end.

(** [for _, x := range xs { acc = body(acc, x) }] with a body that may panic. *)
Fixpoint rangeO {A B : Type} (body : B -> A -> Outcome B) (xs : list A) (acc : B)
  : Outcome B :=
  match xs with
  | [] => Done acc
  | x :: rest =>
      match body acc x with
      | Done acc' => rangeO body rest acc'
      | Panic msg => Panic msg
      end
  end.

(** ** Machine integers *)

Definition wrap64 (z : Z) : Z := (z + 2 ^ 63) mod 2 ^ 64 - 2 ^ 63.
Definition max_int : Z := 2 ^ 63 - 1.
Definition min_int : Z := - 2 ^ 63.

(** [len(s)] as a Go [int]. *)
Definition len {A : Type} (s : list A) : Z := Z.of_nat (length s).

(** Go integer division and remainder truncate toward zero and panic on a
    zero divisor. *)
Definition go_div (a b : Z) : Outcome Z :=
  if b =? 0 then Panic "runtime error: integer divide by zero"
  else Done (wrap64 (Z.quot a b)).

Definition go_mod (a b : Z) : Outcome Z :=
  if b =? 0 then Panic "runtime error: integer divide by zero"
  else Done (Z.rem a b).

(** [s[lo:hi]]; the slices of this program are never re-sliced beyond their
    length, so the bound is the length. *)
Definition go_slice {A : Type} (s : list A) (lo hi : Z) : Outcome (list A) :=
  if (0 <=? lo) && (lo <=? hi) && (hi <=? len s)
  then Done (take (Z.to_nat (hi - lo)) (drop (Z.to_nat lo) s))
  else Panic "runtime error: slice bounds out of range".

Definition nil_deref : string :=
  "runtime error: invalid memory address or nil pointer dereference".
Definition index_out_of_range : string := "runtime error: index out of range".

(** ** String-slice helpers *)

Fixpoint containsString (strSlice : list string) (searchStr : string) : bool :=
  match strSlice with
  | [] => false
  | value :: rest =>
      if String.eqb value searchStr then true else containsString rest searchStr
  end.

(** The pointer variant compares the pointed-to strings, exactly as
    [containsString] does on values. *)
Definition containsStringPointer : list string -> string -> bool := containsString.

Definition dedupeString (strSlice : list string) : list string :=
  fold_left
    (fun returnSlice value =>
       if negb (containsString returnSlice value)
       then returnSlice ++ [value] else returnSlice)
    strSlice [].

Definition dedupeStringPointer (strSlice : list string) : list string :=
  fold_left
    (fun returnSlice value =>
       if negb (containsStringPointer returnSlice value)
       then returnSlice ++ [value] else returnSlice)
    strSlice [].

(** The values taken by [i] in [for i := 1; i <= numBatches; i++]. *)
Definition loop_indices (numBatches : Z) : list Z :=
  map (fun k => Z.of_nat k) (seq 1 (Z.to_nat numBatches)).

Definition makeBatchesStringPointer (strSlice : list string) (batchSize : Z)
  : Outcome (list (list string)) :=
  numBatches ← go_div (len strSlice) batchSize;
  remainder ← go_mod (len strSlice) batchSize;
  batches ← rangeO
    (fun batches i =>
       let endIndex := wrap64 (i * batchSize) in
       let startIndex :=
         if i =? 1 then 0 else wrap64 (batchSize * wrap64 (i - 1)) in
       b ← go_slice strSlice startIndex endIndex;
       Done (batches ++ [b]))
    (loop_indices numBatches) [];
  if 0 <? remainder then
    let startIndex := wrap64 (len strSlice - remainder) in
    let endIndex := len strSlice in
    b ← go_slice strSlice startIndex endIndex;
    Done (batches ++ [b])
  else Done batches.

(** What the specification says deduplication keeps: the first occurrence
    of every element, in the original order. *)
Fixpoint first_occurrences (l : list string) : list string :=
  match l with
  | [] => []
  | x :: rest =>
      x :: List.filter (fun y => negb (String.eqb x y)) (first_occurrences rest)
  end.

(** [float64(x)] for an [int64] [x]. *)
Definition float64_of_int64 (z : Z) : float :=
  if 0 <=? z then PrimFloat.of_uint63 (Uint63.of_Z z)
  else if z =? - 2 ^ 63 then (-9223372036854775808)%float
  else PrimFloat.opp (PrimFloat.of_uint63 (Uint63.of_Z (- z))).


(** ** The provider's data (the parts of the AWS SDK types the code reads) *)

Definition Error : Type := string.
Definition Token : Type := string.

Module ec2.
Module Snapshot.
Record t : Type := {
  OwnerId : string;
  SnapshotId : string;
  VolumeId : string;
  StartTime : Z;
  VolumeSize : Z;
  Tags : list (string * string);
  Description : string
}.
End Snapshot.
Module Volume.
Record t : Type := { VolumeId : string }.
End Volume.
Module EbsBlockDevice.
Record t : Type := { SnapshotId : option string }.
End EbsBlockDevice.
Module BlockDeviceMapping.
Record t : Type := { Ebs : option EbsBlockDevice.t }.
End BlockDeviceMapping.
Module Image.
Record t : Type := {
  ImageId : string;
  BlockDeviceMappings : list BlockDeviceMapping.t
}.
End Image.
Module LaunchTemplateEbsBlockDevice.
Record t : Type := { SnapshotId : option string }.
End LaunchTemplateEbsBlockDevice.
Module LaunchTemplateBlockDeviceMapping.
Record t : Type := { Ebs : option LaunchTemplateEbsBlockDevice.t }.
End LaunchTemplateBlockDeviceMapping.
Module ResponseLaunchTemplateData.
Record t : Type := {
  ImageId : option string;
  BlockDeviceMappings : list LaunchTemplateBlockDeviceMapping.t
}.
End ResponseLaunchTemplateData.
Module LaunchTemplateVersion.
Record t : Type := {
  LaunchTemplateName : string;
  LaunchTemplateData : ResponseLaunchTemplateData.t
}.
End LaunchTemplateVersion.
Module LaunchPermission.
Record t : Type := { Group : option string; UserId : option string }.
End LaunchPermission.
End ec2.

Module autoscaling.
Module Ebs.
Record t : Type := { SnapshotId : option string }.
End Ebs.
Module BlockDeviceMapping.
Record t : Type := { Ebs : option Ebs.t }.
End BlockDeviceMapping.
Module LaunchConfiguration.
Record t : Type := {
  LaunchConfigurationName : string;
  ImageId : string;
  BlockDeviceMappings : list BlockDeviceMapping.t
}.
End LaunchConfiguration.
Module LaunchTemplateSpecification.
Record t : Type := { LaunchTemplateName : option string }.
End LaunchTemplateSpecification.
Module Group.
Record t : Type := {
  AutoScalingGroupName : string;
  LaunchConfigurationName : option string;
  LaunchTemplate : option LaunchTemplateSpecification.t
}.
End Group.
End autoscaling.

(** The choices of the Go runtime during the snapshot intake: which
    goroutine makes the next step. Goroutines are numbered from 0, the
    volume lookups first, then the page builders, each group in the order
    of its start; a number that names no goroutine, or one that is blocked,
    lets the step pass. [whilePaging pageNum] are the steps taken between
    the callback of page [pageNum] and the pager's next event,
    [whileWaiting] those taken at first while [getSnapshots] waits for the
    builders. *)
Record Scheduler : Type := {
  whilePaging : Z -> list nat;
  whileWaiting : list nat
}.

(** What the package does not control: the calls it makes to the outside
    and the runtime's scheduling. A call that returns [(output, err)] and
    whose output is only read when [err] is nil is a sum; [DescribeVolumes]
    keeps both components because its caller reads the output whatever the
    error. [DescribeSnapshots] gives the successive responses of the
    paginated call, in order. *)
Record Provider : Type := {
  time_Parse : string -> string -> Z * option Error;
  GetCallerIdentity : Error + string;
  DescribeSnapshots : list string -> Z -> list (Error + list ec2.Snapshot.t);
  DescribeVolumes : list string -> list ec2.Volume.t * option Error;
  DescribeImages : list string -> Error + list ec2.Image.t;
  DescribeImageAttribute : string -> string -> Error + list ec2.LaunchPermission.t;
  DescribeLaunchConfigurations :
    option Token -> Error + (list autoscaling.LaunchConfiguration.t * option Token);
  DescribeLaunchTemplateVersions :
    list string -> option Token ->
    Error + (list ec2.LaunchTemplateVersion.t * option Token);
  DescribeAutoScalingGroups :
    option Token -> Error + (list autoscaling.Group.t * option Token);
  Sprintf_f : float -> string;
  scheduler : Scheduler
}.

(** ** Searches over the resource index *)

Definition lcInASGs (lcName : string) (allAsgs : list autoscaling.Group.t)
  : bool * list string :=
  fold_left
    (fun '(inASGs, asgNames) asg =>
       match autoscaling.Group.LaunchConfigurationName asg with
       | Some asgLcName =>
           if String.eqb asgLcName lcName
           then (true, asgNames ++ [autoscaling.Group.AutoScalingGroupName asg])
           else (inASGs, asgNames)
       | None => (inASGs, asgNames)
       end)
    allAsgs (false, []).

Definition ltInASGs (ltName : string) (allAsgs : list autoscaling.Group.t)
  : bool * list string :=
  fold_left
    (fun '(inASGs, asgNames) asg =>
       match autoscaling.Group.LaunchTemplate asg with
       | Some spec =>
           match autoscaling.LaunchTemplateSpecification.LaunchTemplateName spec with
           | Some asgLtName =>
               if String.eqb asgLtName ltName
               then (true, asgNames ++ [autoscaling.Group.AutoScalingGroupName asg])
               else (inASGs, asgNames)
           | None => (inASGs, asgNames)
           end
       | None => (inASGs, asgNames)
       end)
    allAsgs (false, []).

(** [*lt.LaunchTemplateData.ImageId] and [bdm.Ebs.SnapshotId] are read
    without a nil check: a template without image, or a mapping without
    [Ebs], panics, whatever is searched for. *)
Definition ltsWithSnapImage (lts : list ec2.LaunchTemplateVersion.t)
    (snapshotId imageId : string) : Outcome (list string) :=
  rangeO
    (fun ltNames lt =>
       let data := ec2.LaunchTemplateVersion.LaunchTemplateData lt in
       match ec2.ResponseLaunchTemplateData.ImageId data with
       | None => Panic nil_deref
       | Some ltImageId =>
           let ltNames :=
             if String.eqb ltImageId imageId
             then ltNames ++ [ec2.LaunchTemplateVersion.LaunchTemplateName lt]
             else ltNames in
           rangeO
             (fun ltNames bdm =>
                match ec2.LaunchTemplateBlockDeviceMapping.Ebs bdm with
                | None => Panic nil_deref
                | Some ebs =>
                    match ec2.LaunchTemplateEbsBlockDevice.SnapshotId ebs with
                    | Some bdmSnap =>
                        if String.eqb bdmSnap snapshotId
                        then Done (ltNames ++
                                   [ec2.LaunchTemplateVersion.LaunchTemplateName lt])
                        else Done ltNames
                    | None => Done ltNames
                    end
                end)
             (ec2.ResponseLaunchTemplateData.BlockDeviceMappings data) ltNames
       end)
    lts [].

Definition lcsWithSnapImage (lcs : list autoscaling.LaunchConfiguration.t)
    (snapshotId imageId : string) : list string :=
  fold_left
    (fun lcNames lc =>
       let lcNames :=
         if String.eqb (autoscaling.LaunchConfiguration.ImageId lc) imageId
         then lcNames ++ [autoscaling.LaunchConfiguration.LaunchConfigurationName lc]
         else lcNames in
       fold_left
         (fun lcNames bdm =>
            match autoscaling.BlockDeviceMapping.Ebs bdm with
            | Some ebs =>
                match autoscaling.Ebs.SnapshotId ebs with
                | Some bdmSnap =>
                    if String.eqb bdmSnap snapshotId
                    then lcNames ++
                         [autoscaling.LaunchConfiguration.LaunchConfigurationName lc]
                    else lcNames
                | None => lcNames
                end
            | None => lcNames
            end)
         (autoscaling.LaunchConfiguration.BlockDeviceMappings lc) lcNames)
    lcs [].

(** ** Nuggets, bars and the expedition *)

(** A [*Nugget] is an index into [Expedition.Nuggets], a [*Bar] an index
    into [Expedition.Bars]; [None] is the nil pointer. *)
Module Nugget.
Record t : Type := {
  Snap : ec2.Snapshot.t;
  HasVol : bool;
  AMIIDs : list string;
  AMISharedWith : list string;
  LCs : list string;
  LTs : list string;
  ASGs : list string;
  parentBar : option nat
}.
Definition new (snap : ec2.Snapshot.t) : t :=
  {| Snap := snap; HasVol := false; AMIIDs := []; AMISharedWith := [];
     LCs := []; LTs := []; ASGs := []; parentBar := None |}.

Definition with_HasVol (n : t) (v : bool) : t :=
  {| Snap := Snap n; HasVol := v; AMIIDs := AMIIDs n;
     AMISharedWith := AMISharedWith n; LCs := LCs n; LTs := LTs n;
     ASGs := ASGs n; parentBar := parentBar n |}.

Definition with_AMIIDs (n : t) (v : list string) : t :=
  {| Snap := Snap n; HasVol := HasVol n; AMIIDs := v;
     AMISharedWith := AMISharedWith n; LCs := LCs n; LTs := LTs n;
     ASGs := ASGs n; parentBar := parentBar n |}.

Definition with_AMISharedWith (n : t) (v : list string) : t :=
  {| Snap := Snap n; HasVol := HasVol n; AMIIDs := AMIIDs n;
     AMISharedWith := v; LCs := LCs n; LTs := LTs n;
     ASGs := ASGs n; parentBar := parentBar n |}.

Definition with_LCs (n : t) (v : list string) : t :=
  {| Snap := Snap n; HasVol := HasVol n; AMIIDs := AMIIDs n;
     AMISharedWith := AMISharedWith n; LCs := v; LTs := LTs n;
     ASGs := ASGs n; parentBar := parentBar n |}.

Definition with_LTs (n : t) (v : list string) : t :=
  {| Snap := Snap n; HasVol := HasVol n; AMIIDs := AMIIDs n;
     AMISharedWith := AMISharedWith n; LCs := LCs n; LTs := v;
     ASGs := ASGs n; parentBar := parentBar n |}.

Definition with_ASGs (n : t) (v : list string) : t :=
  {| Snap := Snap n; HasVol := HasVol n; AMIIDs := AMIIDs n;
     AMISharedWith := AMISharedWith n; LCs := LCs n; LTs := LTs n;
     ASGs := v; parentBar := parentBar n |}.

Definition with_parentBar (n : t) (v : option nat) : t :=
  {| Snap := Snap n; HasVol := HasVol n; AMIIDs := AMIIDs n;
     AMISharedWith := AMISharedWith n; LCs := LCs n; LTs := LTs n;
     ASGs := ASGs n; parentBar := v |}.
End Nugget.

Module Bar.
Record t : Type := {
  VolumeId : string;
  Nuggets : list nat;
  HasVol : bool
}.

Definition with_Nuggets (b : t) (v : list nat) : t :=
  {| VolumeId := VolumeId b; Nuggets := v; HasVol := HasVol b |}.

Definition with_HasVol (b : t) (v : bool) : t :=
  {| VolumeId := VolumeId b; Nuggets := Nuggets b; HasVol := v |}.
End Bar.

Inductive Session : Type := aws_session.
Inductive Logger : Type := log15_logger.

(** ** Goroutines *)

(** The goroutines of the intake share [exp.queue], [exp.realVols] and
    [exp.Nuggets]. A goroutine is the tree of its accesses to them; each
    access is one step, and between two steps of a goroutine any other
    goroutine may run. What a goroutine does between two accesses concerns
    its own locals only and is computed in the continuation. The steps
    are interleaved, and a slice variable is read and assigned as a whole:
    [s = append(s, x)] is a [Load] followed by a [Store], so that an
    append made by another goroutine in between is lost. The backing array
    that two racing appends may share is not modelled (there an element of
    a slice already loaded can still be replaced by the element of a
    racing append), nor are the misuse checks of [sync.WaitGroup]. *)
Inductive Goroutine : Type :=
| Return
| Crash (msg : string)
| Receive (k : list ec2.Snapshot.t -> Goroutine)
| Go (child : Goroutine) (k : Goroutine)
| Wait (k : Goroutine)
| LoadRealVols (k : list ec2.Volume.t -> Goroutine)
| StoreRealVols (v : list ec2.Volume.t) (k : Goroutine)
| LoadNuggets (k : list Nugget.t -> Goroutine)
| StoreNuggets (v : list Nugget.t) (k : Goroutine).

(** [for _, x := range xs { body }] in a goroutine, followed by [k]. *)
Fixpoint rangeG {A : Type} (body : A -> Goroutine -> Goroutine) (xs : list A)
    (k : Goroutine) : Goroutine :=
  match xs with
  | [] => k
  | x :: rest => body x (rangeG body rest k)
  end.

(** A wait group is the list of the goroutines it counts: those started
    after its [Add] whose deferred [Done] has not run yet. [wgq] counts the
    page builders, [wgv] the volume lookups. [queue] is the content of the
    buffered channel. *)
Record Expedition : Type := {
  Bars : list Bar.t;
  Nuggets : list Nugget.t;
  LtsToDelete : list string;
  LcsToDelete : list string;
  AmiToDelete : list string;
  SnapToDelete : list string;
  account : string;
  cutoffDate : Z;
  maxPages : Z;
  pageSize : Z;
  volBatchSize : Z;
  session : option Session;
  wgq : list Goroutine;
  wgv : list Goroutine;
  queue : list (list ec2.Snapshot.t);
  realVols : list ec2.Volume.t;
  log : option Logger;
  ebsSnapRate : float;
  dateFilter : string;
  outfileRecommendations : string;
  outfileNuggets : string;
  outfileBars : string;
  recommendations : list string
}.

Definition with_Bars (e : Expedition) (v : list Bar.t) : Expedition :=
  {| Bars := v; Nuggets := Nuggets e; LtsToDelete := LtsToDelete e;
     LcsToDelete := LcsToDelete e; AmiToDelete := AmiToDelete e;
     SnapToDelete := SnapToDelete e; account := account e; cutoffDate :=
     cutoffDate e; maxPages := maxPages e; pageSize := pageSize e;
     volBatchSize := volBatchSize e; session := session e; wgq := wgq e; wgv
     := wgv e; queue := queue e; realVols := realVols e; log := log e;
     ebsSnapRate := ebsSnapRate e; dateFilter := dateFilter e;
     outfileRecommendations := outfileRecommendations e; outfileNuggets :=
     outfileNuggets e; outfileBars := outfileBars e; recommendations :=
     recommendations e |}.

Definition with_Nuggets (e : Expedition) (v : list Nugget.t) : Expedition :=
  {| Bars := Bars e; Nuggets := v; LtsToDelete := LtsToDelete e; LcsToDelete
     := LcsToDelete e; AmiToDelete := AmiToDelete e; SnapToDelete :=
     SnapToDelete e; account := account e; cutoffDate := cutoffDate e;
     maxPages := maxPages e; pageSize := pageSize e; volBatchSize :=
     volBatchSize e; session := session e; wgq := wgq e; wgv := wgv e; queue
     := queue e; realVols := realVols e; log := log e; ebsSnapRate :=
     ebsSnapRate e; dateFilter := dateFilter e; outfileRecommendations :=
     outfileRecommendations e; outfileNuggets := outfileNuggets e;
     outfileBars := outfileBars e; recommendations := recommendations e |}.

Definition with_LtsToDelete (e : Expedition) (v : list string) : Expedition :=
  {| Bars := Bars e; Nuggets := Nuggets e; LtsToDelete := v; LcsToDelete :=
     LcsToDelete e; AmiToDelete := AmiToDelete e; SnapToDelete :=
     SnapToDelete e; account := account e; cutoffDate := cutoffDate e;
     maxPages := maxPages e; pageSize := pageSize e; volBatchSize :=
     volBatchSize e; session := session e; wgq := wgq e; wgv := wgv e; queue
     := queue e; realVols := realVols e; log := log e; ebsSnapRate :=
     ebsSnapRate e; dateFilter := dateFilter e; outfileRecommendations :=
     outfileRecommendations e; outfileNuggets := outfileNuggets e;
     outfileBars := outfileBars e; recommendations := recommendations e |}.

Definition with_LcsToDelete (e : Expedition) (v : list string) : Expedition :=
  {| Bars := Bars e; Nuggets := Nuggets e; LtsToDelete := LtsToDelete e;
     LcsToDelete := v; AmiToDelete := AmiToDelete e; SnapToDelete :=
     SnapToDelete e; account := account e; cutoffDate := cutoffDate e;
     maxPages := maxPages e; pageSize := pageSize e; volBatchSize :=
     volBatchSize e; session := session e; wgq := wgq e; wgv := wgv e; queue
     := queue e; realVols := realVols e; log := log e; ebsSnapRate :=
     ebsSnapRate e; dateFilter := dateFilter e; outfileRecommendations :=
     outfileRecommendations e; outfileNuggets := outfileNuggets e;
     outfileBars := outfileBars e; recommendations := recommendations e |}.

Definition with_AmiToDelete (e : Expedition) (v : list string) : Expedition :=
  {| Bars := Bars e; Nuggets := Nuggets e; LtsToDelete := LtsToDelete e;
     LcsToDelete := LcsToDelete e; AmiToDelete := v; SnapToDelete :=
     SnapToDelete e; account := account e; cutoffDate := cutoffDate e;
     maxPages := maxPages e; pageSize := pageSize e; volBatchSize :=
     volBatchSize e; session := session e; wgq := wgq e; wgv := wgv e; queue
     := queue e; realVols := realVols e; log := log e; ebsSnapRate :=
     ebsSnapRate e; dateFilter := dateFilter e; outfileRecommendations :=
     outfileRecommendations e; outfileNuggets := outfileNuggets e;
     outfileBars := outfileBars e; recommendations := recommendations e |}.

Definition with_SnapToDelete (e : Expedition) (v : list string) : Expedition :=
  {| Bars := Bars e; Nuggets := Nuggets e; LtsToDelete := LtsToDelete e;
     LcsToDelete := LcsToDelete e; AmiToDelete := AmiToDelete e;
     SnapToDelete := v; account := account e; cutoffDate := cutoffDate e;
     maxPages := maxPages e; pageSize := pageSize e; volBatchSize :=
     volBatchSize e; session := session e; wgq := wgq e; wgv := wgv e; queue
     := queue e; realVols := realVols e; log := log e; ebsSnapRate :=
     ebsSnapRate e; dateFilter := dateFilter e; outfileRecommendations :=
     outfileRecommendations e; outfileNuggets := outfileNuggets e;
     outfileBars := outfileBars e; recommendations := recommendations e |}.

Definition with_account (e : Expedition) (v : string) : Expedition :=
  {| Bars := Bars e; Nuggets := Nuggets e; LtsToDelete := LtsToDelete e;
     LcsToDelete := LcsToDelete e; AmiToDelete := AmiToDelete e;
     SnapToDelete := SnapToDelete e; account := v; cutoffDate := cutoffDate
     e; maxPages := maxPages e; pageSize := pageSize e; volBatchSize :=
     volBatchSize e; session := session e; wgq := wgq e; wgv := wgv e; queue
     := queue e; realVols := realVols e; log := log e; ebsSnapRate :=
     ebsSnapRate e; dateFilter := dateFilter e; outfileRecommendations :=
     outfileRecommendations e; outfileNuggets := outfileNuggets e;
     outfileBars := outfileBars e; recommendations := recommendations e |}.

Definition with_cutoffDate (e : Expedition) (v : Z) : Expedition :=
  {| Bars := Bars e; Nuggets := Nuggets e; LtsToDelete := LtsToDelete e;
     LcsToDelete := LcsToDelete e; AmiToDelete := AmiToDelete e;
     SnapToDelete := SnapToDelete e; account := account e; cutoffDate := v;
     maxPages := maxPages e; pageSize := pageSize e; volBatchSize :=
     volBatchSize e; session := session e; wgq := wgq e; wgv := wgv e; queue
     := queue e; realVols := realVols e; log := log e; ebsSnapRate :=
     ebsSnapRate e; dateFilter := dateFilter e; outfileRecommendations :=
     outfileRecommendations e; outfileNuggets := outfileNuggets e;
     outfileBars := outfileBars e; recommendations := recommendations e |}.

Definition with_maxPages (e : Expedition) (v : Z) : Expedition :=
  {| Bars := Bars e; Nuggets := Nuggets e; LtsToDelete := LtsToDelete e;
     LcsToDelete := LcsToDelete e; AmiToDelete := AmiToDelete e;
     SnapToDelete := SnapToDelete e; account := account e; cutoffDate :=
     cutoffDate e; maxPages := v; pageSize := pageSize e; volBatchSize :=
     volBatchSize e; session := session e; wgq := wgq e; wgv := wgv e; queue
     := queue e; realVols := realVols e; log := log e; ebsSnapRate :=
     ebsSnapRate e; dateFilter := dateFilter e; outfileRecommendations :=
     outfileRecommendations e; outfileNuggets := outfileNuggets e;
     outfileBars := outfileBars e; recommendations := recommendations e |}.

Definition with_pageSize (e : Expedition) (v : Z) : Expedition :=
  {| Bars := Bars e; Nuggets := Nuggets e; LtsToDelete := LtsToDelete e;
     LcsToDelete := LcsToDelete e; AmiToDelete := AmiToDelete e;
     SnapToDelete := SnapToDelete e; account := account e; cutoffDate :=
     cutoffDate e; maxPages := maxPages e; pageSize := v; volBatchSize :=
     volBatchSize e; session := session e; wgq := wgq e; wgv := wgv e; queue
     := queue e; realVols := realVols e; log := log e; ebsSnapRate :=
     ebsSnapRate e; dateFilter := dateFilter e; outfileRecommendations :=
     outfileRecommendations e; outfileNuggets := outfileNuggets e;
     outfileBars := outfileBars e; recommendations := recommendations e |}.

Definition with_volBatchSize (e : Expedition) (v : Z) : Expedition :=
  {| Bars := Bars e; Nuggets := Nuggets e; LtsToDelete := LtsToDelete e;
     LcsToDelete := LcsToDelete e; AmiToDelete := AmiToDelete e;
     SnapToDelete := SnapToDelete e; account := account e; cutoffDate :=
     cutoffDate e; maxPages := maxPages e; pageSize := pageSize e;
     volBatchSize := v; session := session e; wgq := wgq e; wgv := wgv e;
     queue := queue e; realVols := realVols e; log := log e; ebsSnapRate :=
     ebsSnapRate e; dateFilter := dateFilter e; outfileRecommendations :=
     outfileRecommendations e; outfileNuggets := outfileNuggets e;
     outfileBars := outfileBars e; recommendations := recommendations e |}.

Definition with_session (e : Expedition) (v : option Session) : Expedition :=
  {| Bars := Bars e; Nuggets := Nuggets e; LtsToDelete := LtsToDelete e;
     LcsToDelete := LcsToDelete e; AmiToDelete := AmiToDelete e;
     SnapToDelete := SnapToDelete e; account := account e; cutoffDate :=
     cutoffDate e; maxPages := maxPages e; pageSize := pageSize e;
     volBatchSize := volBatchSize e; session := v; wgq := wgq e; wgv := wgv
     e; queue := queue e; realVols := realVols e; log := log e; ebsSnapRate
     := ebsSnapRate e; dateFilter := dateFilter e; outfileRecommendations :=
     outfileRecommendations e; outfileNuggets := outfileNuggets e;
     outfileBars := outfileBars e; recommendations := recommendations e |}.

Definition with_wgq (e : Expedition) (v : list Goroutine) : Expedition :=
  {| Bars := Bars e; Nuggets := Nuggets e; LtsToDelete := LtsToDelete e;
     LcsToDelete := LcsToDelete e; AmiToDelete := AmiToDelete e;
     SnapToDelete := SnapToDelete e; account := account e; cutoffDate :=
     cutoffDate e; maxPages := maxPages e; pageSize := pageSize e;
     volBatchSize := volBatchSize e; session := session e; wgq := v; wgv :=
     wgv e; queue := queue e; realVols := realVols e; log := log e;
     ebsSnapRate := ebsSnapRate e; dateFilter := dateFilter e;
     outfileRecommendations := outfileRecommendations e; outfileNuggets :=
     outfileNuggets e; outfileBars := outfileBars e; recommendations :=
     recommendations e |}.

Definition with_wgv (e : Expedition) (v : list Goroutine) : Expedition :=
  {| Bars := Bars e; Nuggets := Nuggets e; LtsToDelete := LtsToDelete e;
     LcsToDelete := LcsToDelete e; AmiToDelete := AmiToDelete e;
     SnapToDelete := SnapToDelete e; account := account e; cutoffDate :=
     cutoffDate e; maxPages := maxPages e; pageSize := pageSize e;
     volBatchSize := volBatchSize e; session := session e; wgq := wgq e; wgv
     := v; queue := queue e; realVols := realVols e; log := log e;
     ebsSnapRate := ebsSnapRate e; dateFilter := dateFilter e;
     outfileRecommendations := outfileRecommendations e; outfileNuggets :=
     outfileNuggets e; outfileBars := outfileBars e; recommendations :=
     recommendations e |}.

Definition with_queue (e : Expedition) (v : list (list ec2.Snapshot.t)) : Expedition :=
  {| Bars := Bars e; Nuggets := Nuggets e; LtsToDelete := LtsToDelete e;
     LcsToDelete := LcsToDelete e; AmiToDelete := AmiToDelete e;
     SnapToDelete := SnapToDelete e; account := account e; cutoffDate :=
     cutoffDate e; maxPages := maxPages e; pageSize := pageSize e;
     volBatchSize := volBatchSize e; session := session e; wgq := wgq e; wgv
     := wgv e; queue := v; realVols := realVols e; log := log e; ebsSnapRate
     := ebsSnapRate e; dateFilter := dateFilter e; outfileRecommendations :=
     outfileRecommendations e; outfileNuggets := outfileNuggets e;
     outfileBars := outfileBars e; recommendations := recommendations e |}.

Definition with_realVols (e : Expedition) (v : list ec2.Volume.t) : Expedition :=
  {| Bars := Bars e; Nuggets := Nuggets e; LtsToDelete := LtsToDelete e;
     LcsToDelete := LcsToDelete e; AmiToDelete := AmiToDelete e;
     SnapToDelete := SnapToDelete e; account := account e; cutoffDate :=
     cutoffDate e; maxPages := maxPages e; pageSize := pageSize e;
     volBatchSize := volBatchSize e; session := session e; wgq := wgq e; wgv
     := wgv e; queue := queue e; realVols := v; log := log e; ebsSnapRate :=
     ebsSnapRate e; dateFilter := dateFilter e; outfileRecommendations :=
     outfileRecommendations e; outfileNuggets := outfileNuggets e;
     outfileBars := outfileBars e; recommendations := recommendations e |}.

Definition with_log (e : Expedition) (v : option Logger) : Expedition :=
  {| Bars := Bars e; Nuggets := Nuggets e; LtsToDelete := LtsToDelete e;
     LcsToDelete := LcsToDelete e; AmiToDelete := AmiToDelete e;
     SnapToDelete := SnapToDelete e; account := account e; cutoffDate :=
     cutoffDate e; maxPages := maxPages e; pageSize := pageSize e;
     volBatchSize := volBatchSize e; session := session e; wgq := wgq e; wgv
     := wgv e; queue := queue e; realVols := realVols e; log := v;
     ebsSnapRate := ebsSnapRate e; dateFilter := dateFilter e;
     outfileRecommendations := outfileRecommendations e; outfileNuggets :=
     outfileNuggets e; outfileBars := outfileBars e; recommendations :=
     recommendations e |}.

Definition with_ebsSnapRate (e : Expedition) (v : float) : Expedition :=
  {| Bars := Bars e; Nuggets := Nuggets e; LtsToDelete := LtsToDelete e;
     LcsToDelete := LcsToDelete e; AmiToDelete := AmiToDelete e;
     SnapToDelete := SnapToDelete e; account := account e; cutoffDate :=
     cutoffDate e; maxPages := maxPages e; pageSize := pageSize e;
     volBatchSize := volBatchSize e; session := session e; wgq := wgq e; wgv
     := wgv e; queue := queue e; realVols := realVols e; log := log e;
     ebsSnapRate := v; dateFilter := dateFilter e; outfileRecommendations :=
     outfileRecommendations e; outfileNuggets := outfileNuggets e;
     outfileBars := outfileBars e; recommendations := recommendations e |}.

Definition with_dateFilter (e : Expedition) (v : string) : Expedition :=
  {| Bars := Bars e; Nuggets := Nuggets e; LtsToDelete := LtsToDelete e;
     LcsToDelete := LcsToDelete e; AmiToDelete := AmiToDelete e;
     SnapToDelete := SnapToDelete e; account := account e; cutoffDate :=
     cutoffDate e; maxPages := maxPages e; pageSize := pageSize e;
     volBatchSize := volBatchSize e; session := session e; wgq := wgq e; wgv
     := wgv e; queue := queue e; realVols := realVols e; log := log e;
     ebsSnapRate := ebsSnapRate e; dateFilter := v; outfileRecommendations
     := outfileRecommendations e; outfileNuggets := outfileNuggets e;
     outfileBars := outfileBars e; recommendations := recommendations e |}.

Definition with_outfileRecommendations (e : Expedition) (v : string) : Expedition :=
  {| Bars := Bars e; Nuggets := Nuggets e; LtsToDelete := LtsToDelete e;
     LcsToDelete := LcsToDelete e; AmiToDelete := AmiToDelete e;
     SnapToDelete := SnapToDelete e; account := account e; cutoffDate :=
     cutoffDate e; maxPages := maxPages e; pageSize := pageSize e;
     volBatchSize := volBatchSize e; session := session e; wgq := wgq e; wgv
     := wgv e; queue := queue e; realVols := realVols e; log := log e;
     ebsSnapRate := ebsSnapRate e; dateFilter := dateFilter e;
     outfileRecommendations := v; outfileNuggets := outfileNuggets e;
     outfileBars := outfileBars e; recommendations := recommendations e |}.

Definition with_outfileNuggets (e : Expedition) (v : string) : Expedition :=
  {| Bars := Bars e; Nuggets := Nuggets e; LtsToDelete := LtsToDelete e;
     LcsToDelete := LcsToDelete e; AmiToDelete := AmiToDelete e;
     SnapToDelete := SnapToDelete e; account := account e; cutoffDate :=
     cutoffDate e; maxPages := maxPages e; pageSize := pageSize e;
     volBatchSize := volBatchSize e; session := session e; wgq := wgq e; wgv
     := wgv e; queue := queue e; realVols := realVols e; log := log e;
     ebsSnapRate := ebsSnapRate e; dateFilter := dateFilter e;
     outfileRecommendations := outfileRecommendations e; outfileNuggets :=
     v; outfileBars := outfileBars e; recommendations := recommendations e
     |}.

Definition with_outfileBars (e : Expedition) (v : string) : Expedition :=
  {| Bars := Bars e; Nuggets := Nuggets e; LtsToDelete := LtsToDelete e;
     LcsToDelete := LcsToDelete e; AmiToDelete := AmiToDelete e;
     SnapToDelete := SnapToDelete e; account := account e; cutoffDate :=
     cutoffDate e; maxPages := maxPages e; pageSize := pageSize e;
     volBatchSize := volBatchSize e; session := session e; wgq := wgq e; wgv
     := wgv e; queue := queue e; realVols := realVols e; log := log e;
     ebsSnapRate := ebsSnapRate e; dateFilter := dateFilter e;
     outfileRecommendations := outfileRecommendations e; outfileNuggets :=
     outfileNuggets e; outfileBars := v; recommendations := recommendations
     e |}.

Definition with_recommendations (e : Expedition) (v : list string) : Expedition :=
  {| Bars := Bars e; Nuggets := Nuggets e; LtsToDelete := LtsToDelete e;
     LcsToDelete := LcsToDelete e; AmiToDelete := AmiToDelete e;
     SnapToDelete := SnapToDelete e; account := account e; cutoffDate :=
     cutoffDate e; maxPages := maxPages e; pageSize := pageSize e;
     volBatchSize := volBatchSize e; session := session e; wgq := wgq e; wgv
     := wgv e; queue := queue e; realVols := realVols e; log := log e;
     ebsSnapRate := ebsSnapRate e; dateFilter := dateFilter e;
     outfileRecommendations := outfileRecommendations e; outfileNuggets :=
     outfileNuggets e; outfileBars := outfileBars e; recommendations := v |}.

(** ** Methods of [*Expedition]: state passing, with panics *)

Definition M (A : Type) : Type := Expedition -> Outcome (A * Expedition).

#[global] Instance M_ret : MRet M := fun _ a exp => Done (a, exp).
#[global] Instance M_bind : MBind M := fun _ _ f m exp =>
  match m exp with
  | Done (a, exp') => f a exp'
  | Panic msg => Panic msg
  end.

Definition get : M Expedition := fun exp => Done (exp, exp).
Definition modify (f : Expedition -> Expedition) : M unit :=
  fun exp => Done (tt, f exp).
Definition liftO {A : Type} (o : Outcome A) : M A :=
  fun exp => match o with Done a => Done (a, exp) | Panic msg => Panic msg end.
Definition panic {A : Type} (msg : string) : M A := fun _ => Panic msg.


(** Reading and writing through a [*Nugget] or a [*Bar]. *)
Definition derefNugget (p : nat) : M Nugget.t := fun exp =>
  match Nuggets exp !! p with
  | Some n => Done (n, exp)
  | None => Panic nil_deref
  end.

Definition storeNugget (p : nat) (n : Nugget.t) : M unit :=
  modify (fun exp => with_Nuggets exp (<[p := n]> (Nuggets exp))).

Definition derefBar (p : nat) : M Bar.t := fun exp =>
  match Bars exp !! p with
  | Some b => Done (b, exp)
  | None => Panic nil_deref
  end.

Definition storeBar (p : nat) (b : Bar.t) : M unit :=
  modify (fun exp => with_Bars exp (<[p := b]> (Bars exp))).

(** [for _, x := range xs { acc = body(acc, x) }] over the expedition. *)
Fixpoint rangeM {A B : Type} (body : B -> A -> M B) (xs : list A) (acc : B) : M B :=
  match xs with
  | [] => mret acc
  | x :: rest => acc' ← body acc x; rangeM body rest acc'
  end.

(** A range loop whose body may [return err]: the loop stops at the first
    non-nil error. *)
Fixpoint rangeE {A : Type} (body : A -> M (option Error)) (xs : list A)
  : M (option Error) :=
  match xs with
  | [] => mret None
  | x :: rest =>
      err ← body x;
      match err with
      | Some e => mret (Some e)
      | None => rangeE body rest
      end
  end.

(** The pointers met by [for _, p := range slice] over a slice of pointers. *)
Definition pointers {A : Type} (slice : list A) : list nat := seq 0 (length slice).

(** *** Aggregation into bars *)

Definition addBar (n : nat) : M unit :=
  exp ← get;
  found ← rangeM
    (fun found bar =>
       b ← derefBar bar;
       nug ← derefNugget n;
       if String.eqb (Bar.VolumeId b) (ec2.Snapshot.VolumeId (Nugget.Snap nug))
       then
         _ ← storeNugget n (Nugget.with_parentBar nug (Some bar));
         _ ← storeBar bar (Bar.with_Nuggets b (Bar.Nuggets b ++ [n]));
         mret true
       else mret found)
    (pointers (Bars exp)) false;
  if negb found then
    nug ← derefNugget n;
    exp ← get;
    let b := {| Bar.VolumeId := ec2.Snapshot.VolumeId (Nugget.Snap nug);
                Bar.Nuggets := []; Bar.HasVol := false |} in
    let bar := length (Bars exp) in
    _ ← storeNugget n (Nugget.with_parentBar nug (Some bar));
    let b := Bar.with_Nuggets b (Bar.Nuggets b ++ [n]) in
    let b := Bar.with_HasVol b (Nugget.HasVol nug) in
    modify (fun exp => with_Bars exp (Bars exp ++ [b]))
  else mret tt.

Definition addBars : M unit :=
  exp ← get;
  rangeM (fun _ nug => addBar nug) (pointers (Nuggets exp)) tt.

(** *** The deletion plan *)

Definition newline : string := String (ascii_of_nat 10) EmptyString.
Definition tab : string := String (ascii_of_nat 9) EmptyString.

(** [fmt.Sprintf("%d", z)]. *)
Definition Sprintf_d (z : Z) : string := NilZero.string_of_int (Z.to_int z).

(** The first loop of [setRecommendations]: it appends to the four plan
    sequences of the expedition and returns its locals
    [(countAsgShare, countHasVol, barsToDelete)]. *)
Definition collectDeletable : M (Z * Z * list (option nat)) :=
  exp ← get;
  rangeM
    (fun '(countAsgShare, countHasVol, barsToDelete) bar =>
       b ← derefBar bar;
       if negb (Bar.HasVol b) then
         rangeM
           (fun '(countAsgShare, countHasVol, barsToDelete) nug =>
              n ← derefNugget nug;
              if (len (Nugget.ASGs n) =? 0) && (len (Nugget.AMISharedWith n) =? 0)
              then
                _ ← modify (fun exp =>
                       with_LtsToDelete exp (LtsToDelete exp ++ Nugget.LTs n));
                _ ← modify (fun exp =>
                       with_LcsToDelete exp (LcsToDelete exp ++ Nugget.LCs n));
                _ ← modify (fun exp =>
                       with_AmiToDelete exp (AmiToDelete exp ++ Nugget.AMIIDs n));
                _ ← modify (fun exp =>
                       with_SnapToDelete exp
                         (SnapToDelete exp ++ [ec2.Snapshot.SnapshotId (Nugget.Snap n)]));
                mret (countAsgShare, countHasVol, barsToDelete ++ [Nugget.parentBar n])
              else mret (wrap64 (countAsgShare + 1), countHasVol, barsToDelete))
           (Bar.Nuggets b) (countAsgShare, countHasVol, barsToDelete)
       else mret (countAsgShare, wrap64 (countHasVol + 1), barsToDelete))
    (pointers (Bars exp)) (0, 0, []).

(** The cost loop of [setRecommendations] over [barsToDelete]. *)
Definition totalGbsOf (barsToDelete : list (option nat)) : M Z :=
  rangeM
    (fun totalGbs b =>
       match b with
       | None => panic nil_deref
       | Some p =>
           bar ← derefBar p;
           if negb (Bar.HasVol bar) then
             match Bar.Nuggets bar with
             | [] => panic index_out_of_range
             | first :: _ =>
                 n ← derefNugget first;
                 mret (wrap64 (totalGbs + ec2.Snapshot.VolumeSize (Nugget.Snap n)))
             end
           else mret totalGbs
       end)
    barsToDelete 0.

Definition planLines (exp : Expedition) (countAsgShare countHasVol : Z) : list string :=
  let msg : list string := [] in
  let intro :=
    ("After analyzing the account we can see that there " ++
     "are " ++ Sprintf_d (len (SnapToDelete exp)) ++
     " snapshots that can be deleted because they were created " ++
     "before " ++ dateFilter exp ++
     " and are not used in any AutoScaling group or AMI sharing " ++
     "capacity. However, before these snapshots can be deleted several " ++
     "other resources need to be deleted first. Below you can find the " ++
     "ordered deletion plan:" ++ newline ++ newline)%string in
  let msg := msg ++ [intro] in
  let msg := msg ++ [
    ("Some of the snapshots we need to delete are " ++
     "currently registered as AMIs or used in Launch Templates/Configs. " ++
     "However we've detected that those AMI's and Launch Templates/Configs " ++
     "are not used in any autoscaling group. This doesn't mean they're " ++
     "not being used by someone (e.g., referenced in a cloudformation " ++
     "template). You should be safe to delete them but you should always " ++
     "check to be sure" ++ newline ++ newline ++
     "If you feel comfortable then here's the plan:" ++ newline)%string] in
  let msg := msg ++ ["Delete the following LaunchTemplates first:"%string] in
  let msg := fold_left (fun msg lt => msg ++ [(tab ++ lt)%string]) (LtsToDelete exp) msg in
  let msg := msg ++ ["then delete the following LaunchConfigurations:"%string] in
  let msg := fold_left (fun msg lc => msg ++ [(tab ++ lc)%string]) (LcsToDelete exp) msg in
  let msg := msg ++ ["then delete the following AMIs:"%string] in
  let msg := fold_left (fun msg ami => msg ++ [(tab ++ ami)%string]) (AmiToDelete exp) msg in
  let msg := msg ++ ["then finally delete the following Snapshots:"%string] in
  let msg := fold_left (fun msg snap => msg ++ [(tab ++ snap)%string]) (SnapToDelete exp) msg in
  let msg := msg ++ [
    (Sprintf_d countHasVol ++
     " snapshots were spared because their EBS volume still exists")%string] in
  msg ++ [
    (Sprintf_d countAsgShare ++
     " snapshots were spared because they were associated with an " ++
     "autoscaling group, were shared directly to another account, " ++
     "or were registered as an AMI that was shared to another account.")%string].

(** The cost sentence closing the recommendations. *)
Definition savingsLine (aws : Provider) (totalGbs : Z) (rate : float) : string :=
  let totalSavings := PrimFloat.mul (float64_of_int64 totalGbs) rate in
  ("Total size of eligible for deletion " ++
   "is " ++ Sprintf_d totalGbs ++ " GB. At a per GB-month rate of $" ++
   Sprintf_f aws rate ++ " " ++
   "there is a potential savings of $" ++ Sprintf_f aws totalSavings)%string.

Definition setRecommendations (aws : Provider) : M unit :=
  '(countAsgShare, countHasVol, barsToDelete) ← collectDeletable;
  _ ← modify (fun exp => with_LtsToDelete exp (dedupeString (LtsToDelete exp)));
  _ ← modify (fun exp => with_LcsToDelete exp (dedupeString (LcsToDelete exp)));
  _ ← modify (fun exp => with_AmiToDelete exp (dedupeString (AmiToDelete exp)));
  _ ← modify (fun exp => with_SnapToDelete exp (dedupeString (SnapToDelete exp)));
  exp ← get;
  let msg := planLines exp countAsgShare countHasVol in
  totalGbs ← totalGbsOf barsToDelete;
  let s := savingsLine aws totalGbs (ebsSnapRate exp) in
  let msg := msg ++ [s] in
  modify (fun exp => with_recommendations exp msg).

Definition GetRecommendations (exp : Expedition) : list string := recommendations exp.

(** *** Paginated listings of the resource index *)

(** The loop [for i < max] of the three describe functions, entered with
    [i = 2] and [max = 50]: at most [fuel = 48] further calls. *)
Fixpoint followTokens {A : Type}
    (call : option Token -> Error + (list A * option Token))
    (fuel : nat) (next : option Token) (acc : list A) : list A * option Error :=
  match fuel with
  | O => (acc, None)
  | S fuel' =>
      match next with
      | Some tok =>
          match call (Some tok) with
          | inl err => (acc, Some err)
          | inr (items, next') => followTokens call fuel' next' (acc ++ items)
          end
      | None => (acc, None)
      end
  end.

Definition describeLaunchTemplates (aws : Provider)
  : list ec2.LaunchTemplateVersion.t * option Error :=
  match DescribeLaunchTemplateVersions aws ["$Latest"%string] None with
  | inl err => ([], Some err)
  | inr (lts, next) =>
      followTokens (DescribeLaunchTemplateVersions aws []) 48 next lts
  end.

Definition describeLaunchConfigurations (aws : Provider)
  : list autoscaling.LaunchConfiguration.t * option Error :=
  match DescribeLaunchConfigurations aws None with
  | inl err => ([], Some err)
  | inr (lcs, next) => followTokens (DescribeLaunchConfigurations aws) 48 next lcs
  end.

Definition describeASGs (aws : Provider) : list autoscaling.Group.t * option Error :=
  match DescribeAutoScalingGroups aws None with
  | inl err => ([], Some err)
  | inr (asgs, next) => followTokens (DescribeAutoScalingGroups aws) 48 next asgs
  end.

Definition describeImagesOwnedByThisAccount (aws : Provider)
  : list ec2.Image.t * option Error :=
  match GetCallerIdentity aws with
  | inl err => ([], Some err)
  | inr acct =>
      match DescribeImages aws [acct] with
      | inl err => ([], Some err)
      | inr images => (images, None)
      end
  end.

Definition imageSharedTo (aws : Provider) (ami : string) : list string * option Error :=
  match DescribeImageAttribute aws "launchPermission" ami with
  | inl err => ([], Some err)
  | inr perms =>
      (fold_left
         (fun accts perm =>
            let accts :=
              match ec2.LaunchPermission.Group perm with
              | Some g => accts ++ [g]
              | None => accts
              end in
            match ec2.LaunchPermission.UserId perm with
            | Some u => accts ++ [u]
            | None => accts
            end)
         perms [], None)
  end.

(** *** Correlation *)

(** What [populateNuggets] does to a nugget whose snapshot an image maps,
    up to the sharing lookup. *)
Definition correlate (lcs : list autoscaling.LaunchConfiguration.t)
    (lts : list ec2.LaunchTemplateVersion.t) (asgs : list autoscaling.Group.t)
    (imageId : string) (snap : Nugget.t) : Outcome Nugget.t :=
  let snapshotId := ec2.Snapshot.SnapshotId (Nugget.Snap snap) in
  let snap := Nugget.with_AMIIDs snap (Nugget.AMIIDs snap ++ [imageId]) in
  let snap := Nugget.with_LCs snap (lcsWithSnapImage lcs snapshotId imageId) in
  ltNames ← ltsWithSnapImage lts snapshotId imageId;
  let snap := Nugget.with_LTs snap ltNames in
  let snap :=
    fold_left (fun snap lc => Nugget.with_ASGs snap (snd (lcInASGs lc asgs)))
      (Nugget.LCs snap) snap in
  Done
    (fold_left (fun snap lt => Nugget.with_ASGs snap (snd (ltInASGs lt asgs)))
       (Nugget.LTs snap) snap).

Definition populateNuggets (aws : Provider) : M (option Error) :=
  let '(lcs, err) := describeLaunchConfigurations aws in
  match err with Some e => mret (Some e) | None =>
  let '(lts, err) := describeLaunchTemplates aws in
  match err with Some e => mret (Some e) | None =>
  let '(images, err) := describeImagesOwnedByThisAccount aws in
  match err with Some e => mret (Some e) | None =>
  let '(asgs, err) := describeASGs aws in
  match err with Some e => mret (Some e) | None =>
  exp ← get;
  rangeE
    (fun image =>
       rangeE
         (fun snap =>
            rangeE
              (fun bdm =>
                 match ec2.BlockDeviceMapping.Ebs bdm with
                 | Some ebs =>
                     match ec2.EbsBlockDevice.SnapshotId ebs with
                     | Some bdmSnap =>
                         nug ← derefNugget snap;
                         if String.eqb (ec2.Snapshot.SnapshotId (Nugget.Snap nug)) bdmSnap
                         then
                           nug ← liftO
                                   (correlate lcs lts asgs (ec2.Image.ImageId image) nug);
                           let '(accts, err) :=
                             imageSharedTo aws (ec2.Image.ImageId image) in
                           _ ← storeNugget snap (Nugget.with_AMISharedWith nug accts);
                           mret err
                         else mret None
                     | None => mret None
                     end
                 | None => mret None
                 end)
              (ec2.Image.BlockDeviceMappings image))
         (pointers (Nuggets exp)))
    images
  end end end end.

(** *** Snapshot intake *)

(** One batch of volume lookups, a goroutine: one provider call per
    identifier, whose error is dropped, and one unsynchronised append to
    [exp.realVols] per volume found. *)
Definition describeVolumes (aws : Provider) (inVols : list string) : Goroutine :=
  rangeG
    (fun vol k =>
       let r := fst (DescribeVolumes aws [vol]) in
       rangeG
         (fun vol k =>
            LoadRealVols (fun realVols => StoreRealVols (realVols ++ [vol]) k))
         r k)
    inVols Return.

(** The builder of one page, a goroutine; [volBatchSize] is the field of
    the expedition, which nothing assigns during the intake. It starts one
    lookup goroutine per batch, waits until no lookup is running, reads
    [exp.realVols] once for its marking loop and appends its nuggets to
    [exp.Nuggets], unsynchronised. *)
Definition buildNuggets (aws : Provider) (volBatchSize : Z) : Goroutine :=
  Receive (fun snaps =>
    let '(nuggets, inVols) :=
      fold_left
        (fun '(nuggets, inVols) snap =>
           (nuggets ++ [Nugget.new snap], inVols ++ [ec2.Snapshot.VolumeId snap]))
        snaps ([], []) in
    let inVolsD := dedupeStringPointer inVols in
    match makeBatchesStringPointer inVolsD volBatchSize with
    | Panic msg => Crash msg
    | Done batchVols =>
        rangeG (fun batch k => Go (describeVolumes aws batch) k) batchVols
          (Wait
             (LoadRealVols (fun realVols =>
                let nuggets :=
                  fold_left
                    (fun nuggets vol =>
                       map (fun nug =>
                              if String.eqb (ec2.Volume.VolumeId vol)
                                            (ec2.Snapshot.VolumeId (Nugget.Snap nug))
                              then Nugget.with_HasVol nug true else nug)
                           nuggets)
                    realVols nuggets in
                LoadNuggets (fun old => StoreNuggets (old ++ nuggets) Return))))
    end).

(** *** The runtime *)

Definition deadlock : string := "fatal error: all goroutines are asleep - deadlock!".

(** What one step of a goroutine comes to. *)
Inductive Progress : Type :=
| Blocked
| Exits
| Continues (k : Goroutine) (started : list Goroutine) (exp : Expedition).

(** One step of the goroutine [g]: a receive waits for a queued page, a
    [Wait] for the lookups to be done; a panic ends the program. *)
Definition advance (g : Goroutine) (exp : Expedition) : Outcome Progress :=
  match g with
  | Return => Done Exits
  | Crash msg => Panic msg
  | Receive k =>
      match queue exp with
      | [] => Done Blocked
      | page :: rest => Done (Continues (k page) [] (with_queue exp rest))
      end
  | Go child k => Done (Continues k [child] exp)
  | Wait k =>
      match wgv exp with
      | [] => Done (Continues k [] exp)
      | _ :: _ => Done Blocked
      end
  | LoadRealVols k => Done (Continues (k (realVols exp)) [] exp)
  | StoreRealVols v k => Done (Continues k [] (with_realVols exp v))
  | LoadNuggets k => Done (Continues (k (Nuggets exp)) [] exp)
  | StoreNuggets v k => Done (Continues k [] (with_Nuggets exp v))
  end.

(** One step of the goroutine the runtime chooses. A goroutine that exits
    leaves its wait group; the goroutines it starts are lookups. *)
Definition step (choice : nat) : M unit := fun exp =>
  let lookups := length (wgv exp) in
  if (choice <? lookups)%nat then
    match wgv exp !! choice with
    | None => Done (tt, exp)
    | Some g =>
        match advance g exp with
        | Panic msg => Panic msg
        | Done Blocked => Done (tt, exp)
        | Done Exits => Done (tt, with_wgv exp (delete choice (wgv exp)))
        | Done (Continues k started exp') =>
            Done (tt, with_wgv exp' (<[choice := k]> (wgv exp') ++ started))
        end
    end
  else
    let builder := (choice - lookups)%nat in
    match wgq exp !! builder with
    | None => Done (tt, exp)
    | Some g =>
        match advance g exp with
        | Panic msg => Panic msg
        | Done Blocked => Done (tt, exp)
        | Done Exits => Done (tt, with_wgq exp (delete builder (wgq exp)))
        | Done (Continues k started exp') =>
            Done (tt, with_wgv (with_wgq exp' (<[builder := k]> (wgq exp')))
                        (wgv exp' ++ started))
        end
    end.

(** The steps the runtime chooses, one after the other. *)
Definition schedule (choices : list nat) : M unit :=
  rangeM (fun _ choice => step choice) choices tt.

(** The goroutine [g] run on its own until it returns, the goroutines it
    starts being run as they are started. *)
Fixpoint complete (g : Goroutine) (exp : Expedition) : Outcome Expedition :=
  match g with
  | Return => Done exp
  | Crash msg => Panic msg
  | Receive k =>
      match queue exp with
      | [] => Panic deadlock
      | page :: rest => complete (k page) (with_queue exp rest)
      end
  | Go child k =>
      match complete child exp with
      | Done exp' => complete k exp'
      | Panic msg => Panic msg
      end
  | Wait k => complete k exp
  | LoadRealVols k => complete (k (realVols exp)) exp
  | StoreRealVols v k => complete k (with_realVols exp v)
  | LoadNuggets k => complete (k (Nuggets exp)) exp
  | StoreNuggets v k => complete k (with_Nuggets exp v)
  end.

(** All goroutines run until both wait groups are empty: the lookups one
    after the other, then the builders one after the other. Whatever the
    goroutines did before, this is one way for them to finish; the other
    ways are a longer schedule before it. *)
Definition settle : M unit := fun exp =>
  match rangeO (fun exp g => complete g exp) (wgv exp) (with_wgv exp []) with
  | Panic msg => Panic msg
  | Done exp1 =>
      match rangeO (fun exp g => complete g exp) (wgq exp1) (with_wgq exp1 []) with
      | Panic msg => Panic msg
      | Done exp2 => Done (tt, exp2)
      end
  end.

(** The SDK's pager: it hands every successfully fetched page to [fn], and
    stops at the first failed request, when [fn] returns false, or after
    the last page. [fn] closes over locals of its caller, threaded as [l]. *)
Fixpoint DescribeSnapshotsPages {L : Type}
    (responses : list (Error + list ec2.Snapshot.t))
    (fn : L -> list ec2.Snapshot.t -> bool -> M (bool * L)) (l : L)
  : M (option Error * L) :=
  match responses with
  | [] => mret (None, l)
  | inl err :: _ => mret (Some err, l)
  | inr page :: rest =>
      fn l page (match rest with [] => true | _ => false end) ≫=
        fun '((continue, l') : bool * L) =>
          if continue then DescribeSnapshotsPages rest fn l' else mret (None, l')
  end.

(** The callback of [getSnapshots]; its captured locals are
    [(pageNum, totalSnaps)]. A send on the full channel (10 pages) waits
    until a builder has received: if the schedule so far has left the
    channel full, the goroutines finish first. The builder the callback
    starts, and those started before, run as the scheduler says while the
    pager goes on. *)
Definition snapshotPage (aws : Provider) (locals : Z * Z)
    (page : list ec2.Snapshot.t) (lastPage : bool) : M (bool * (Z * Z)) :=
  let '(pageNum, totalSnaps) := locals in
  let pageNum := wrap64 (pageNum + 1) in
  exp ← get;
  let filteredSnapshots :=
    fold_left
      (fun filteredSnapshots snap =>
         if ec2.Snapshot.StartTime snap <? cutoffDate exp
         then filteredSnapshots ++ [snap] else filteredSnapshots)
      page [] in
  let totalSnaps := wrap64 (totalSnaps + len page) in
  _ ← (if 0 <? len filteredSnapshots then
         _ ← (if 10 <=? len (queue exp) then settle else mret tt);
         _ ← modify (fun exp => with_queue exp (queue exp ++ [filteredSnapshots]));
         modify (fun exp =>
                   with_wgq exp (wgq exp ++ [buildNuggets aws (volBatchSize exp)]))
       else mret tt);
  _ ← schedule (whilePaging (scheduler aws) pageNum);
  mret (pageNum <=? maxPages exp, (pageNum, totalSnaps)).

(** The paginated call of [getSnapshots], returning the callback's locals
    [(pageNum, totalSnaps)] next to the error. *)
Definition readSnapshotPages (aws : Provider) : M (option Error * (Z * Z)) :=
  exp ← get;
  let accounts := [account exp] in
  let maxResults := pageSize exp in
  DescribeSnapshotsPages (DescribeSnapshots aws accounts maxResults)
    (snapshotPage aws) (0, 0).

(** [monitorQueue] closes the channel once the builders are done; nothing
    reads the channel after that. On an error of the pager [getSnapshots]
    returns at once, whatever the goroutines are doing. *)
Definition getSnapshots (aws : Provider) : M (option Error) :=
  _ ← modify (fun exp => with_queue exp []);
  '(err, _) ← readSnapshotPages aws;
  match err with
  | Some e => mret (Some e)
  | None =>
      _ ← schedule (whileWaiting (scheduler aws));
      _ ← settle;
      mret err
  end.

Definition setDateFilter (aws : Provider) (datestring : string) : M (option Error) :=
  let layout := "2006-01-02"%string in
  let '(t, err) := time_Parse aws layout datestring in
  _ ← modify (fun exp => with_cutoffDate exp t);
  mret err.

Definition getAccountNumber (aws : Provider) : M (option Error) :=
  match GetCallerIdentity aws with
  | inl err => mret (Some err)
  | inr acct =>
      _ ← modify (fun exp => with_account exp acct);
      mret None
  end.

Definition Start (aws : Provider) : M (option Error) :=
  exp ← get;
  err ← setDateFilter aws (dateFilter exp);
  match err with Some e => mret (Some e) | None =>
  err ← getAccountNumber aws;
  match err with Some e => mret (Some e) | None =>
  err ← getSnapshots aws;
  match err with Some e => mret (Some e) | None =>
  err ← populateNuggets aws;
  match err with Some e => mret (Some e) | None =>
  _ ← addBars;
  _ ← setRecommendations aws;
  mret err
  end end end end.

(** *** Construction *)

Record ExpeditionInput : Type := {
  Session_ : option Session;
  MaxPages : option Z;
  PageSize : option Z;
  VolumeBatchSize : option Z;
  DateFilter : option string;
  OutfileRecommendations : option string;
  OutfileNuggets : option string;
  OutfileBars : option string;
  Logger_ : option Logger;
  EbsSnapRate : option float
}.

(** [var e Expedition]: every field at its zero value. *)
Definition zeroExpedition : Expedition :=
  {| Bars := []; Nuggets := []; LtsToDelete := []; LcsToDelete := [];
     AmiToDelete := []; SnapToDelete := []; account := ""; cutoffDate := 0;
     maxPages := 0; pageSize := 0; volBatchSize := 0; session := None;
     wgq := []; wgv := []; queue := []; realVols := []; log := None; ebsSnapRate := 0%float;
     dateFilter := ""; outfileRecommendations := ""; outfileNuggets := "";
     outfileBars := ""; recommendations := [] |}.

Definition New (input : ExpeditionInput) : Expedition * option Error :=
  let e := zeroExpedition in
  let DefaultDateFilter := "2019-01-01"%string in
  let e := with_dateFilter e (default DefaultDateFilter (DateFilter input)) in
  match Session_ input with
  | None => (e, Some "Session is required"%string)
  | Some sess =>
  let e := with_session e (Some sess) in
  let DefaultMaxPages := 25 in
  let e := with_maxPages e (default DefaultMaxPages (MaxPages input)) in
  let DefaultPageSize := 500 in
  let e := with_pageSize e (default DefaultPageSize (PageSize input)) in
  let DefaultVolumeBatchSize := 30 in
  let e := with_volBatchSize e (default DefaultVolumeBatchSize (VolumeBatchSize input)) in
  let DefaultOutfileRecommendations := "out-summary.txt"%string in
  let e := with_outfileRecommendations e
             (default DefaultOutfileRecommendations (OutfileRecommendations input)) in
  let DefaultOutfileNuggets := "out-nuggets.csv"%string in
  let e := with_outfileNuggets e (default DefaultOutfileNuggets (OutfileNuggets input)) in
  let DefaultOutfileBars := "out-bars.csv"%string in
  let e := with_outfileBars e (default DefaultOutfileBars (OutfileBars input)) in
  match Logger_ input with
  | None => (e, Some "log15 logger is required"%string)
  | Some logger =>
  let e := with_log e (Some logger) in
  let DefaultEbsSnapRate := 0x1.999999999999ap-5%float in
  let e := with_ebsSnapRate e (default DefaultEbsSnapRate (EbsSnapRate input)) in
  (e, None)
  end end.

(** ** Definitions used to state the properties *)

(** The number of batches the specification promises: [ceil(n / b)]. *)
Definition ceil_div (n b : Z) : Z := (n + b - 1) / b.

(** What one call of [addBar n] does to a bar, for a nugget of volume [v]. *)
Definition addTo (v : string) (n : nat) (b : Bar.t) : Bar.t :=
  if String.eqb (Bar.VolumeId b) v
  then Bar.with_Nuggets b (Bar.Nuggets b ++ [n]) else b.

(** The pointer that the loop of [addBar] leaves in [parentBar]: the last
    bar of volume [v] among [bars] (which start at index [k]), else [pb]. *)
Fixpoint lastMatch (v : string) (bars : list Bar.t) (k : nat) (pb : option nat)
  : option nat :=
  match bars with
  | [] => pb
  | b :: rest =>
      lastMatch v rest (S k) (if String.eqb (Bar.VolumeId b) v then Some k else pb)
  end.

(** The state [addBar n] returns, for [nug] the nugget behind [n]. *)
Definition addBar_result (n : nat) (nug : Nugget.t) (exp : Expedition) : Expedition :=
  let v := ec2.Snapshot.VolumeId (Nugget.Snap nug) in
  if existsb (fun b => String.eqb (Bar.VolumeId b) v) (Bars exp) then
    with_Bars
      (with_Nuggets exp
         (<[n := Nugget.with_parentBar nug (lastMatch v (Bars exp) 0 (Nugget.parentBar nug))]>
            (Nuggets exp)))
      (map (addTo v n) (Bars exp))
  else
    with_Bars
      (with_Nuggets exp
         (<[n := Nugget.with_parentBar nug (Some (length (Bars exp)))]> (Nuggets exp)))
      (Bars exp ++ [{| Bar.VolumeId := v; Bar.Nuggets := [n];
                       Bar.HasVol := Nugget.HasVol nug |}]).

(** A nugget with its [parentBar] pointer forgotten: the record proper. *)
Definition record_of (n : Nugget.t) : Nugget.t := Nugget.with_parentBar n None.

(** The state of the bars once the first [k] nuggets of [exp0] are grouped:
    volume ids are pairwise distinct, the members of all bars are the
    pointers [0 .. k-1], each once; every member has its bar's volume id
    and points back to its bar; a bar's flag is that of its first member,
    which is its earliest; and nothing else of the expedition changed. *)
Record grouped (exp0 : Expedition) (k : nat) (exp : Expedition) : Prop := {
  grouped_keys : NoDup (map Bar.VolumeId (Bars exp));
  grouped_members : concat (map Bar.Nuggets (Bars exp)) ≡ₚ seq 0 k;
  grouped_parent :
    forall j b m, Bars exp !! j = Some b -> m ∈ Bar.Nuggets b ->
      exists nug, Nuggets exp !! m = Some nug /\
                  ec2.Snapshot.VolumeId (Nugget.Snap nug) = Bar.VolumeId b /\
                  Nugget.parentBar nug = Some j;
  grouped_first :
    forall j b, Bars exp !! j = Some b ->
      exists m rest nug, Bar.Nuggets b = m :: rest /\
                         Nuggets exp !! m = Some nug /\
                         Bar.HasVol b = Nugget.HasVol nug /\
                         forall m', m' ∈ rest -> (m < m')%nat;
  grouped_records : map record_of (Nuggets exp) = map record_of (Nuggets exp0);
  grouped_frame : exp = with_Bars (with_Nuggets exp0 (Nuggets exp)) (Bars exp)
}.

(** The test [setRecommendations] applies to a member of a bar without
    volume. *)
Definition deletable (n : Nugget.t) : bool :=
  (len (Nugget.ASGs n) =? 0) && (len (Nugget.AMISharedWith n) =? 0).

(** The nuggets behind a bar's member pointers. *)
Definition membersOf (exp : Expedition) (b : Bar.t) : list Nugget.t :=
  omap (fun m => Nuggets exp !! m) (Bar.Nuggets b).

(** The members of a bar that enter the plan, in order. *)
Definition deletableIn (exp : Expedition) (b : Bar.t) : list Nugget.t :=
  if Bar.HasVol b then [] else List.filter deletable (membersOf exp b).

(** The expedition after the nuggets [D] were appended to the four plan
    sequences. *)
Definition append_plan (exp : Expedition) (D : list Nugget.t) : Expedition :=
  with_SnapToDelete
    (with_AmiToDelete
       (with_LcsToDelete
          (with_LtsToDelete exp (LtsToDelete exp ++ flat_map Nugget.LTs D))
          (LcsToDelete exp ++ flat_map Nugget.LCs D))
       (AmiToDelete exp ++ flat_map Nugget.AMIIDs D))
    (SnapToDelete exp
     ++ map (fun n => ec2.Snapshot.SnapshotId (Nugget.Snap n)) D).

(** The expedition after its four plan sequences were deduplicated. *)
Definition dedupe_plan (exp : Expedition) : Expedition :=
  with_SnapToDelete
    (with_AmiToDelete
       (with_LcsToDelete
          (with_LtsToDelete exp (dedupeString (LtsToDelete exp)))
          (dedupeString (LcsToDelete exp)))
       (dedupeString (AmiToDelete exp)))
    (dedupeString (SnapToDelete exp)).

(** What one entry [b] of [barsToDelete] adds to [totalGbs]: the size of
    the first member of the bar it points to. *)
Definition addSize (exp : Expedition) (totalGbs : Z) (b : option nat) : Z :=
  match b ≫= (fun p => Bars exp !! p) with
  | Some bar =>
      if Bar.HasVol bar then totalGbs
      else match Bar.Nuggets bar with
           | first :: _ =>
               match Nuggets exp !! first with
               | Some n => wrap64 (totalGbs + ec2.Snapshot.VolumeSize (Nugget.Snap n))
               | None => totalGbs
               end
           | [] => totalGbs
           end
  | None => totalGbs
  end.

(** The state [setRecommendations] returns when the nuggets [D] are the
    deletable ones and the two counters came out as [cA] and [cH]. *)
Definition setRecommendations_result (aws : Provider) (exp : Expedition)
    (D : list Nugget.t) (cA cH : Z) : Expedition :=
  let planned := dedupe_plan (append_plan exp D) in
  let totalGbs := fold_left (addSize exp) (map Nugget.parentBar D) 0 in
  with_recommendations planned
    (planLines planned cA cH ++ [savingsLine aws totalGbs (ebsSnapRate exp)]).

(** The expedition without what the goroutines of the intake share: they
    read and write nothing else. *)
Definition others (exp : Expedition) : Expedition :=
  with_wgv (with_wgq (with_queue (with_realVols (with_Nuggets exp []) []) []) []) [].

(** [exp'] differs from [exp] at most in the shared fields. *)
Definition same_others (exp exp' : Expedition) : Prop := others exp' = others exp.

(** The parts of the expedition that only aggregation writes, and its
    configuration. *)
Record untouched (exp exp' : Expedition) : Prop := {
  untouched_Bars : Bars exp' = Bars exp;
  untouched_Lts : LtsToDelete exp' = LtsToDelete exp;
  untouched_Lcs : LcsToDelete exp' = LcsToDelete exp;
  untouched_Ami : AmiToDelete exp' = AmiToDelete exp;
  untouched_Snap : SnapToDelete exp' = SnapToDelete exp;
  untouched_recommendations : recommendations exp' = recommendations exp;
  untouched_maxPages : maxPages exp' = maxPages exp;
  untouched_volBatchSize : volBatchSize exp' = volBatchSize exp;
  untouched_ebsSnapRate : ebsSnapRate exp' = ebsSnapRate exp
}.

(** A computation that, when it returns, has left those parts alone. *)
Definition keeps {A : Type} (m : M A) : Prop :=
  forall exp a exp', m exp = Done (a, exp') -> untouched exp exp'.

(** What the specification takes a group's flag to be: the logical OR of
    its members' [HasVol]. *)
Definition spec_groupHasVolume (exp : Expedition) (b : Bar.t) : bool :=
  existsb
    (fun m => match Nuggets exp !! m with
              | Some nug => Nugget.HasVol nug
              | None => false
              end)
    (Bar.Nuggets b).

(** ** Scenarios *)

Definition snapshot (id vol : string) (start size : Z) : ec2.Snapshot.t :=
  {| ec2.Snapshot.OwnerId := "111122223333"; ec2.Snapshot.SnapshotId := id;
     ec2.Snapshot.VolumeId := vol; ec2.Snapshot.StartTime := start;
     ec2.Snapshot.VolumeSize := size; ec2.Snapshot.Tags := [];
     ec2.Snapshot.Description := "" |}.

(** Two snapshots of [vol-3]; only the second one's volume was found. *)
Definition disagreeing_members : Expedition :=
  with_Nuggets zeroExpedition
    [ Nugget.new (snapshot "snap-1" "vol-3" 10 8);
      Nugget.with_HasVol (Nugget.new (snapshot "snap-2" "vol-3" 11 8)) true ].

(** The same two snapshots in the other order. *)
Definition disagreeing_members_swapped : Expedition :=
  with_Nuggets zeroExpedition
    [ Nugget.with_HasVol (Nugget.new (snapshot "snap-2" "vol-3" 11 8)) true;
      Nugget.new (snapshot "snap-1" "vol-3" 10 8) ].

(** The schedule in which every goroutine runs as soon as it is started and
    until it is done: step 0 is a lookup as long as there is one, else the
    first builder. *)
Definition in_turn : Scheduler :=
  {| whilePaging := fun _ => repeat 0%nat 200; whileWaiting := [] |}.

(** A provider for the scenarios: the date filter parses to the instant
    100, the snapshot pager answers with [pages], volumes are looked up
    with [volumes], and the index holds [images], [lcs] and [asgs], each
    listed in one page. No image is shared. The goroutines run [in_turn]. *)
Definition scenario_provider
    (pages : list (Error + list ec2.Snapshot.t))
    (volumes : list string -> list ec2.Volume.t * option Error)
    (images : list ec2.Image.t)
    (lcs : list autoscaling.LaunchConfiguration.t)
    (asgs : list autoscaling.Group.t) : Provider :=
  {| time_Parse := fun _ _ => (100, None);
     GetCallerIdentity := inr "111122223333"%string;
     DescribeSnapshots := fun _ _ => pages;
     DescribeVolumes := volumes;
     DescribeImages := fun _ => inr images;
     DescribeImageAttribute := fun _ _ => inr [];
     DescribeLaunchConfigurations := fun _ => inr (lcs, None);
     DescribeLaunchTemplateVersions := fun _ _ => inr ([], None);
     DescribeAutoScalingGroups := fun _ => inr (asgs, None);
     Sprintf_f := fun _ => "<float>"%string;
     scheduler := in_turn |}.

(** No volume exists any more; every lookup reports the missing volume. *)
Definition no_volumes (ids : list string) : list ec2.Volume.t * option Error :=
  ([], Some "InvalidVolume.NotFound"%string).


Definition input_with_MaxPages (maxPages : option Z) : ExpeditionInput :=
  {| Session_ := Some aws_session; MaxPages := maxPages; PageSize := None;
     VolumeBatchSize := None; DateFilter := None; OutfileRecommendations := None;
     OutfileNuggets := None; OutfileBars := None; Logger_ := Some log15_logger;
     EbsSnapRate := None |}.

Definition default_input : ExpeditionInput := input_with_MaxPages None.

(** The expedition a run leaves behind ([zeroExpedition] if it panics). *)
Definition state_after (aws : Provider) (input : ExpeditionInput) : Expedition :=
  match Start aws (fst (New input)) with
  | Done (_, exp) => exp
  | Panic _ => zeroExpedition
  end.

(** [snap-A] alone on [vol-1], 20 GB, volume deleted. *)
Definition lone_snapshot : Provider :=
  scenario_provider [inr [snapshot "snap-A" "vol-1" 5 20]] no_volumes [] [] [].

(** Two snapshots of the deleted 20 GB volume [vol-1]. *)
Definition two_snapshots_one_volume : Provider :=
  scenario_provider
    [inr [snapshot "snap-A" "vol-1" 5 20; snapshot "snap-B" "vol-1" 6 20]]
    no_volumes [] [] [].


(** Three pages of one old snapshot each. *)
Definition three_pages : Provider :=
  scenario_provider
    [inr [snapshot "snap-1" "vol-1" 5 8]; inr [snapshot "snap-2" "vol-2" 5 8];
     inr [snapshot "snap-3" "vol-3" 5 8]]
    no_volumes [] [] [].

(** [snap-1] is mapped by [ami-1]; launch configurations [lc-1] and [lc-2]
    both boot [ami-1]; the autoscaling group [asg-1] runs [lc-1]. *)
Definition two_launch_configs : Provider :=
  scenario_provider
    [inr [snapshot "snap-1" "vol-9" 5 8]]
    no_volumes
    [{| ec2.Image.ImageId := "ami-1";
        ec2.Image.BlockDeviceMappings :=
          [{| ec2.BlockDeviceMapping.Ebs :=
                Some {| ec2.EbsBlockDevice.SnapshotId := Some "snap-1"%string |} |}] |}]
    [{| autoscaling.LaunchConfiguration.LaunchConfigurationName := "lc-1";
        autoscaling.LaunchConfiguration.ImageId := "ami-1";
        autoscaling.LaunchConfiguration.BlockDeviceMappings := [] |};
     {| autoscaling.LaunchConfiguration.LaunchConfigurationName := "lc-2";
        autoscaling.LaunchConfiguration.ImageId := "ami-1";
        autoscaling.LaunchConfiguration.BlockDeviceMappings := [] |}]
    [{| autoscaling.Group.AutoScalingGroupName := "asg-1";
        autoscaling.Group.LaunchConfigurationName := Some "lc-1"%string;
        autoscaling.Group.LaunchTemplate := None |}].

(** The provider [aws] with the error of every volume lookup removed. *)
Definition dropVolumeErrors (aws : Provider) : Provider :=
  {| time_Parse := time_Parse aws;
     GetCallerIdentity := GetCallerIdentity aws;
     DescribeSnapshots := DescribeSnapshots aws;
     DescribeVolumes := fun ids => (fst (DescribeVolumes aws ids), None);
     DescribeImages := DescribeImages aws;
     DescribeImageAttribute := DescribeImageAttribute aws;
     DescribeLaunchConfigurations := DescribeLaunchConfigurations aws;
     DescribeLaunchTemplateVersions := DescribeLaunchTemplateVersions aws;
     DescribeAutoScalingGroups := DescribeAutoScalingGroups aws;
     Sprintf_f := Sprintf_f aws;
     scheduler := scheduler aws |}.

(** ** Definitions used to state further properties *)

(** Whether an autoscaling group names the launch configuration [lcName]. *)
Definition runsLaunchConfiguration (lcName : string) (asg : autoscaling.Group.t) : bool :=
  match autoscaling.Group.LaunchConfigurationName asg with
  | Some asgLcName => String.eqb asgLcName lcName
  | None => false
  end.

(** Whether an autoscaling group names the launch template [ltName]. *)
Definition runsLaunchTemplate (ltName : string) (asg : autoscaling.Group.t) : bool :=
  match autoscaling.Group.LaunchTemplate asg with
  | Some spec =>
      match autoscaling.LaunchTemplateSpecification.LaunchTemplateName spec with
      | Some asgLtName => String.eqb asgLtName ltName
      | None => false
      end
  | None => false
  end.

(** Whether a block-device mapping of a launch configuration is backed by
    the snapshot [snapshotId]. *)
Definition lcMapsSnapshot (snapshotId : string) (bdm : autoscaling.BlockDeviceMapping.t)
  : bool :=
  match autoscaling.BlockDeviceMapping.Ebs bdm with
  | Some ebs =>
      match autoscaling.Ebs.SnapshotId ebs with
      | Some bdmSnap => String.eqb bdmSnap snapshotId
      | None => false
      end
  | None => false
  end.

(** Whether a block-device mapping of a launch template is backed by the
    snapshot [snapshotId]. *)
Definition ltMapsSnapshot (snapshotId : string)
    (bdm : ec2.LaunchTemplateBlockDeviceMapping.t) : bool :=
  match ec2.LaunchTemplateBlockDeviceMapping.Ebs bdm with
  | Some ebs =>
      match ec2.LaunchTemplateEbsBlockDevice.SnapshotId ebs with
      | Some bdmSnap => String.eqb bdmSnap snapshotId
      | None => false
      end
  | None => false
  end.

(** A launch template version that [ltsWithSnapImage] can read: it names an
    image and each of its block-device mappings has an [Ebs] part. *)
Definition ltComplete (lt : ec2.LaunchTemplateVersion.t) : bool :=
  let data := ec2.LaunchTemplateVersion.LaunchTemplateData lt in
  match ec2.ResponseLaunchTemplateData.ImageId data with
  | Some _ =>
      forallb
        (fun bdm =>
           match ec2.LaunchTemplateBlockDeviceMapping.Ebs bdm with
           | Some _ => true
           | None => false
           end)
        (ec2.ResponseLaunchTemplateData.BlockDeviceMappings data)
  | None => false
  end.

(** The names [ltsWithSnapImage] collects from readable templates. *)
Definition ltNamesFor (lts : list ec2.LaunchTemplateVersion.t)
    (snapshotId imageId : string) : list string :=
  flat_map
    (fun lt =>
       let name := ec2.LaunchTemplateVersion.LaunchTemplateName lt in
       let data := ec2.LaunchTemplateVersion.LaunchTemplateData lt in
       match ec2.ResponseLaunchTemplateData.ImageId data with
       | Some ltImageId => if String.eqb ltImageId imageId then [name] else []
       | None => []
       end ++
       map (fun _ => name)
         (List.filter (ltMapsSnapshot snapshotId)
            (ec2.ResponseLaunchTemplateData.BlockDeviceMappings data)))
    lts.

(** The accounts one launch permission contributes: its group, then its
    user id. *)
Definition permissionAccounts (perm : ec2.LaunchPermission.t) : list string :=
  match ec2.LaunchPermission.Group perm with Some g => [g] | None => [] end ++
  match ec2.LaunchPermission.UserId perm with Some u => [u] | None => [] end.

(** The pages a paginated listing hands out from the token [next] on:
    [delivers call next pages next'] when the successive calls succeed with
    [pages] and leave the token [next']. *)
Inductive delivers {A : Type} (call : option Token -> Error + (list A * option Token))
  : option Token -> list (list A) -> option Token -> Prop :=
| delivers_nil (next : option Token) : delivers call next [] next
| delivers_cons (tok : Token) (items : list A) (next : option Token)
    (rest : list (list A)) (next' : option Token) :
    call (Some tok) = inr (items, next) ->
    delivers call next rest next' ->
    delivers call (Some tok) (items :: rest) next'.



(** A listing of autoscaling groups in two pages. *)
Definition two_asg_pages (tok : option Token)
  : Error + (list autoscaling.Group.t * option Token) :=
  match tok with
  | None =>
      inr ([{| autoscaling.Group.AutoScalingGroupName := "asg-1";
               autoscaling.Group.LaunchConfigurationName := Some "lc-1"%string;
               autoscaling.Group.LaunchTemplate := None |}], Some "page-2"%string)
  | Some _ =>
      inr ([{| autoscaling.Group.AutoScalingGroupName := "asg-2";
               autoscaling.Group.LaunchConfigurationName := None;
               autoscaling.Group.LaunchTemplate := None |}], None)
  end.

(** A listing of autoscaling groups whose second page fails. *)
Definition failing_asg_pages (tok : option Token)
  : Error + (list autoscaling.Group.t * option Token) :=
  match tok with
  | None =>
      inr ([{| autoscaling.Group.AutoScalingGroupName := "asg-1";
               autoscaling.Group.LaunchConfigurationName := Some "lc-1"%string;
               autoscaling.Group.LaunchTemplate := None |}], Some "page-2"%string)
  | Some _ => inl "Throttling"%string
  end.

(** [aws] with another listing of autoscaling groups. *)
Definition with_DescribeAutoScalingGroups (aws : Provider)
    (call : option Token -> Error + (list autoscaling.Group.t * option Token))
  : Provider :=
  {| time_Parse := time_Parse aws;
     GetCallerIdentity := GetCallerIdentity aws;
     DescribeSnapshots := DescribeSnapshots aws;
     DescribeVolumes := DescribeVolumes aws;
     DescribeImages := DescribeImages aws;
     DescribeImageAttribute := DescribeImageAttribute aws;
     DescribeLaunchConfigurations := DescribeLaunchConfigurations aws;
     DescribeLaunchTemplateVersions := DescribeLaunchTemplateVersions aws;
     DescribeAutoScalingGroups := call;
     Sprintf_f := Sprintf_f aws;
     scheduler := scheduler aws |}.

(** Whether one of [vols] has the volume id of the snapshot [snap]. *)
Definition volumeAmong (vols : list ec2.Volume.t) (snap : ec2.Snapshot.t) : bool :=
  existsb (fun vol => String.eqb (ec2.Volume.VolumeId vol) (ec2.Snapshot.VolumeId snap))
    vols.

(** The date filter of the intake. *)
Definition startedBefore (cutoff : Z) (snap : ec2.Snapshot.t) : bool :=
  ec2.Snapshot.StartTime snap <? cutoff.

(** The snapshots of [pages] that pass the date filter. *)
Definition filtered (cutoff : Z) (pages : list (list ec2.Snapshot.t))
  : list ec2.Snapshot.t :=
  flat_map (List.filter (startedBefore cutoff)) pages.

(** A nugget as enrichment creates it: no association yet, no bar. *)
Definition unassociated (nug : Nugget.t) : Prop :=
  Nugget.with_HasVol nug false = Nugget.new (Nugget.Snap nug).

(** *** What the goroutines of the intake maintain, however they are scheduled *)

Section Intake.

Variable aws : Provider.

(** The snapshots sent to the builders. *)
Variable sent : ec2.Snapshot.t -> Prop.

(** [exp.realVols] and [exp.Nuggets] before the intake. *)
Variable V0 : list ec2.Volume.t.
Variable N0 : list Nugget.t.

(** A volume that was there before the intake, or that the provider reports
    for the volume id of a snapshot sent to the builders. *)
Definition knownVolume (vol : ec2.Volume.t) : Prop :=
  In vol V0 \/
  exists snap, sent snap /\
               In vol (fst (DescribeVolumes aws [ec2.Snapshot.VolumeId snap])).

(** A nugget whose flag, if set, stands for a known volume of its volume
    id. *)
Definition flaggedForKnownVolume (nug : Nugget.t) : Prop :=
  Nugget.HasVol nug = true ->
  exists vol, knownVolume vol /\
              ec2.Volume.VolumeId vol = ec2.Snapshot.VolumeId (Nugget.Snap nug).

(** A nugget as a builder appends it. *)
Definition enriched (nug : Nugget.t) : Prop :=
  sent (Nugget.Snap nug) /\ unassociated nug /\ flaggedForKnownVolume nug.

(** The values [exp.realVols] and [exp.Nuggets] may take. *)
Definition okRealVols (v : list ec2.Volume.t) : Prop := Forall knownVolume v.

Definition okNuggets (v : list Nugget.t) : Prop :=
  exists news, v = N0 ++ news /\ Forall enriched news.

(** A goroutine that, whatever it receives or loads within these values,
    stores only such values. *)
Fixpoint safe (g : Goroutine) : Prop :=
  match g with
  | Return => True
  | Crash _ => True
  | Receive k => forall page, Forall sent page -> safe (k page)
  | Go child k => safe child /\ safe k
  | Wait k => safe k
  | LoadRealVols k => forall v, okRealVols v -> safe (k v)
  | StoreRealVols v k => okRealVols v /\ safe k
  | LoadNuggets k => forall v, okNuggets v -> safe (k v)
  | StoreNuggets v k => okNuggets v /\ safe k
  end.

(** The invariant of the shared state. *)
Record intact (exp : Expedition) : Prop := {
  intact_Nuggets : okNuggets (Nuggets exp);
  intact_realVols : okRealVols (realVols exp);
  intact_queue : Forall (Forall sent) (queue exp);
  intact_wgq : Forall safe (wgq exp);
  intact_wgv : Forall safe (wgv exp)
}.

End Intake.

(** *** Goroutines that neither panic nor wait for a page *)








(** A launch template version that names no image. *)
Definition template_without_image : ec2.LaunchTemplateVersion.t :=
  {| ec2.LaunchTemplateVersion.LaunchTemplateName := "lt-1";
     ec2.LaunchTemplateVersion.LaunchTemplateData :=
       {| ec2.ResponseLaunchTemplateData.ImageId := None;
          ec2.ResponseLaunchTemplateData.BlockDeviceMappings := [] |} |}.

(** The provider [aws] with the goroutines scheduled by [s]. *)
Definition with_scheduler (aws : Provider) (s : Scheduler) : Provider :=
  {| time_Parse := time_Parse aws;
     GetCallerIdentity := GetCallerIdentity aws;
     DescribeSnapshots := DescribeSnapshots aws;
     DescribeVolumes := DescribeVolumes aws;
     DescribeImages := DescribeImages aws;
     DescribeImageAttribute := DescribeImageAttribute aws;
     DescribeLaunchConfigurations := DescribeLaunchConfigurations aws;
     DescribeLaunchTemplateVersions := DescribeLaunchTemplateVersions aws;
     DescribeAutoScalingGroups := DescribeAutoScalingGroups aws;
     Sprintf_f := Sprintf_f aws;
     scheduler := s |}.

(** Every volume still exists. *)
Definition all_volumes (ids : list string) : list ec2.Volume.t * option Error :=
  (map (fun id => {| ec2.Volume.VolumeId := id |}) ids, None).

(** One page of two snapshots of two existing volumes. *)
Definition two_existing_volumes : Provider :=
  scenario_provider
    [inr [snapshot "snap-1" "vol-1" 5 8; snapshot "snap-2" "vol-2" 5 8]]
    all_volumes [] [] [].

(** The builder of the page receives it and starts its two lookups (batch
    size 1); both lookups load [exp.realVols] before either stores its
    append, so that the second store overwrites the first; then the lookups
    exit and the builder runs to its end. *)
Definition racing_lookups : Scheduler :=
  {| whilePaging := fun _ => [0; 0; 1;  0; 1; 0; 1;  0; 0;  0; 0; 0; 0; 0]%nat;
     whileWaiting := [] |}.

Definition input_with_VolumeBatchSize (size : option Z) : ExpeditionInput :=
  {| Session_ := Some aws_session; MaxPages := None; PageSize := None;
     VolumeBatchSize := size; DateFilter := None; OutfileRecommendations := None;
     OutfileNuggets := None; OutfileBars := None; Logger_ := Some log15_logger;
     EbsSnapRate := None |}.

(** The state [getSnapshots] leaves behind ([zeroExpedition] if it
    panics). *)
Definition intake_result (aws : Provider) (exp : Expedition) : Expedition :=
  match getSnapshots aws exp with
  | Done (_, exp') => exp'
  | Panic _ => zeroExpedition
  end.

(** The state in which a run calls [getSnapshots]. *)
Definition ready_for_intake (input : ExpeditionInput) : Expedition :=
  with_account (with_cutoffDate (fst (New input)) 100) "111122223333".

(** A computation that keeps the invariant [I] whenever it returns. *)
Definition maintains {A : Type} (I : Expedition -> Prop) (m : M A) : Prop :=
  forall exp a exp', I exp -> m exp = Done (a, exp') -> I exp'.

(** What intake decides about a record and aggregation adds to it: the
    snapshot, the volume flag and the bar pointer. *)
Definition intake_part (n : Nugget.t) : ec2.Snapshot.t * bool * option nat :=
  (Nugget.Snap n, Nugget.HasVol n, Nugget.parentBar n).

(** [exp] differs from [exp0] at most in the associations of its nuggets. *)
Definition only_associations (exp0 exp : Expedition) : Prop :=
  exp = with_Nuggets exp0 (Nuggets exp) /\
  map intake_part (Nuggets exp) = map intake_part (Nuggets exp0).

(** The state a paginated read leaves behind ([zeroExpedition] if it
    panics). *)
Definition intake_state_after (aws : Provider) (exp : Expedition) : Expedition :=
  match readSnapshotPages aws exp with
  | Done (_, exp') => exp'
  | Panic _ => zeroExpedition
  end.

(** The state correlation leaves behind ([zeroExpedition] if it panics). *)
Definition correlated (aws : Provider) (exp : Expedition) : Expedition :=
  match populateNuggets aws exp with
  | Done (_, exp') => exp'
  | Panic _ => zeroExpedition
  end.

(** Two records; an image maps the snapshot of the first one only, and a
    launch configuration maps the snapshot of the second one directly. *)
Definition one_mapped_record : Expedition :=
  with_Nuggets (fst (New default_input))
    [Nugget.new (snapshot "snap-1" "vol-1" 5 8);
     Nugget.new (snapshot "snap-2" "vol-2" 5 8)].

Definition direct_mapping : Provider :=
  scenario_provider []
    no_volumes
    [{| ec2.Image.ImageId := "ami-1";
        ec2.Image.BlockDeviceMappings :=
          [{| ec2.BlockDeviceMapping.Ebs :=
                Some {| ec2.EbsBlockDevice.SnapshotId := Some "snap-1"%string |} |}] |}]
    [{| autoscaling.LaunchConfiguration.LaunchConfigurationName := "lc-2";
        autoscaling.LaunchConfiguration.ImageId := "ami-7";
        autoscaling.LaunchConfiguration.BlockDeviceMappings :=
          [{| autoscaling.BlockDeviceMapping.Ebs :=
                Some {| autoscaling.Ebs.SnapshotId := Some "snap-2"%string |} |}] |}]
    [].

(** The volume id of the record behind the pointer [m]. *)
Definition volumeOf (exp : Expedition) (m : nat) : string :=
  match Nuggets exp !! m with
  | Some nug => ec2.Snapshot.VolumeId (Nugget.Snap nug)
  | None => ""
  end.

(** The order in which the first [k] records of [exp0] are grouped: bars
    stand in the order in which their volume ids first occur, and the
    members of a bar are the records of its volume, in record order. *)
Definition grouped_in_order (exp0 : Expedition) (k : nat) (exp : Expedition) : Prop :=
  map Bar.VolumeId (Bars exp) = dedupeString (map (volumeOf exp0) (seq 0 k)) /\
  Forall (fun b =>
            Bar.Nuggets b =
            List.filter (fun m => String.eqb (Bar.VolumeId b) (volumeOf exp0 m)) (seq 0 k))
         (Bars exp).

(** The members of a bar that stay out of the plan although the bar has no
    volume. *)
Definition retainedIn (exp : Expedition) (b : Bar.t) : list Nugget.t :=
  if Bar.HasVol b then []
  else List.filter (fun nug => negb (deletable nug)) (membersOf exp b).

(** The size the cost loop reads for a bar: that of its first member. *)
Definition firstSize (exp : Expedition) (b : Bar.t) : Z :=
  match Bar.Nuggets b with
  | first :: _ =>
      match Nuggets exp !! first with
      | Some n => ec2.Snapshot.VolumeSize (Nugget.Snap n)
      | None => 0
      end
  | [] => 0
  end.

(** The sum of a list of integers. *)
Definition sumZ (l : list Z) : Z := fold_right Z.add 0 l.

(** The lines of a report with the given opening paragraphs, plan
    sequences, counters and cost line. *)
Definition report (intro caveat : string) (lts lcs amis snaps : list string)
    (countHasVol countAsgShare : Z) (cost : string) : list string :=
  [intro; caveat; "Delete the following LaunchTemplates first:"%string]
  ++ map (String.append tab) lts
  ++ ["then delete the following LaunchConfigurations:"%string]
  ++ map (String.append tab) lcs
  ++ ["then delete the following AMIs:"%string]
  ++ map (String.append tab) amis
  ++ ["then finally delete the following Snapshots:"%string]
  ++ map (String.append tab) snaps
  ++ [(Sprintf_d countHasVol ++
       " snapshots were spared because their EBS volume still exists")%string;
      (Sprintf_d countAsgShare ++
       " snapshots were spared because they were associated with an " ++
       "autoscaling group, were shared directly to another account, " ++
       "or were registered as an AMI that was shared to another account.")%string;
      cost].

(** Five records on two volumes: [vol-1] is gone and holds snapshots of 30,
    10 and 5 GB, the last one used by an autoscaling group; [vol-2] still
    exists and holds two snapshots. *)
Definition mixed_records : Expedition :=
  with_Nuggets zeroExpedition
    [ Nugget.new (snapshot "snap-1" "vol-1" 10 30);
      Nugget.new (snapshot "snap-2" "vol-1" 11 10);
      Nugget.with_ASGs (Nugget.new (snapshot "snap-3" "vol-1" 12 5)) ["asg-1"%string];
      Nugget.with_HasVol (Nugget.new (snapshot "snap-4" "vol-2" 13 8)) true;
      Nugget.with_HasVol (Nugget.new (snapshot "snap-5" "vol-2" 14 8)) true ].

(** The state [addBars] leaves, for the scenarios. *)
Definition bars_of (exp : Expedition) : Expedition :=
  match addBars exp with
  | Done (_, exp') => exp'
  | Panic _ => zeroExpedition
  end.

(** *** Export of the bars *)

(** [strings.Join]. *)
Definition strings_Join (elems : list string) (sep : string) : string :=
  match elems with
  | [] => ""%string
  | x :: rest => fold_left (fun s e => (s ++ sep ++ e)%string) rest x
  end.

(** [strconv.FormatBool] and [strconv.FormatInt] in base 10. *)
Definition FormatBool (b : bool) : string :=
  if b then "true"%string else "false"%string.
Definition FormatInt (z : Z) : string := NilZero.string_of_int (Z.to_int z).

(** [Bar.dumpString]; [time_Format] is [Time.Format] at the layout
    ["2006-01-02"]. The method reads its members through their pointers. *)
Definition Bar_dumpString (time_Format : Z -> string) (b : Bar.t) : M (list string) :=
  sids ← rangeM
           (fun sids n =>
              nug ← derefNugget n;
              mret (sids ++ [ec2.Snapshot.SnapshotId (Nugget.Snap nug)]))
           (Bar.Nuggets b) [];
  ssid ← (if 1 <? len sids then mret (strings_Join sids "|")
          else match sids with
               | [] => panic index_out_of_range
               | sid :: _ => mret sid
               end);
  match Bar.Nuggets b with
  | [] => panic index_out_of_range
  | first :: _ =>
      n ← derefNugget first;
      mret [ ec2.Snapshot.OwnerId (Nugget.Snap n);
             ssid;
             FormatBool (Bar.HasVol b);
             time_Format (ec2.Snapshot.StartTime (Nugget.Snap n));
             FormatInt (ec2.Snapshot.VolumeSize (Nugget.Snap n)) ]
  end.

Definition bars_header : list string :=
  ["OwnerId"; "SnapshotIds"; "HasVolume"; "StartTime"; "VolumeSize"]%string.

(** [ExportBars]: [os_Create] is the error of creating the file; the result
    holds the records handed to the csv writer, whose own errors the method
    ignores. *)
Definition ExportBars (time_Format : Z -> string) (os_Create : option Error)
  : M (option Error * list (list string)) :=
  match os_Create with
  | Some e => mret (Some e, [])
  | None =>
      exp ← get;
      written ← rangeM
                  (fun written bar =>
                     b ← derefBar bar;
                     row ← Bar_dumpString time_Format b;
                     mret (written ++ [row]))
                  (pointers (Bars exp)) [bars_header];
      mret (None, written)
  end.

(** The row of a bar in terms of its members. *)
Definition barRow (time_Format : Z -> string) (exp : Expedition) (b : Bar.t)
  : list string :=
  match membersOf exp b with
  | [] => []
  | n :: _ =>
      [ ec2.Snapshot.OwnerId (Nugget.Snap n);
        strings_Join
          (map (fun nug => ec2.Snapshot.SnapshotId (Nugget.Snap nug)) (membersOf exp b))
          "|";
        FormatBool (Bar.HasVol b);
        time_Format (ec2.Snapshot.StartTime (Nugget.Snap n));
        FormatInt (ec2.Snapshot.VolumeSize (Nugget.Snap n)) ]
  end.

(** Whether a block-device mapping of an image is backed by the snapshot
    [snapshotId]. *)
Definition imageMapsSnapshot (snapshotId : string) (bdm : ec2.BlockDeviceMapping.t)
  : bool :=
  match ec2.BlockDeviceMapping.Ebs bdm with
  | Some ebs =>
      match ec2.EbsBlockDevice.SnapshotId ebs with
      | Some bdmSnap => String.eqb snapshotId bdmSnap
      | None => false
      end
  | None => false
  end.

(** The images that map the snapshot, in the order of the listing, once for
    every mapping. *)
Definition mappingImages (images : list ec2.Image.t) (snapshotId : string)
  : list string :=
  flat_map
    (fun image =>
       map (fun _ => ec2.Image.ImageId image)
         (List.filter (imageMapsSnapshot snapshotId)
            (ec2.Image.BlockDeviceMappings image)))
    images.

(** What one match with the image [imageId] makes of a record (the record
    itself where the launch templates cannot be read). *)
Definition matched (aws : Provider) (lcs : list autoscaling.LaunchConfiguration.t)
    (lts : list ec2.LaunchTemplateVersion.t) (asgs : list autoscaling.Group.t)
    (imageId : string) (nug : Nugget.t) : Nugget.t :=
  match correlate lcs lts asgs imageId nug with
  | Done nug' => Nugget.with_AMISharedWith nug' (fst (imageSharedTo aws imageId))
  | Panic _ => nug
  end.

(** The scenario provider [aws] with [ami-1] shared with another account. *)
Definition sharing_ami_1 (aws : Provider) : Provider :=
  {| time_Parse := time_Parse aws;
     GetCallerIdentity := GetCallerIdentity aws;
     DescribeSnapshots := DescribeSnapshots aws;
     DescribeVolumes := DescribeVolumes aws;
     DescribeImages := DescribeImages aws;
     DescribeImageAttribute := fun _ ami =>
       if String.eqb ami "ami-1"
       then inr [{| ec2.LaunchPermission.Group := None;
                    ec2.LaunchPermission.UserId := Some "999988887777"%string |}]
       else inr [];
     DescribeLaunchConfigurations := DescribeLaunchConfigurations aws;
     DescribeLaunchTemplateVersions := DescribeLaunchTemplateVersions aws;
     DescribeAutoScalingGroups := DescribeAutoScalingGroups aws;
     Sprintf_f := Sprintf_f aws;
     scheduler := scheduler aws |}.

(** [snap-1] is mapped by the shared image [ami-1] and then by the private
    image [ami-2]. *)
Definition shared_then_private : Provider :=
  sharing_ami_1
    (scenario_provider
       [inr [snapshot "snap-1" "vol-9" 5 8]]
       no_volumes
       [{| ec2.Image.ImageId := "ami-1";
           ec2.Image.BlockDeviceMappings :=
             [{| ec2.BlockDeviceMapping.Ebs :=
                   Some {| ec2.EbsBlockDevice.SnapshotId := Some "snap-1"%string |} |}] |};
        {| ec2.Image.ImageId := "ami-2";
           ec2.Image.BlockDeviceMappings :=
             [{| ec2.BlockDeviceMapping.Ebs :=
                   Some {| ec2.EbsBlockDevice.SnapshotId := Some "snap-1"%string |} |}] |}]
       [] []).

(** * Properties *)

(** ** Deduplication *)

Section Dedupe.

Let step (returnSlice : list string) (value : string) : list string :=
  if negb (containsString returnSlice value)
  then returnSlice ++ [value] else returnSlice.

Lemma containsString_In (l : list string) (x : string) :
  containsString l x = true <-> In x l.
Proof.
  induction l as [|y l IH]; simpl.
  - split; [discriminate | tauto].
  - destruct (String.eqb_spec y x) as [->|Hne].
    + tauto.
    + rewrite IH. split; [tauto | intros [H|H]; [congruence | exact H]].
Qed.

Lemma containsString_false (l : list string) (x : string) :
  containsString l x = false <-> ~ In x l.
Proof.
  rewrite <- containsString_In. destruct (containsString l x); split; congruence.
Qed.

Lemma first_occurrences_In (l : list string) (x : string) :
  In x (first_occurrences l) <-> In x l.
Proof.
  induction l as [|y l IH]; simpl; [tauto|].
  rewrite filter_In, IH.
  destruct (String.eqb_spec y x) as [->|Hne]; simpl; [tauto|].
  split; [tauto | intros [H|H]; [congruence | auto]].
Qed.

Lemma first_occurrences_NoDup (l : list string) : NoDup (first_occurrences l).
Proof.
  induction l as [|y l IH]; simpl; constructor.
  - rewrite list_elem_of_In, filter_In. intros [_ H].
    rewrite String.eqb_refl in H. discriminate.
  - apply NoDup_ListNoDup, List.NoDup_filter, NoDup_ListNoDup, IH.
Qed.

Lemma first_occurrences_id (l : list string) :
  NoDup l -> first_occurrences l = l.
Proof.
  induction 1 as [|x l Hx _ IH]; simpl; [reflexivity|].
  rewrite IH. f_equal.
  rewrite list_elem_of_In in Hx.
  clear IH. induction l as [|y l IH]; simpl; [reflexivity|].
  destruct (String.eqb_spec x y) as [->|Hne]; simpl.
  - exfalso. apply Hx. now left.
  - f_equal. apply IH. intros H. apply Hx. now right.
Qed.

Lemma containsString_snoc (acc : list string) (x y : string) :
  containsString (acc ++ [x]) y = containsString acc y || String.eqb x y.
Proof.
  induction acc as [|a acc IHa]; simpl.
  - now destruct (String.eqb x y).
  - destruct (String.eqb a y); simpl; [reflexivity | exact IHa].
Qed.

Lemma filter_unseen_already (acc t : list string) (x : string) :
  containsString acc x = true ->
  List.filter (fun y => negb (containsString acc y))
    (List.filter (fun y => negb (String.eqb x y)) t) =
  List.filter (fun y => negb (containsString acc y)) t.
Proof.
  intros Hx. induction t as [|y t IHt]; simpl; [reflexivity|].
  destruct (String.eqb_spec x y) as [<-|Hne]; simpl.
  - rewrite Hx. simpl. exact IHt.
  - destruct (containsString acc y); simpl; [exact IHt | now rewrite IHt].
Qed.

Lemma filter_unseen_snoc (acc t : list string) (x : string) :
  List.filter (fun y => negb (containsString (acc ++ [x]) y)) t =
  List.filter (fun y => negb (containsString acc y))
    (List.filter (fun y => negb (String.eqb x y)) t).
Proof.
  induction t as [|y t IHt]; simpl; [reflexivity|].
  rewrite containsString_snoc.
  destruct (String.eqb x y); simpl.
  - rewrite orb_true_r. simpl. exact IHt.
  - rewrite orb_false_r. destruct (containsString acc y); simpl;
      [exact IHt | now rewrite IHt].
Qed.

(** The accumulating loop, for any content of [returnSlice]. *)
Lemma dedupe_loop (l acc : list string) :
  fold_left step l acc =
  acc ++ List.filter (fun y => negb (containsString acc y)) (first_occurrences l).
Proof.
  revert acc. induction l as [|x l IH]; intros acc; simpl.
  - now rewrite app_nil_r.
  - rewrite IH. unfold step.
    destruct (containsString acc x) eqn:Hx; simpl.
    + now rewrite filter_unseen_already.
    + rewrite <- app_assoc. simpl. now rewrite filter_unseen_snoc.
Qed.

Lemma dedupeString_first_occurrences (l : list string) :
  dedupeString l = first_occurrences l.
Proof.
  unfold dedupeString. change (fold_left step l [] = first_occurrences l).
  rewrite dedupe_loop. simpl.
  induction (first_occurrences l) as [|y t IHt]; simpl; [reflexivity | now rewrite IHt].
Qed.

Lemma dedupeString_In (l : list string) (x : string) :
  In x (dedupeString l) <-> In x l.
Proof. rewrite dedupeString_first_occurrences. apply first_occurrences_In. Qed.

Lemma dedupeString_NoDup (l : list string) : NoDup (dedupeString l).
Proof. rewrite dedupeString_first_occurrences. apply first_occurrences_NoDup. Qed.

End Dedupe.

(** C9: [dedupeString] keeps exactly the first occurrence of every element,
    in the original order (it computes [first_occurrences]); its result has
    no duplicates and the same elements as its input; a sequence without
    duplicates is returned unchanged, so deduplicating twice is the same as
    deduplicating once. *)
Theorem dedupeString_idempotent_order_preserving (l : list string) :
  dedupeString l = first_occurrences l /\
  NoDup (dedupeString l) /\
  (forall x, In x (dedupeString l) <-> In x l) /\
  (NoDup l -> dedupeString l = l) /\
  dedupeString (dedupeString l) = dedupeString l.
Proof.
  split; [apply dedupeString_first_occurrences|].
  split; [apply dedupeString_NoDup|].
  split; [intros x; apply dedupeString_In|].
  split.
  - intros H. rewrite dedupeString_first_occurrences. now apply first_occurrences_id.
  - rewrite (dedupeString_first_occurrences (dedupeString l)).
    apply first_occurrences_id, dedupeString_NoDup.
Qed.

(** ** Batch partitioning *)

Lemma wrap64_id (z : Z) : min_int <= z <= max_int -> wrap64 z = z.
Proof.
  unfold wrap64, min_int, max_int. intros H.
  rewrite Z.mod_small; lia.
Qed.

Lemma go_slice_ok {A : Type} (s : list A) (lo hi : Z) :
  0 <= lo <= hi -> hi <= len s ->
  go_slice s lo hi = Done (take (Z.to_nat (hi - lo)) (drop (Z.to_nat lo) s)).
Proof.
  intros [H1 H2] H3. unfold go_slice.
  destruct (Z.leb_spec 0 lo); [|lia].
  destruct (Z.leb_spec lo hi); [|lia].
  destruct (Z.leb_spec hi (len s)); [|lia].
  reflexivity.
Qed.

Section Batches.

Variable strSlice : list string.
Variable batchSize : Z.
Hypothesis batchSize_pos : 1 <= batchSize.
Hypothesis len_fits : len strSlice <= max_int.

(** The [k]-th full batch, counted from 1. *)
Let chunk (k : nat) : list string :=
  take (Z.to_nat batchSize) (drop ((k - 1) * Z.to_nat batchSize) strSlice).

Let body (batches : list (list string)) (i : Z) : Outcome (list (list string)) :=
  let endIndex := wrap64 (i * batchSize) in
  let startIndex := if i =? 1 then 0 else wrap64 (batchSize * wrap64 (i - 1)) in
  b ← go_slice strSlice startIndex endIndex;
  Done (batches ++ [b]).

Lemma full_batch_step (k : nat) (batches : list (list string)) :
  (1 <= k)%nat -> Z.of_nat k * batchSize <= len strSlice ->
  body batches (Z.of_nat k) = Done (batches ++ [chunk k]).
Proof.
  intros Hk Hle. unfold body, chunk.
  assert (Hmax : max_int = 2 ^ 63 - 1) by reflexivity.
  assert (Hmin : min_int = - 2 ^ 63) by reflexivity.
  assert (Hlen : 0 <= len strSlice) by (unfold len; lia).
  assert (Hend : wrap64 (Z.of_nat k * batchSize) = Z.of_nat k * batchSize).
  { apply wrap64_id. nia. }
  assert (Hstart : (if Z.of_nat k =? 1 then 0
                    else wrap64 (batchSize * wrap64 (Z.of_nat k - 1)))
                   = batchSize * (Z.of_nat k - 1)).
  { destruct (Z.eqb_spec (Z.of_nat k) 1) as [->|Hne]; [lia|].
    rewrite (wrap64_id (Z.of_nat k - 1)) by nia.
    apply wrap64_id. nia. }
  rewrite Hend, Hstart.
  rewrite go_slice_ok by nia. simpl.
  replace (Z.of_nat k * batchSize - batchSize * (Z.of_nat k - 1)) with batchSize
    by lia.
  replace (Z.to_nat (batchSize * (Z.of_nat k - 1)))
    with ((k - 1) * Z.to_nat batchSize)%nat by nia.
  reflexivity.
Qed.

Lemma full_batches_loop (n s : nat) (batches : list (list string)) :
  (1 <= s)%nat -> Z.of_nat (s + n - 1) * batchSize <= len strSlice ->
  rangeO body (map (fun k => Z.of_nat k) (seq s n)) batches
  = Done (batches ++ map chunk (seq s n)).
Proof.
  revert s batches. induction n as [|n IH]; intros s batches Hs Hle; simpl.
  - now rewrite app_nil_r.
  - rewrite full_batch_step by nia.
    rewrite IH by (try lia; replace (S s + n - 1)%nat with (s + S n - 1)%nat by lia;
                   exact Hle).
    now rewrite <- app_assoc.
Qed.

Lemma concat_chunks (q : nat) :
  concat (map chunk (seq 1 q)) = take (q * Z.to_nat batchSize) strSlice.
Proof.
  induction q as [|q IH].
  - reflexivity.
  - rewrite seq_S, map_app, concat_app, IH. simpl. rewrite app_nil_r.
    unfold chunk. replace (S q - 1)%nat with q by lia.
    rewrite take_take_drop. f_equal. lia.
Qed.

Lemma chunk_length (k : nat) :
  (1 <= k)%nat -> Z.of_nat k * batchSize <= len strSlice ->
  len (chunk k) = batchSize.
Proof.
  intros Hk Hle. unfold chunk, len in *.
  rewrite length_take, length_drop. nia.
Qed.

Lemma makeBatches_result :
  let q := Z.to_nat (len strSlice / batchSize) in
  let r := len strSlice mod batchSize in
  makeBatchesStringPointer strSlice batchSize =
  Done (map chunk (seq 1 q) ++
        (if 0 <? r then [drop (q * Z.to_nat batchSize) strSlice] else [])).
Proof.
  intros q r.
  assert (Hlen : 0 <= len strSlice) by (unfold len; lia).
  assert (Hmax : max_int = 2 ^ 63 - 1) by reflexivity.
  assert (Hmin : min_int = - 2 ^ 63) by reflexivity.
  assert (Hq : 0 <= len strSlice / batchSize <= len strSlice).
  { split; [apply Z.div_pos; lia|].
    apply Z.div_le_upper_bound; nia. }
  assert (Hdm : len strSlice = batchSize * (len strSlice / batchSize) + r).
  { apply Z.div_mod. lia. }
  assert (Hr : 0 <= r < batchSize) by (apply Z.mod_pos_bound; lia).
  assert (Hq' : Z.of_nat q = len strSlice / batchSize) by (unfold q; lia).
  unfold makeBatchesStringPointer, go_div, go_mod.
  destruct (Z.eqb_spec batchSize 0) as [?|_]; [lia|]. simpl.
  rewrite Z.quot_div_nonneg, Z.rem_mod_nonneg by lia.
  rewrite (wrap64_id (len strSlice / batchSize)) by lia.
  unfold loop_indices. fold q. fold r. clearbody q r.
  change (rangeO _ ?xs ?acc) with (rangeO body xs acc).
  rewrite full_batches_loop; [|lia|].
  2:{ replace (Z.of_nat (1 + q - 1)) with (len strSlice / batchSize) by lia. nia. }
  simpl.
  destruct (Z.ltb_spec 0 r) as [Hpos|Hzero]; [|now rewrite app_nil_r].
  rewrite wrap64_id by lia.
  rewrite go_slice_ok by lia. simpl. do 3 f_equal.
  replace (Z.to_nat (len strSlice - r)) with (q * Z.to_nat batchSize)%nat by nia.
  apply take_ge. rewrite length_drop. unfold len in *. nia.
Qed.

End Batches.

Lemma ceil_div_split (n b : Z) :
  0 <= n -> 1 <= b ->
  ceil_div n b = n / b + (if 0 <? n mod b then 1 else 0).
Proof.
  intros Hn Hb. unfold ceil_div.
  pose proof (Z.div_mod n b ltac:(lia)) as Hdm.
  pose proof (Z.mod_pos_bound n b ltac:(lia)) as Hr.
  destruct (Z.ltb_spec 0 (n mod b)).
  - symmetry. apply (Z.div_unique _ _ _ (n mod b - 1)); lia.
  - symmetry. apply (Z.div_unique _ _ _ (b - 1)); lia.
Qed.

(** C8: for a batch size of at least 1 (and a slice whose length is a Go
    [int]), [makeBatchesStringPointer] returns [ceil(N/B)] batches, none
    empty and none longer than [B], all but the last of length exactly [B],
    whose concatenation in order is the input. *)
Theorem makeBatches_partition (strSlice : list string) (batchSize : Z) :
  1 <= batchSize -> len strSlice <= max_int ->
  exists batches,
    makeBatchesStringPointer strSlice batchSize = Done batches /\
    len batches = ceil_div (len strSlice) batchSize /\
    Forall (fun b => 1 <= len b <= batchSize) batches /\
    (forall i b, (S i < length batches)%nat -> batches !! i = Some b ->
                 len b = batchSize) /\
    concat batches = strSlice.
Proof.
  intros HB Hfit.
  pose proof (makeBatches_result strSlice batchSize HB Hfit) as Hres.
  cbv zeta in Hres.
  set (q := Z.to_nat (len strSlice / batchSize)) in *.
  set (r := len strSlice mod batchSize) in *.
  set (chunk := fun k : nat =>
        take (Z.to_nat batchSize) (drop ((k - 1) * Z.to_nat batchSize) strSlice)) in *.
  assert (Hlen : 0 <= len strSlice) by (unfold len; lia).
  assert (Hqz : 0 <= len strSlice / batchSize) by (apply Z.div_pos; lia).
  assert (Hq : Z.of_nat q = len strSlice / batchSize) by (unfold q; lia).
  assert (Hdm : len strSlice = batchSize * (len strSlice / batchSize) + r)
    by (apply Z.div_mod; lia).
  assert (Hr : 0 <= r < batchSize) by (apply Z.mod_pos_bound; lia).
  assert (Hchunk : forall k, (1 <= k <= q)%nat -> len (chunk k) = batchSize).
  { intros k Hk. apply chunk_length; first [assumption | lia | nia]. }
  assert (Hrd : len strSlice mod batchSize = r) by reflexivity.
  clearbody q r.
  eexists. split; [exact Hres|]. split; [|split; [|split]].
  - rewrite ceil_div_split by lia. rewrite Hrd. unfold len at 1.
    rewrite length_app, length_map, length_seq.
    destruct (0 <? r); simpl; lia.
  - apply Forall_app. split.
    + apply Forall_forall. intros b Hb.
      apply list_elem_of_In, in_map_iff in Hb. destruct Hb as (k & <- & Hk).
      apply in_seq in Hk. rewrite Hchunk by lia. lia.
    + destruct (Z.ltb_spec 0 r); constructor; [|constructor].
      unfold len in *. rewrite length_drop. nia.
  - intros i b Hi Hb.
    rewrite length_app, length_map, length_seq in Hi.
    assert (Hiq : (i < q)%nat).
    { destruct (0 <? r); simpl in Hi; lia. }
    rewrite lookup_app_l in Hb by (rewrite length_map, length_seq; exact Hiq).
    rewrite list_lookup_fmap, lookup_seq_lt in Hb by exact Hiq.
    simpl in Hb. injection Hb as <-. apply Hchunk. lia.
  - rewrite concat_app.
    unfold chunk. rewrite (concat_chunks strSlice batchSize q).
    destruct (Z.ltb_spec 0 r); simpl; rewrite ?app_nil_r.
    + apply take_drop.
    + apply take_ge. unfold len in *. nia.
Qed.

Lemma makeBatches_zero (strSlice : list string) :
  makeBatchesStringPointer strSlice 0
  = Panic "runtime error: integer divide by zero".
Proof. reflexivity. Qed.

Lemma makeBatches_negative (strSlice : list string) (batchSize : Z) :
  batchSize < 0 -> len strSlice <= max_int ->
  makeBatchesStringPointer strSlice batchSize =
  Done (if 0 <? Z.rem (len strSlice) batchSize
        then [drop (Z.to_nat (len strSlice - Z.rem (len strSlice) batchSize)) strSlice]
        else []).
Proof.
  intros HB Hfit.
  assert (Hlen : 0 <= len strSlice) by (unfold len; lia).
  assert (Hmax : max_int = 2 ^ 63 - 1) by reflexivity.
  assert (Hmin : min_int = - 2 ^ 63) by reflexivity.
  assert (Hq : - len strSlice <= Z.quot (len strSlice) batchSize <= 0).
  { replace batchSize with (- - batchSize) by lia. rewrite Z.quot_opp_r by lia.
    pose proof (Z.quot_pos (len strSlice) (- batchSize) Hlen ltac:(lia)).
    pose proof (Z.quot_le_upper_bound (len strSlice) (- batchSize) (len strSlice)
                  ltac:(lia) ltac:(nia)).
    lia. }
  assert (Hr : 0 <= Z.rem (len strSlice) batchSize <= len strSlice).
  { replace batchSize with (- - batchSize) by lia. rewrite Z.rem_opp_r by lia.
    pose proof (Z.rem_bound_pos (len strSlice) (- batchSize) Hlen ltac:(lia)).
    pose proof (Z.rem_le (len strSlice) (- batchSize) Hlen ltac:(lia)).
    lia. }
  unfold makeBatchesStringPointer, go_div, go_mod.
  destruct (Z.eqb_spec batchSize 0) as [|_]; [lia|].
  cbn [mbind Outcome_bind].
  rewrite (wrap64_id (Z.quot (len strSlice) batchSize)) by lia.
  rewrite (wrap64_id (len strSlice - Z.rem (len strSlice) batchSize)) by lia.
  unfold loop_indices.
  replace (Z.to_nat (Z.quot (len strSlice) batchSize)) with 0%nat by lia.
  cbn [seq map rangeO mbind Outcome_bind].
  destruct (Z.ltb_spec 0 (Z.rem (len strSlice) batchSize)) as [Hpos|_];
    [|reflexivity].
  rewrite go_slice_ok by lia.
  cbn [mbind Outcome_bind app]. do 2 f_equal.
  apply take_ge. rewrite length_drop. unfold len in *. lia.
Qed.

Lemma buildNuggets_zero_batch (aws : Provider) (snaps : list ec2.Snapshot.t)
      (rest : list (list ec2.Snapshot.t)) (exp : Expedition) :
  queue exp = snaps :: rest ->
  complete (buildNuggets aws 0) exp = Panic "runtime error: integer divide by zero".
Proof.
  intros Hq. unfold buildNuggets. cbn [complete]. rewrite Hq.
  destruct (fold_left _ snaps ([], [])) as [nuggets inVols].
  rewrite makeBatches_zero. reflexivity.
Qed.

(** C10, as the code has it: the partitioning panics exactly when
    [batchSize = 0] (it divides by zero, whatever the list, the empty one
    included). With [batchSize >= 1] it returns, and with a negative
    [batchSize] it returns as well, but without partitioning: no batch, or
    one batch of the last [len mod |batchSize|] identifiers. The builder of
    a page of an expedition whose [volBatchSize] is 0 panics once it has
    received its page. [New] validates only the session and the logger: it
    stores whatever [VolumeBatchSize] holds, 0 and negative numbers
    included, and uses 30 only when the field is nil. *)
Theorem volume_batch_size_zero_panics :
  (forall strSlice,
     makeBatchesStringPointer strSlice 0
     = Panic "runtime error: integer divide by zero") /\
  (forall strSlice batchSize,
     batchSize <> 0 -> len strSlice <= max_int ->
     exists batches, makeBatchesStringPointer strSlice batchSize = Done batches) /\
  (forall strSlice batchSize,
     batchSize < 0 -> len strSlice <= max_int ->
     makeBatchesStringPointer strSlice batchSize =
     Done (if 0 <? Z.rem (len strSlice) batchSize
           then [drop (Z.to_nat (len strSlice - Z.rem (len strSlice) batchSize))
                   strSlice]
           else [])) /\
  (forall aws snaps rest exp,
     queue exp = snaps :: rest ->
     complete (buildNuggets aws 0) exp
     = Panic "runtime error: integer divide by zero") /\
  (forall input sess logger,
     Session_ input = Some sess -> Logger_ input = Some logger ->
     snd (New input) = None /\
     volBatchSize (fst (New input)) =
       match VolumeBatchSize input with Some b => b | None => 30 end).
Proof.
  split; [exact makeBatches_zero|].
  split.
  { intros strSlice batchSize HB Hfit.
    destruct (Z.lt_ge_cases batchSize 0) as [Hneg|Hpos]; eexists.
    - exact (makeBatches_negative strSlice batchSize Hneg Hfit).
    - exact (makeBatches_result strSlice batchSize ltac:(lia) Hfit). }
  split; [exact makeBatches_negative|].
  split; [exact buildNuggets_zero_batch|].
  intros input sess logger Hs Hl. unfold New. rewrite Hs, Hl. simpl.
  split; [reflexivity|]. now destruct (VolumeBatchSize input).
Qed.

(** C10 fails as stated: with the batch size -2, which is below 1, the
    partitioning of three identifiers returns without panic (and drops two
    of them). *)
Lemma makeBatches_negative_size_returns :
  makeBatchesStringPointer ["a"; "b"; "c"]%string (-2) = Done [["c"%string]].
Proof. reflexivity. Qed.

(** ** Aggregation into bars *)

Lemma bind_Done {A B : Type} (m : M A) (f : A -> M B) (exp exp' : Expedition) (a : A) :
  m exp = Done (a, exp') -> (m ≫= f) exp = f a exp'.
Proof. intros H. unfold mbind, M_bind. now rewrite H. Qed.

Lemma derefNugget_Some (p : nat) (n : Nugget.t) (exp : Expedition) :
  Nuggets exp !! p = Some n -> derefNugget p exp = Done (n, exp).
Proof. intros H. unfold derefNugget. now rewrite H. Qed.

Lemma derefBar_Some (p : nat) (b : Bar.t) (exp : Expedition) :
  Bars exp !! p = Some b -> derefBar p exp = Done (b, exp).
Proof. intros H. unfold derefBar. now rewrite H. Qed.

Lemma with_parentBar_same (nug : Nugget.t) :
  Nugget.with_parentBar nug (Nugget.parentBar nug) = nug.
Proof. now destruct nug. Qed.

Lemma with_same (exp : Expedition) :
  with_Bars (with_Nuggets exp (Nuggets exp)) (Bars exp) = exp.
Proof. now destruct exp. Qed.

Section AddBar.

Variable n : nat.

Let body (found : bool) (bar : nat) : M bool :=
  b ← derefBar bar;
  nug ← derefNugget n;
  if String.eqb (Bar.VolumeId b) (ec2.Snapshot.VolumeId (Nugget.Snap nug))
  then
    _ ← storeNugget n (Nugget.with_parentBar nug (Some bar));
    _ ← storeBar bar (Bar.with_Nuggets b (Bar.Nuggets b ++ [n]));
    mret true
  else mret found.

Lemma addBar_body (exp : Expedition) (found : bool) (bar : nat)
      (b : Bar.t) (nug : Nugget.t) :
  Bars exp !! bar = Some b ->
  Nuggets exp !! n = Some nug ->
  body found bar exp =
  let same :=
    String.eqb (Bar.VolumeId b) (ec2.Snapshot.VolumeId (Nugget.Snap nug)) in
  Done (if same then true else found,
        if same then
          with_Bars
            (with_Nuggets exp
               (<[n := Nugget.with_parentBar nug (Some bar)]> (Nuggets exp)))
            (<[bar := Bar.with_Nuggets b (Bar.Nuggets b ++ [n])]> (Bars exp))
        else exp).
Proof.
  intros Hb HN. unfold body, mbind, M_bind.
  rewrite (derefBar_Some _ _ _ Hb). cbv beta iota.
  rewrite (derefNugget_Some _ _ _ HN). cbv beta iota.
  destruct (String.eqb _ _); reflexivity.
Qed.

Lemma addBar_loop (post : list Bar.t) :
  forall (pre : list Bar.t) (exp : Expedition) (found : bool) (nug : Nugget.t),
    Bars exp = pre ++ post ->
    Nuggets exp !! n = Some nug ->
    let v := ec2.Snapshot.VolumeId (Nugget.Snap nug) in
    rangeM body (seq (length pre) (length post)) found exp =
    Done (found || existsb (fun b => String.eqb (Bar.VolumeId b) v) post,
          with_Bars
            (with_Nuggets exp
               (<[n := Nugget.with_parentBar nug
                         (lastMatch v post (length pre) (Nugget.parentBar nug))]>
                  (Nuggets exp)))
            (pre ++ map (addTo v n) post)).
Proof.
  induction post as [|b post IH]; intros pre exp found nug HB HN v.
  - simpl. rewrite orb_false_r, with_parentBar_same.
    rewrite (list_insert_id _ _ _ HN), app_nil_r in *.
    rewrite <- HB, with_same. reflexivity.
  - cbn [length seq rangeM existsb map lastMatch].
    assert (Hb : Bars exp !! length pre = Some b).
    { rewrite HB. apply list_lookup_middle. reflexivity. }
    rewrite (bind_Done _ _ _ _ _ (addBar_body exp found _ b nug Hb HN)).
    fold v. unfold addTo at 1.
    destruct (String.eqb (Bar.VolumeId b) v) eqn:Hv.
    + cbn [Bars with_Nuggets]. rewrite HB.
      replace (<[length pre := Bar.with_Nuggets b (Bar.Nuggets b ++ [n])]>
                 (pre ++ b :: post))
        with ((pre ++ [Bar.with_Nuggets b (Bar.Nuggets b ++ [n])]) ++ post).
      2:{ rewrite insert_app_r_alt by lia. rewrite Nat.sub_diag. simpl.
          now rewrite <- app_assoc. }
      pose proof (lookup_lt_Some _ _ _ HN) as Hlt.
      replace (S (length pre))
        with (length (pre ++ [Bar.with_Nuggets b (Bar.Nuggets b ++ [n])]))
        by (rewrite length_app; simpl; lia).
      erewrite IH; [| reflexivity | cbn [Nuggets with_Bars with_Nuggets];
                                    now apply list_lookup_insert_eq ].
      cbn [Nuggets with_Bars with_Nuggets Nugget.Snap Nugget.with_parentBar
           Nugget.parentBar].
      fold v. cbn [orb]. rewrite list_insert_insert_eq, orb_true_r.
      rewrite length_app. cbn [length]. rewrite Nat.add_1_r.
      rewrite <- !app_assoc. reflexivity.
    + replace (S (length pre)) with (length (pre ++ [b]))
        by (rewrite length_app; simpl; lia).
      erewrite IH; [| rewrite HB, <- app_assoc; reflexivity | exact HN ].
      fold v. cbn [orb].
      rewrite length_app. cbn [length]. rewrite Nat.add_1_r.
      rewrite <- app_assoc. reflexivity.
Qed.

Lemma addBar_spec (exp : Expedition) (nug : Nugget.t) :
  Nuggets exp !! n = Some nug ->
  addBar n exp = Done (tt, addBar_result n nug exp).
Proof.
  intros HN. unfold addBar.
  unfold mbind at 1, M_bind at 1, get at 1.
  change (rangeM _ ?xs ?acc) with (rangeM body xs acc).
  unfold pointers.
  pose proof (addBar_loop (Bars exp) [] exp false nug eq_refl HN) as Hloop.
  cbn [length app] in Hloop. cbv zeta in Hloop.
  rewrite (bind_Done _ _ _ _ _ Hloop).
  unfold addBar_result. cbn [orb].
  destruct (existsb _ (Bars exp)) eqn:Hex; cbn [negb].
  - reflexivity.
  - assert (Hno : lastMatch (ec2.Snapshot.VolumeId (Nugget.Snap nug)) (Bars exp) 0
                    (Nugget.parentBar nug) = Nugget.parentBar nug
                  /\ map (addTo (ec2.Snapshot.VolumeId (Nugget.Snap nug)) n) (Bars exp)
                     = Bars exp).
    { clear - Hex. generalize 0%nat.
      induction (Bars exp) as [|b l IHl]; intros k; [now split|].
      simpl in Hex. apply orb_false_elim in Hex as [Hb Hl].
      simpl. unfold addTo at 1. rewrite Hb.
      destruct (IHl Hl (S k)) as [-> ->]. now split. }
    destruct Hno as [-> ->].
    rewrite with_parentBar_same, (list_insert_id _ _ _ HN), with_same.
    rewrite (bind_Done _ _ _ _ _ (derefNugget_Some _ _ _ HN)).
    reflexivity.
Qed.

End AddBar.

Lemma addTo_VolumeId (v : string) (n : nat) (b : Bar.t) :
  Bar.VolumeId (addTo v n b) = Bar.VolumeId b.
Proof. unfold addTo. now destruct (String.eqb _ _). Qed.

Lemma addTo_HasVol (v : string) (n : nat) (b : Bar.t) :
  Bar.HasVol (addTo v n b) = Bar.HasVol b.
Proof. unfold addTo. now destruct (String.eqb _ _). Qed.

Lemma addTo_Nuggets (v : string) (n : nat) (b : Bar.t) :
  Bar.Nuggets (addTo v n b) =
  Bar.Nuggets b ++ (if String.eqb (Bar.VolumeId b) v then [n] else []).
Proof. unfold addTo. destruct (String.eqb _ _); simpl; now rewrite ?app_nil_r. Qed.

Lemma no_match_not_key (v : string) (bars : list Bar.t) :
  existsb (fun b => String.eqb (Bar.VolumeId b) v) bars = false <->
  v ∉ map Bar.VolumeId bars.
Proof.
  induction bars as [|b bars IH]; simpl.
  - split; [intros _ H; inversion H | reflexivity].
  - rewrite not_elem_of_cons, <- IH, orb_false_iff.
    destruct (String.eqb_spec (Bar.VolumeId b) v); split; intros [? ?]; split;
      congruence.
Qed.

Lemma no_match_addTo (v : string) (n : nat) (bars : list Bar.t) :
  v ∉ map Bar.VolumeId bars -> map (addTo v n) bars = bars.
Proof.
  induction bars as [|b bars IH]; simpl; [reflexivity|].
  rewrite not_elem_of_cons. intros [Hb Hrest].
  rewrite IH by exact Hrest. unfold addTo.
  destruct (String.eqb_spec (Bar.VolumeId b) v); congruence.
Qed.

(** With distinct volume ids, exactly one bar receives the nugget. *)
Lemma addTo_members (v : string) (n : nat) (bars : list Bar.t) :
  NoDup (map Bar.VolumeId bars) ->
  v ∈ map Bar.VolumeId bars ->
  concat (map Bar.Nuggets (map (addTo v n) bars))
  ≡ₚ concat (map Bar.Nuggets bars) ++ [n].
Proof.
  induction bars as [|b bars IH]; simpl; intros Hnd Hin.
  - inversion Hin.
  - apply NoDup_cons in Hnd as [Hb Hnd].
    rewrite addTo_Nuggets.
    destruct (String.eqb_spec (Bar.VolumeId b) v) as [Heq|Hne].
    + rewrite no_match_addTo by congruence.
      rewrite <- !app_assoc. apply Permutation_app_head, Permutation_app_comm.
    + rewrite app_nil_r, <- app_assoc. apply Permutation_app_head, IH; [exact Hnd|].
      apply elem_of_cons in Hin as [?|?]; [congruence | assumption].
Qed.

Lemma lastMatch_unique (v : string) (bars : list Bar.t) :
  NoDup (map Bar.VolumeId bars) ->
  forall k pb j b,
    bars !! j = Some b -> Bar.VolumeId b = v ->
    lastMatch v bars k pb = Some (k + j)%nat.
Proof.
  induction bars as [|b0 bars IH]; intros Hnd k pb j b Hj Hv; [inversion Hj|].
  apply NoDup_cons in Hnd as [Hb0 Hnd]. simpl.
  destruct j as [|j]; simpl in Hj.
  - injection Hj as Hj. subst b0. rewrite Hv, String.eqb_refl, Nat.add_0_r.
    assert (Hno : v ∉ map Bar.VolumeId bars) by (rewrite <- Hv; exact Hb0).
    clear - Hno. generalize (S k) as d. generalize (Some k) as r.
    induction bars as [|b1 bars IH]; intros; simpl; [reflexivity|].
    apply not_elem_of_cons in Hno as [Hne Hno].
    destruct (String.eqb_spec (Bar.VolumeId b1) v); [congruence|].
    now apply IH.
  - rewrite (IH Hnd (S k) _ j b Hj Hv). f_equal. lia.
Qed.

Lemma grouped_member_lt (exp0 exp : Expedition) (k j m : nat) (b : Bar.t) :
  grouped exp0 k exp -> Bars exp !! j = Some b -> m ∈ Bar.Nuggets b -> (m < k)%nat.
Proof.
  intros G Hb Hm.
  assert (Hin : m ∈ seq 0 k).
  { rewrite <- (grouped_members _ _ _ G).
    apply list_elem_of_In, in_concat. exists (Bar.Nuggets b). split.
    - apply in_map, list_elem_of_In, list_elem_of_lookup_2 with j. exact Hb.
    - now apply list_elem_of_In. }
  apply elem_of_seq in Hin. lia.
Qed.

Lemma record_of_insert (N : list Nugget.t) (m : nat) (nug : Nugget.t) (pb : option nat) :
  N !! m = Some nug ->
  map record_of (<[m := Nugget.with_parentBar nug pb]> N) = map record_of N.
Proof.
  intros H. change (map record_of) with (fmap (M:=list) record_of).
  rewrite list_fmap_insert. apply list_insert_id.
  rewrite list_lookup_fmap, H. reflexivity.
Qed.

(** One more nugget grouped. *)
Lemma grouped_step (exp0 exp : Expedition) (k : nat) (nug : Nugget.t) :
  grouped exp0 k exp ->
  Nuggets exp !! k = Some nug ->
  grouped exp0 (S k) (addBar_result k nug exp).
Proof.
  intros G HN.
  assert (Hlt : forall j m b, Bars exp !! j = Some b -> m ∈ Bar.Nuggets b -> (m < k)%nat).
  { intros j m b. apply (grouped_member_lt exp0 exp k j m b G). }
  set (v := ec2.Snapshot.VolumeId (Nugget.Snap nug)).
  assert (Hother : forall m pb, m <> k ->
            <[k := Nugget.with_parentBar nug pb]> (Nuggets exp) !! m = Nuggets exp !! m).
  { intros m pb Hne. now apply list_lookup_insert_ne. }
  assert (Hk : forall pb,
            <[k := Nugget.with_parentBar nug pb]> (Nuggets exp) !! k
            = Some (Nugget.with_parentBar nug pb)).
  { intros pb. apply list_lookup_insert_eq. now apply lookup_lt_Some in HN. }
  unfold addBar_result. fold v.
  destruct (existsb _ (Bars exp)) eqn:Hex.
  - (* the nugget joins the bar of its volume *)
    assert (Hin : v ∈ map Bar.VolumeId (Bars exp)).
    { destruct (decide (v ∈ map Bar.VolumeId (Bars exp))) as [?|Hno]; [assumption|].
      apply no_match_not_key in Hno. congruence. }
    assert (Hkeys : map Bar.VolumeId (map (addTo v k) (Bars exp))
                    = map Bar.VolumeId (Bars exp)).
    { rewrite map_map. apply map_ext. intros b. apply addTo_VolumeId. }
    split; cbn [Bars Nuggets with_Bars with_Nuggets].
    + rewrite Hkeys. apply (grouped_keys _ _ _ G).
    + rewrite addTo_members by (try apply (grouped_keys _ _ _ G); exact Hin).
      rewrite (grouped_members _ _ _ G), seq_S. reflexivity.
    + intros j b' m Hb' Hm.
      change (map (addTo v k)) with (fmap (M:=list) (addTo v k)) in Hb'.
      rewrite list_lookup_fmap in Hb'.
      destruct (Bars exp !! j) as [b|] eqn:Hb; [|discriminate].
      injection Hb' as <-. rewrite addTo_VolumeId.
      rewrite addTo_Nuggets in Hm. apply elem_of_app in Hm as [Hm|Hm].
      * destruct (grouped_parent _ _ _ G j b m Hb Hm) as (nm & Hnm & Hv & Hp).
        exists nm. rewrite Hother by (specialize (Hlt j m b Hb Hm); lia). auto.
      * destruct (String.eqb_spec (Bar.VolumeId b) v) as [Hv|Hv]; [|inversion Hm].
        apply list_elem_of_singleton in Hm as ->.
        eexists. split; [apply Hk|]. split; [symmetry; exact Hv|].
        cbn [Nugget.parentBar Nugget.with_parentBar].
        apply (lastMatch_unique v (Bars exp) (grouped_keys _ _ _ G) 0 _ j b Hb Hv).
    + intros j b' Hb'.
      change (map (addTo v k)) with (fmap (M:=list) (addTo v k)) in Hb'.
      rewrite list_lookup_fmap in Hb'.
      destruct (Bars exp !! j) as [b|] eqn:Hb; [|discriminate].
      injection Hb' as <-. rewrite addTo_HasVol, addTo_Nuggets.
      destruct (grouped_first _ _ _ G j b Hb) as (m & rest & nm & Hmem & Hnm & Hhv & Hmin).
      assert (Hmk : (m < k)%nat).
      { apply (Hlt j m b Hb). rewrite Hmem. apply elem_of_cons. now left. }
      exists m, (rest ++ (if String.eqb (Bar.VolumeId b) v then [k] else [])), nm.
      split; [now rewrite Hmem|]. split; [rewrite Hother by lia; exact Hnm|].
      split; [exact Hhv|].
      intros m' Hm'. apply elem_of_app in Hm' as [Hm'|Hm']; [now apply Hmin|].
      destruct (String.eqb _ _); [|inversion Hm'].
      apply list_elem_of_singleton in Hm' as ->. exact Hmk.
    + rewrite (record_of_insert _ _ _ _ HN). apply (grouped_records _ _ _ G).
    + rewrite (grouped_frame _ _ _ G) at 1. reflexivity.
  - (* the nugget opens a new bar *)
    apply no_match_not_key in Hex.
    split; cbn [Bars Nuggets with_Bars with_Nuggets].
    + rewrite map_app. cbn [map Bar.VolumeId].
      apply NoDup_app. split; [apply (grouped_keys _ _ _ G)|]. split.
      * intros x Hx Hx'. apply list_elem_of_singleton in Hx' as ->. contradiction.
      * apply NoDup_singleton.
    + rewrite map_app, concat_app. cbn [map concat Bar.Nuggets]. rewrite app_nil_r.
      rewrite (grouped_members _ _ _ G), seq_S. reflexivity.
    + intros j b m Hb Hm.
      apply lookup_app_Some in Hb as [Hb|[Hlen Hb]].
      * destruct (grouped_parent _ _ _ G j b m Hb Hm) as (nm & Hnm & Hv & Hp).
        exists nm. rewrite Hother by (specialize (Hlt j m b Hb Hm); lia). auto.
      * apply list_lookup_singleton_Some in Hb as [Hj <-].
        cbn [Bar.Nuggets Bar.VolumeId] in *.
        apply list_elem_of_singleton in Hm as ->.
        eexists. split; [apply Hk|]. split; [reflexivity|].
        cbn [Nugget.parentBar Nugget.with_parentBar]. f_equal. lia.
    + intros j b Hb.
      apply lookup_app_Some in Hb as [Hb|[Hlen Hb]].
      * destruct (grouped_first _ _ _ G j b Hb) as (m & rest & nm & Hmem & Hnm & Hhv & Hmin).
        assert (Hmk : (m < k)%nat).
        { apply (Hlt j m b Hb). rewrite Hmem. apply elem_of_cons. now left. }
        exists m, rest, nm. rewrite Hother by lia. auto.
      * apply list_lookup_singleton_Some in Hb as [Hj <-].
        cbn [Bar.Nuggets Bar.HasVol].
        exists k, [], (Nugget.with_parentBar nug (Some (length (Bars exp)))).
        split; [reflexivity|]. split; [apply Hk|]. split; [reflexivity|].
        intros m' Hm'. inversion Hm'.
    + rewrite (record_of_insert _ _ _ _ HN). apply (grouped_records _ _ _ G).
    + rewrite (grouped_frame _ _ _ G) at 1. reflexivity.
Qed.

Lemma grouped_start (exp : Expedition) : Bars exp = [] -> grouped exp 0 exp.
Proof.
  intros HB. split.
  - rewrite HB. constructor.
  - rewrite HB. reflexivity.
  - intros j b m Hj. rewrite HB in Hj. inversion Hj.
  - intros j b Hj. rewrite HB in Hj. inversion Hj.
  - reflexivity.
  - symmetry. apply with_same.
Qed.

Lemma addBars_loop (exp0 : Expedition) (r : nat) :
  forall k exp,
    grouped exp0 k exp -> (k + r = length (Nuggets exp0))%nat ->
    exists exp',
      rangeM (fun _ nug => addBar nug) (seq k r) tt exp = Done (tt, exp') /\
      grouped exp0 (k + r) exp'.
Proof.
  induction r as [|r IH]; intros k exp G Hlen.
  - exists exp. rewrite Nat.add_0_r. now split.
  - assert (HN : is_Some (Nuggets exp !! k)).
    { apply lookup_lt_is_Some.
      rewrite <- (length_map record_of), (grouped_records _ _ _ G), length_map. lia. }
    destruct HN as [nug HN].
    cbn [seq rangeM].
    rewrite (bind_Done _ _ _ _ _ (addBar_spec k exp nug HN)).
    destruct (IH (S k) _ (grouped_step _ _ _ _ G HN) ltac:(lia)) as (exp' & Hrun & G').
    exists exp'. split; [exact Hrun|].
    now replace (k + S r)%nat with (S k + r)%nat by lia.
Qed.

Lemma addBars_grouped (exp : Expedition) :
  Bars exp = [] ->
  exists exp', addBars exp = Done (tt, exp') /\
               grouped exp (length (Nuggets exp)) exp'.
Proof.
  intros HB. unfold addBars, pointers.
  destruct (addBars_loop exp (length (Nuggets exp)) 0 exp (grouped_start exp HB) eq_refl)
    as (exp' & Hrun & G).
  exists exp'. split; [|exact G].
  unfold mbind, M_bind, get. exact Hrun.
Qed.

(** C6: aggregation of any collection of records, starting without bars,
    returns; it leaves the records as they were (only their [parentBar] is
    set); the member lists of the bars together hold every record pointer
    exactly once; bars have pairwise distinct volume ids, every member has
    the volume id of its bar and points back to it; and every record is a
    member of exactly one bar. *)
Theorem addBars_partitions_records (exp : Expedition) :
  Bars exp = [] ->
  exists exp',
    addBars exp = Done (tt, exp') /\
    map record_of (Nuggets exp') = map record_of (Nuggets exp) /\
    concat (map Bar.Nuggets (Bars exp')) ≡ₚ pointers (Nuggets exp) /\
    NoDup (concat (map Bar.Nuggets (Bars exp'))) /\
    NoDup (map Bar.VolumeId (Bars exp')) /\
    (forall j b m, Bars exp' !! j = Some b -> m ∈ Bar.Nuggets b ->
       exists nug, Nuggets exp' !! m = Some nug /\
                   ec2.Snapshot.VolumeId (Nugget.Snap nug) = Bar.VolumeId b /\
                   Nugget.parentBar nug = Some j) /\
    (forall m, (m < length (Nuggets exp))%nat ->
       exists j b, Bars exp' !! j = Some b /\ m ∈ Bar.Nuggets b /\
                   forall j' b', Bars exp' !! j' = Some b' -> m ∈ Bar.Nuggets b' ->
                                 j' = j).
Proof.
  intros HB. destruct (addBars_grouped exp HB) as (exp' & Hrun & G).
  exists exp'. split; [exact Hrun|].
  split; [apply (grouped_records _ _ _ G)|].
  split; [apply (grouped_members _ _ _ G)|].
  split; [rewrite (grouped_members _ _ _ G); apply NoDup_seq|].
  split; [apply (grouped_keys _ _ _ G)|].
  split; [apply (grouped_parent _ _ _ G)|].
  intros m Hm.
  assert (Hin : m ∈ concat (map Bar.Nuggets (Bars exp'))).
  { rewrite (grouped_members _ _ _ G). apply elem_of_seq. lia. }
  apply list_elem_of_In, in_concat in Hin as (ms & Hms & Hmem).
  apply in_map_iff in Hms as (b & <- & Hb).
  apply list_elem_of_In, list_elem_of_lookup in Hb as (j & Hj).
  apply list_elem_of_In in Hmem.
  exists j, b. split; [exact Hj|]. split; [exact Hmem|].
  intros j' b' Hj' Hmem'.
  destruct (grouped_parent _ _ _ G j b m Hj Hmem) as (nug & Hnug & _ & Hp).
  destruct (grouped_parent _ _ _ G j' b' m Hj' Hmem') as (nug' & Hnug' & _ & Hp').
  congruence.
Qed.

(** C3, as the code has it: after aggregation a bar's [HasVol] is the
    [HasVol] of its first member, which is the earliest record of that
    volume in the collection; later members do not change it. So a bar
    whose flag is set has a member whose volume exists, but not
    conversely. *)
Theorem bar_HasVol_is_first_member (exp : Expedition) :
  Bars exp = [] ->
  exists exp',
    addBars exp = Done (tt, exp') /\
    forall j b, Bars exp' !! j = Some b ->
      (exists m rest nug,
          Bar.Nuggets b = m :: rest /\
          Nuggets exp' !! m = Some nug /\
          Bar.HasVol b = Nugget.HasVol nug /\
          forall m', m' ∈ rest -> (m < m')%nat) /\
      (Bar.HasVol b = true -> spec_groupHasVolume exp' b = true).
Proof.
  intros HB. destruct (addBars_grouped exp HB) as (exp' & Hrun & G).
  exists exp'. split; [exact Hrun|].
  intros j b Hj.
  destruct (grouped_first _ _ _ G j b Hj) as (m & rest & nug & Hmem & Hnug & Hhv & Hmin).
  split; [exists m, rest, nug; auto|].
  intros Htrue. unfold spec_groupHasVolume. rewrite Hmem. simpl.
  rewrite Hnug, <- Hhv, Htrue. reflexivity.
Qed.

(** C3 fails as stated: of two snapshots of [vol-3], the first without and
    the second with an existing volume, the bar's flag is false although
    the OR of the members' flags is true; in the other order the flag is
    true. The flag depends on which member is grouped first. *)
Lemma bar_HasVol_not_or_of_members :
  exists exp' b exp'' b',
    addBars disagreeing_members = Done (tt, exp') /\
    Bars exp' = [b] /\ Bar.Nuggets b = [0%nat; 1%nat] /\
    Bar.HasVol b = false /\ spec_groupHasVolume exp' b = true /\
    addBars disagreeing_members_swapped = Done (tt, exp'') /\
    Bars exp'' = [b'] /\ Bar.Nuggets b' = [0%nat; 1%nat] /\
    Bar.HasVol b' = true.
Proof.
  do 4 eexists. vm_compute. repeat split.
Qed.

(** ** The deletion plan *)

Lemma append_plan_nil (exp : Expedition) : append_plan exp [] = exp.
Proof. unfold append_plan. simpl. rewrite !app_nil_r. now destruct exp. Qed.

Lemma append_plan_app (exp : Expedition) (D1 D2 : list Nugget.t) :
  append_plan (append_plan exp D1) D2 = append_plan exp (D1 ++ D2).
Proof.
  unfold append_plan. cbn [LtsToDelete LcsToDelete AmiToDelete SnapToDelete
    with_LtsToDelete with_LcsToDelete with_AmiToDelete with_SnapToDelete].
  rewrite !flat_map_app, map_app, !app_assoc. reflexivity.
Qed.

Section CollectDeletable.

Let inner : Z * Z * list (option nat) -> nat -> M (Z * Z * list (option nat)) :=
  (fun '(countAsgShare, countHasVol, barsToDelete) nug =>
   n ← derefNugget nug;
   if (len (Nugget.ASGs n) =? 0) && (len (Nugget.AMISharedWith n) =? 0)
   then
     _ ← modify (fun exp =>
            with_LtsToDelete exp (LtsToDelete exp ++ Nugget.LTs n));
     _ ← modify (fun exp =>
            with_LcsToDelete exp (LcsToDelete exp ++ Nugget.LCs n));
     _ ← modify (fun exp =>
            with_AmiToDelete exp (AmiToDelete exp ++ Nugget.AMIIDs n));
     _ ← modify (fun exp =>
            with_SnapToDelete exp
              (SnapToDelete exp ++ [ec2.Snapshot.SnapshotId (Nugget.Snap n)]));
     mret (countAsgShare, countHasVol, barsToDelete ++ [Nugget.parentBar n])
   else mret (wrap64 (countAsgShare + 1), countHasVol, barsToDelete)).

Let outer : Z * Z * list (option nat) -> nat -> M (Z * Z * list (option nat)) :=
  (fun '(countAsgShare, countHasVol, barsToDelete) bar =>
   b ← derefBar bar;
   if negb (Bar.HasVol b) then
     rangeM inner (Bar.Nuggets b) (countAsgShare, countHasVol, barsToDelete)
   else mret (countAsgShare, wrap64 (countHasVol + 1), barsToDelete)).

Lemma inner_step (exp : Expedition) (cA cH : Z) (btd : list (option nat))
      (m : nat) (nug : Nugget.t) :
  Nuggets exp !! m = Some nug ->
  inner (cA, cH, btd) m exp =
  Done (if deletable nug then (cA, cH, btd ++ [Nugget.parentBar nug])
        else (wrap64 (cA + 1), cH, btd),
        if deletable nug then append_plan exp [nug] else exp).
Proof.
  intros Hm. unfold inner, mbind, M_bind.
  rewrite (derefNugget_Some _ _ _ Hm). cbv beta iota.
  fold (deletable nug). destruct (deletable nug); [|reflexivity].
  unfold modify, mret, M_ret, append_plan. simpl. now rewrite !app_nil_r.
Qed.

Lemma collect_inner (members : list nat) :
  forall (exp : Expedition) (cA cH : Z) (btd : list (option nat)),
    Forall (fun m => is_Some (Nuggets exp !! m)) members ->
    let D := List.filter deletable (omap (fun m => Nuggets exp !! m) members) in
    exists cA',
      rangeM inner members (cA, cH, btd) exp =
      Done ((cA', cH, btd ++ map Nugget.parentBar D), append_plan exp D).
Proof.
  induction members as [|m ms IH]; intros exp cA cH btd Hvalid D.
  - exists cA. subst D. simpl. now rewrite app_nil_r, append_plan_nil.
  - apply Forall_cons in Hvalid as [[nug Hm] Hvalid].
    subst D. cbn [omap list_omap rangeM]. rewrite Hm.
    rewrite (bind_Done _ _ _ _ _ (inner_step exp cA cH btd m nug Hm)).
    cbn [List.filter].
    destruct (deletable nug).
    + destruct (IH (append_plan exp [nug]) cA cH (btd ++ [Nugget.parentBar nug]))
        as (cA' & Hrun); [exact Hvalid|].
      exists cA'. rewrite Hrun.
      rewrite append_plan_app, <- app_assoc. reflexivity.
    + exact (IH exp (wrap64 (cA + 1)) cH btd Hvalid).
Qed.

Lemma outer_step (exp : Expedition) (cA cH : Z) (btd : list (option nat))
      (bar : nat) (b : Bar.t) :
  Bars exp !! bar = Some b ->
  outer (cA, cH, btd) bar exp =
  if Bar.HasVol b then Done ((cA, wrap64 (cH + 1), btd), exp)
  else rangeM inner (Bar.Nuggets b) (cA, cH, btd) exp.
Proof.
  intros Hb. unfold outer, mbind, M_bind.
  rewrite (derefBar_Some _ _ _ Hb). cbv beta iota.
  now destruct (Bar.HasVol b).
Qed.

Lemma collect_outer (post : list Bar.t) :
  forall (pre : list Bar.t) (exp : Expedition) (cA cH : Z) (btd : list (option nat)),
    Bars exp = pre ++ post ->
    Forall (fun b => Forall (fun m => is_Some (Nuggets exp !! m)) (Bar.Nuggets b)) post ->
    let D := flat_map (deletableIn exp) post in
    exists cA' cH',
      rangeM outer (seq (length pre) (length post)) (cA, cH, btd) exp =
      Done ((cA', cH', btd ++ map Nugget.parentBar D), append_plan exp D).
Proof.
  induction post as [|b post IH]; intros pre exp cA cH btd HB Hvalid D.
  - exists cA, cH. subst D. simpl. now rewrite app_nil_r, append_plan_nil.
  - apply Forall_cons in Hvalid as [Hb Hvalid].
    assert (Hlook : Bars exp !! length pre = Some b).
    { rewrite HB. now apply list_lookup_middle. }
    subst D. cbn [length seq rangeM flat_map].
    unfold mbind, M_bind. rewrite (outer_step _ _ _ _ _ _ Hlook).
    replace (S (length pre)) with (length (pre ++ [b]))
      by (rewrite length_app; simpl; lia).
    assert (HD : deletableIn exp b =
                 if Bar.HasVol b then []
                 else List.filter deletable
                        (omap (fun m => Nuggets exp !! m) (Bar.Nuggets b)))
      by reflexivity.
    rewrite !HD. clear HD.
    destruct (Bar.HasVol b).
    + exact (IH (pre ++ [b]) exp cA (wrap64 (cH + 1)) btd
               ltac:(now rewrite <- app_assoc) Hvalid).
    + destruct (collect_inner (Bar.Nuggets b) exp cA cH btd Hb) as (cA1 & Hin).
      cbv zeta in Hin. rewrite Hin.
      set (Db := List.filter deletable (omap (fun m => Nuggets exp !! m) (Bar.Nuggets b))).
      destruct (IH (pre ++ [b]) (append_plan exp Db) cA1 cH
                  (btd ++ map Nugget.parentBar Db))
        as (cA' & cH' & Hrun); [now rewrite <- app_assoc | exact Hvalid |].
      exists cA', cH'. rewrite Hrun.
      rewrite append_plan_app, map_app, <- app_assoc. reflexivity.
Qed.

Lemma collectDeletable_spec (exp : Expedition) :
  Forall (fun b => Forall (fun m => is_Some (Nuggets exp !! m)) (Bar.Nuggets b))
         (Bars exp) ->
  let D := flat_map (deletableIn exp) (Bars exp) in
  exists cA cH,
    collectDeletable exp =
    Done ((cA, cH, map Nugget.parentBar D), append_plan exp D).
Proof.
  intros Hvalid D. unfold collectDeletable, pointers.
  unfold mbind, M_bind, get.
  change (rangeM _ ?xs ?acc exp) with (rangeM outer xs acc exp).
  exact (collect_outer (Bars exp) [] exp 0 0 [] eq_refl Hvalid).
Qed.

End CollectDeletable.

Lemma len_zero_nil {A : Type} (l : list A) : (len l =? 0) = true <-> l = [].
Proof.
  unfold len. destruct l; cbn [length]; split; intros H;
    try reflexivity; discriminate.
Qed.

Lemma deletable_iff (nug : Nugget.t) :
  deletable nug = true <-> Nugget.ASGs nug = [] /\ Nugget.AMISharedWith nug = [].
Proof. unfold deletable. now rewrite andb_true_iff, !len_zero_nil. Qed.

Lemma in_deletable (exp : Expedition) (nug : Nugget.t) :
  In nug (flat_map (deletableIn exp) (Bars exp)) <->
  exists j b m,
    Bars exp !! j = Some b /\ Bar.HasVol b = false /\ m ∈ Bar.Nuggets b /\
    Nuggets exp !! m = Some nug /\
    Nugget.ASGs nug = [] /\ Nugget.AMISharedWith nug = [].
Proof.
  rewrite in_flat_map. split.
  - intros (b & Hb & Hin). unfold deletableIn, membersOf in Hin.
    destruct (Bar.HasVol b) eqn:Hhv; [inversion Hin|].
    apply filter_In in Hin as [Hin Hdel].
    apply list_elem_of_In, list_elem_of_omap in Hin as (m & Hm & Hlook).
    apply list_elem_of_In, list_elem_of_lookup in Hb as (j & Hj).
    apply deletable_iff in Hdel as [? ?].
    exists j, b, m. split_and!; assumption.
  - intros (j & b & m & Hj & Hhv & Hm & Hlook & Hasg & Hsh).
    exists b. split; [apply list_elem_of_In, list_elem_of_lookup; eauto|].
    unfold deletableIn, membersOf. rewrite Hhv.
    apply filter_In. split; [|apply deletable_iff; auto].
    apply list_elem_of_In, list_elem_of_omap. eauto.
Qed.

Section TotalGbs.

Let body (totalGbs : Z) (b : option nat) : M Z :=
  match b with
  | None => panic nil_deref
  | Some p =>
      bar ← derefBar p;
      if negb (Bar.HasVol bar) then
        match Bar.Nuggets bar with
        | [] => panic index_out_of_range
        | first :: _ =>
            n ← derefNugget first;
            mret (wrap64 (totalGbs + ec2.Snapshot.VolumeSize (Nugget.Snap n)))
        end
      else mret totalGbs
  end.

(** A [barsToDelete] entry the cost loop can follow. *)
Let followable (exp : Expedition) (b : option nat) : Prop :=
  exists p bar first rest n,
    b = Some p /\ Bars exp !! p = Some bar /\
    Bar.Nuggets bar = first :: rest /\ Nuggets exp !! first = Some n.

Lemma totalGbs_step (exp : Expedition) (totalGbs : Z) (b : option nat) :
  followable exp b ->
  body totalGbs b exp = Done (addSize exp totalGbs b, exp).
Proof.
  intros (p & bar & first & rest & n & -> & Hbar & Hmem & Hn).
  unfold body, addSize, mbind, M_bind. cbn [option_bind].
  rewrite (derefBar_Some _ _ _ Hbar). cbv beta iota.
  unfold mbind, option_bind. rewrite Hbar, Hmem, Hn.
  destruct (Bar.HasVol bar); cbn [negb]; [reflexivity|].
  rewrite (derefNugget_Some _ _ _ Hn). reflexivity.
Qed.

Lemma totalGbsOf_spec (exp : Expedition) (barsToDelete : list (option nat)) :
  Forall (followable exp) barsToDelete ->
  totalGbsOf barsToDelete exp = Done (fold_left (addSize exp) barsToDelete 0, exp).
Proof.
  unfold totalGbsOf. change (rangeM _ ?xs ?acc exp) with (rangeM body xs acc exp).
  generalize 0. induction barsToDelete as [|b bs IH]; intros acc Hall.
  - reflexivity.
  - apply Forall_cons in Hall as [Hb Hall]. cbn [rangeM fold_left].
    rewrite (bind_Done _ _ _ _ _ (totalGbs_step exp acc b Hb)).
    now apply IH.
Qed.

Lemma setRecommendations_spec (aws : Provider) (exp0 exp : Expedition) (k : nat) :
  grouped exp0 k exp ->
  exists cA cH,
    setRecommendations aws exp =
    Done (tt, setRecommendations_result aws exp
                (flat_map (deletableIn exp) (Bars exp)) cA cH).
Proof.
  intros G.
  assert (Hvalid : Forall (fun b => Forall (fun m => is_Some (Nuggets exp !! m))
                                      (Bar.Nuggets b)) (Bars exp)).
  { apply Forall_forall. intros b Hb. apply Forall_forall. intros m Hm.
    apply list_elem_of_lookup in Hb as (j & Hj).
    destruct (grouped_parent _ _ _ G j b m Hj Hm) as (nug & Hnug & _). eauto. }
  destruct (collectDeletable_spec exp Hvalid) as (cA & cH & Hcol).
  cbv zeta in Hcol. set (D := flat_map (deletableIn exp) (Bars exp)) in *.
  assert (Hfollow : Forall (followable (dedupe_plan (append_plan exp D)))
                      (map Nugget.parentBar D)).
  { apply Forall_forall. intros pb Hpb.
    apply list_elem_of_In, in_map_iff in Hpb as (nug & <- & Hnug).
    apply in_deletable in Hnug as (j & b & m & Hj & _ & Hm & Hlook & _).
    destruct (grouped_parent _ _ _ G j b m Hj Hm) as (nug' & Hnug' & _ & Hp).
    destruct (grouped_first _ _ _ G j b Hj) as (first & rest & n & Hmem & Hn & _).
    assert (nug' = nug) by congruence. subst nug'.
    exists j, b, first, rest, n. auto. }
  exists cA, cH. unfold setRecommendations.
  rewrite (bind_Done _ _ _ _ _ Hcol).
  unfold modify, get, mbind at 1 2 3 4 5, M_bind at 1 2 3 4 5.
  change (with_SnapToDelete _ _) with (dedupe_plan (append_plan exp D)).
  rewrite (bind_Done _ _ _ _ _ (totalGbsOf_spec _ _ Hfollow)).
  reflexivity.
Qed.

End TotalGbs.

(** ** What the stages before aggregation leave alone *)

Lemma untouched_refl (exp : Expedition) : untouched exp exp.
Proof. now split. Qed.

Lemma untouched_trans (e1 e2 e3 : Expedition) :
  untouched e1 e2 -> untouched e2 e3 -> untouched e1 e3.
Proof. intros [] []. split; congruence. Qed.

Lemma keeps_ret {A : Type} (a : A) : keeps (mret a).
Proof. intros exp a' exp' H. injection H as _ <-. apply untouched_refl. Qed.

Lemma keeps_bind {A B : Type} (m : M A) (f : A -> M B) :
  keeps m -> (forall a, keeps (f a)) -> keeps (m ≫= f).
Proof.
  intros Hm Hf exp b exp' H. unfold mbind, M_bind in H.
  destruct (m exp) as [[a exp1]|] eqn:Hm1; [|discriminate].
  eapply untouched_trans; [eapply Hm | eapply Hf]; eassumption.
Qed.

Lemma keeps_get : keeps get.
Proof. intros exp a exp' H. injection H as _ <-. apply untouched_refl. Qed.

Lemma keeps_modify (f : Expedition -> Expedition) :
  (forall exp, untouched exp (f exp)) -> keeps (modify f).
Proof. intros Hf exp a exp' H. injection H as _ <-. apply Hf. Qed.

Lemma keeps_liftO {A : Type} (o : Outcome A) : keeps (liftO o).
Proof.
  intros exp a exp' H. unfold liftO in H. destruct o; [|discriminate].
  injection H as _ <-. apply untouched_refl.
Qed.

Lemma keeps_panic {A : Type} (msg : string) : keeps (panic (A:=A) msg).
Proof. intros exp a exp' H. discriminate. Qed.

Lemma keeps_derefNugget (p : nat) : keeps (derefNugget p).
Proof.
  intros exp a exp' H. unfold derefNugget in H.
  destruct (Nuggets exp !! p); [|discriminate].
  injection H as _ <-. apply untouched_refl.
Qed.

Lemma keeps_storeNugget (p : nat) (n : Nugget.t) : keeps (storeNugget p n).
Proof. apply keeps_modify. intros exp. now split. Qed.

Lemma keeps_rangeM {A B : Type} (body : B -> A -> M B) (xs : list A) :
  (forall acc x, keeps (body acc x)) -> forall acc, keeps (rangeM body xs acc).
Proof.
  intros Hbody. induction xs as [|x xs IH]; intros acc; simpl.
  - apply keeps_ret.
  - apply keeps_bind; [apply Hbody | exact IH].
Qed.

Lemma keeps_rangeE {A : Type} (body : A -> M (option Error)) (xs : list A) :
  (forall x, keeps (body x)) -> keeps (rangeE body xs).
Proof.
  intros Hbody. induction xs as [|x xs IH]; simpl.
  - apply keeps_ret.
  - apply keeps_bind; [apply Hbody|]. intros [e|]; [apply keeps_ret | exact IH].
Qed.

Lemma keeps_DescribeSnapshotsPages {L : Type}
      (responses : list (Error + list ec2.Snapshot.t))
      (fn : L -> list ec2.Snapshot.t -> bool -> M (bool * L)) :
  (forall l page lastPage, keeps (fn l page lastPage)) ->
  forall l, keeps (DescribeSnapshotsPages responses fn l).
Proof.
  intros Hfn. induction responses as [|[err|page] rest IH]; intros l; simpl.
  - apply keeps_ret.
  - apply keeps_ret.
  - apply keeps_bind; [apply Hfn|]. intros [[] l']; [apply IH | apply keeps_ret].
Qed.

Ltac keeps_step :=
  match goal with
  | |- keeps (mret _) => apply keeps_ret
  | |- keeps get => apply keeps_get
  | |- keeps (_ ≫= _) => apply keeps_bind; [|intros]
  | |- keeps (modify _) => apply keeps_modify; intros; now split
  | |- keeps (liftO _) => apply keeps_liftO
  | |- keeps (panic _) => apply keeps_panic
  | |- keeps (derefNugget _) => apply keeps_derefNugget
  | |- keeps (storeNugget _ _) => apply keeps_storeNugget
  | |- keeps (rangeM _ _ _) => apply keeps_rangeM; intros
  | |- keeps (rangeE _ _) => apply keeps_rangeE; intros
  | |- keeps (DescribeSnapshotsPages _ _ _) =>
      apply keeps_DescribeSnapshotsPages; intros
  | |- keeps (match ?x with _ => _ end) => destruct x
  end.

(** *** The runtime writes the shared fields only *)

Lemma same_others_refl (exp : Expedition) : same_others exp exp.
Proof. reflexivity. Qed.

Lemma same_others_trans (e1 e2 e3 : Expedition) :
  same_others e1 e2 -> same_others e2 e3 -> same_others e1 e3.
Proof. unfold same_others. congruence. Qed.

Lemma same_others_untouched (exp exp' : Expedition) :
  same_others exp exp' -> untouched exp exp'.
Proof.
  intros H. split.
  - exact (f_equal Bars H).
  - exact (f_equal LtsToDelete H).
  - exact (f_equal LcsToDelete H).
  - exact (f_equal AmiToDelete H).
  - exact (f_equal SnapToDelete H).
  - exact (f_equal recommendations H).
  - exact (f_equal maxPages H).
  - exact (f_equal volBatchSize H).
  - exact (f_equal ebsSnapRate H).
Qed.

Lemma advance_same_others (g k : Goroutine) (started : list Goroutine)
      (exp exp' : Expedition) :
  advance g exp = Done (Continues k started exp') -> same_others exp exp'.
Proof.
  destruct g; cbn [advance]; intros H; try discriminate.
  - destruct (queue exp); [discriminate|]. now injection H as _ _ <-.
  - now injection H as _ _ <-.
  - destruct (wgv exp); [|discriminate]. now injection H as _ _ <-.
  - now injection H as _ _ <-.
  - now injection H as _ _ <-.
  - now injection H as _ _ <-.
  - now injection H as _ _ <-.
Qed.

Lemma step_same_others (choice : nat) (exp exp' : Expedition) :
  step choice exp = Done (tt, exp') -> same_others exp exp'.
Proof.
  unfold step.
  destruct (choice <? length (wgv exp))%nat.
  - destruct (wgv exp !! choice) as [g|]; [|now intros H; injection H as <-].
    destruct (advance g exp) as [[| |k started exp1]|] eqn:Hadv; intros H;
      try discriminate; injection H as <-; try reflexivity.
    apply advance_same_others in Hadv. exact Hadv.
  - destruct (wgq exp !! (choice - length (wgv exp))%nat) as [g|];
      [|now intros H; injection H as <-].
    destruct (advance g exp) as [[| |k started exp1]|] eqn:Hadv; intros H;
      try discriminate; injection H as <-; try reflexivity.
    apply advance_same_others in Hadv. exact Hadv.
Qed.

Lemma schedule_same_others (choices : list nat) :
  forall exp exp', schedule choices exp = Done (tt, exp') -> same_others exp exp'.
Proof.
  unfold schedule. induction choices as [|c rest IH]; intros exp exp' H.
  - injection H as <-. reflexivity.
  - cbn [rangeM] in H. unfold mbind, M_bind in H.
    destruct (step c exp) as [[[] exp1]|] eqn:Hstep; [|discriminate].
    eapply same_others_trans; [exact (step_same_others _ _ _ Hstep)|].
    apply IH. exact H.
Qed.

Lemma complete_same_others (g : Goroutine) :
  forall exp exp', complete g exp = Done exp' -> same_others exp exp'.
Proof.
  induction g as [|msg|k IH|child IHc k IHk|k IH|k IH|v k IH|k IH|v k IH];
    intros exp exp' H; cbn [complete] in H.
  - injection H as <-. reflexivity.
  - discriminate.
  - destruct (queue exp) as [|page rest]; [discriminate|].
    apply IH in H. exact H.
  - destruct (complete child exp) as [exp1|] eqn:Hc; [|discriminate].
    eapply same_others_trans; [apply IHc; exact Hc | apply IHk; exact H].
  - apply IH. exact H.
  - apply IH in H. exact H.
  - apply IH in H. exact H.
  - apply IH in H. exact H.
  - apply IH in H. exact H.
Qed.

Lemma complete_all_same_others (gs : list Goroutine) :
  forall exp exp',
    rangeO (fun exp g => complete g exp) gs exp = Done exp' -> same_others exp exp'.
Proof.
  induction gs as [|g gs IH]; intros exp exp' H; cbn [rangeO] in H.
  - injection H as <-. reflexivity.
  - destruct (complete g exp) as [exp1|] eqn:Hc; [|discriminate].
    eapply same_others_trans; [exact (complete_same_others _ _ _ Hc) | now apply IH].
Qed.

Lemma settle_same_others (exp exp' : Expedition) :
  settle exp = Done (tt, exp') -> same_others exp exp'.
Proof.
  unfold settle. intros H.
  destruct (rangeO _ (wgv exp) _) as [exp1|] eqn:H1; [|discriminate].
  destruct (rangeO _ (wgq exp1) _) as [exp2|] eqn:H2; [|discriminate].
  injection H as <-.
  apply complete_all_same_others in H1, H2.
  eapply same_others_trans; [|exact H2].
  eapply same_others_trans; [exact H1 | reflexivity].
Qed.

Lemma keeps_schedule (choices : list nat) : keeps (schedule choices).
Proof.
  intros exp [] exp' H. apply same_others_untouched.
  exact (schedule_same_others _ _ _ H).
Qed.

Lemma keeps_settle : keeps settle.
Proof.
  intros exp [] exp' H. apply same_others_untouched.
  exact (settle_same_others _ _ H).
Qed.

Lemma keeps_snapshotPage (aws : Provider) (locals : Z * Z)
      (page : list ec2.Snapshot.t) (lastPage : bool) :
  keeps (snapshotPage aws locals page lastPage).
Proof.
  unfold snapshotPage. destruct locals as [pageNum totalSnaps].
  repeat first [apply keeps_schedule | apply keeps_settle | keeps_step].
Qed.

Lemma keeps_getSnapshots (aws : Provider) : keeps (getSnapshots aws).
Proof.
  unfold getSnapshots, readSnapshotPages.
  repeat first [apply keeps_schedule | apply keeps_settle
               | apply keeps_snapshotPage | keeps_step].
Qed.

Lemma keeps_populateNuggets (aws : Provider) : keeps (populateNuggets aws).
Proof. unfold populateNuggets. repeat keeps_step. Qed.

Lemma keeps_setDateFilter (aws : Provider) (datestring : string) :
  keeps (setDateFilter aws datestring).
Proof. unfold setDateFilter. repeat keeps_step. Qed.

Lemma keeps_getAccountNumber (aws : Provider) : keeps (getAccountNumber aws).
Proof. unfold getAccountNumber. repeat keeps_step. Qed.

(** ** Whole runs *)

Lemma New_fresh (input : ExpeditionInput) :
  let exp := fst (New input) in
  Bars exp = [] /\ Nuggets exp = [] /\ LtsToDelete exp = [] /\ LcsToDelete exp = [] /\
  AmiToDelete exp = [] /\ SnapToDelete exp = [] /\ recommendations exp = [].
Proof.
  unfold New. destruct (Session_ input); [destruct (Logger_ input)|];
    simpl; repeat split.
Qed.

(** [Start] either stops at the first stage that returns an error, having
    left bars, plan and recommendations alone, or it aggregates. *)
Lemma Start_cases (aws : Provider) (exp exp' : Expedition) (r : option Error) :
  Start aws exp = Done (r, exp') ->
  (exists e, r = Some e /\ untouched exp exp') \/
  (r = None /\
   exists exp1, untouched exp exp1 /\
                (addBars ≫= fun _ => setRecommendations aws) exp1 = Done (tt, exp')).
Proof.
  unfold Start. unfold mbind at 1, M_bind at 1, get at 1. intros H.
  unfold mbind at 1, M_bind at 1 in H.
  destruct (setDateFilter aws (dateFilter exp) exp) as [[[e|] exp1]|] eqn:H1;
    [| |discriminate].
  { injection H as <- <-. left. eexists. split; [reflexivity|].
    eapply keeps_setDateFilter; eassumption. }
  apply keeps_setDateFilter in H1.
  unfold mbind at 1, M_bind at 1 in H.
  destruct (getAccountNumber aws exp1) as [[[e|] exp2]|] eqn:H2; [| |discriminate].
  { injection H as <- <-. left. eexists. split; [reflexivity|].
    eapply untouched_trans; [exact H1|]. eapply keeps_getAccountNumber; eassumption. }
  apply keeps_getAccountNumber in H2.
  unfold mbind at 1, M_bind at 1 in H.
  destruct (getSnapshots aws exp2) as [[[e|] exp3]|] eqn:H3; [| |discriminate].
  { injection H as <- <-. left. eexists. split; [reflexivity|].
    eapply untouched_trans; [exact H1|]. eapply untouched_trans; [exact H2|].
    eapply keeps_getSnapshots; eassumption. }
  apply keeps_getSnapshots in H3.
  unfold mbind at 1, M_bind at 1 in H.
  destruct (populateNuggets aws exp3) as [[[e|] exp4]|] eqn:H4; [| |discriminate].
  { injection H as <- <-. left. eexists. split; [reflexivity|].
    eapply untouched_trans; [exact H1|]. eapply untouched_trans; [exact H2|].
    eapply untouched_trans; [exact H3|].
    eapply keeps_populateNuggets; eassumption. }
  apply keeps_populateNuggets in H4.
  right.
  assert (Hagg : exists u, (addBars ≫= fun _ => setRecommendations aws) exp4
                           = Done (u, exp') /\ r = None).
  { unfold mbind, M_bind in *.
    destruct (addBars exp4) as [[[] exp5]|]; [|discriminate].
    destruct (setRecommendations aws exp5) as [[[] exp6]|]; [|discriminate].
    injection H as <- <-. eauto. }
  destruct Hagg as ([] & Hagg & ->). split; [reflexivity|].
  exists exp4. split; [|exact Hagg].
  eauto using untouched_trans.
Qed.

(** Aggregation and planning of any record collection, from no bars. *)
Lemma aggregate_spec (aws : Provider) (exp : Expedition) :
  Bars exp = [] ->
  exists exp1 cA cH,
    grouped exp (length (Nuggets exp)) exp1 /\
    (addBars ≫= fun _ => setRecommendations aws) exp =
    Done (tt, setRecommendations_result aws exp1
                (flat_map (deletableIn exp1) (Bars exp1)) cA cH).
Proof.
  intros HB. destruct (addBars_grouped exp HB) as (exp1 & Hrun & G).
  destruct (setRecommendations_spec aws exp exp1 _ G) as (cA & cH & Hset).
  exists exp1, cA, cH. split; [exact G|].
  rewrite (bind_Done _ _ _ _ _ Hrun). exact Hset.
Qed.

Lemma plan_of_aggregation (aws : Provider) (exp exp' : Expedition) :
  Bars exp = [] -> LtsToDelete exp = [] -> LcsToDelete exp = [] ->
  AmiToDelete exp = [] -> SnapToDelete exp = [] ->
  (addBars ≫= fun _ => setRecommendations aws) exp = Done (tt, exp') ->
  exists exp1,
    let D := flat_map (deletableIn exp1) (Bars exp1) in
    grouped exp (length (Nuggets exp)) exp1 /\
    Bars exp' = Bars exp1 /\ Nuggets exp' = Nuggets exp1 /\
    LtsToDelete exp' = dedupeString (flat_map Nugget.LTs D) /\
    LcsToDelete exp' = dedupeString (flat_map Nugget.LCs D) /\
    AmiToDelete exp' = dedupeString (flat_map Nugget.AMIIDs D) /\
    SnapToDelete exp' =
      dedupeString (map (fun n => ec2.Snapshot.SnapshotId (Nugget.Snap n)) D).
Proof.
  intros HB HLt HLc HAm HSn Hrun.
  destruct (aggregate_spec aws exp HB) as (exp1 & cA & cH & G & Hagg).
  rewrite Hagg in Hrun. injection Hrun as <-.
  exists exp1. cbv zeta. split; [exact G|].
  pose proof (grouped_frame _ _ _ G) as Hfr.
  assert (HLt1 : LtsToDelete exp1 = []) by (rewrite Hfr; exact HLt).
  assert (HLc1 : LcsToDelete exp1 = []) by (rewrite Hfr; exact HLc).
  assert (HAm1 : AmiToDelete exp1 = []) by (rewrite Hfr; exact HAm).
  assert (HSn1 : SnapToDelete exp1 = []) by (rewrite Hfr; exact HSn).
  unfold setRecommendations_result, dedupe_plan, append_plan.
  cbn [Bars Nuggets LtsToDelete LcsToDelete AmiToDelete SnapToDelete
       with_recommendations with_SnapToDelete with_AmiToDelete with_LcsToDelete
       with_LtsToDelete].
  rewrite HLt1, HLc1, HAm1, HSn1. repeat split.
Qed.

(** C1: in every completed run of a new expedition, a snapshot id is in the
    plan's snapshot sequence exactly when some record with that id lies in
    a bar with [HasVol = false] and has no autoscaling group and no sharing
    account; the sequence has no repeated id, whatever launch
    configurations and templates the record matched. Every record lies in
    the bar its [parentBar] points to; if that bar has no volume and the
    record is unassociated, its id is in the plan, and for a record whose
    snapshot id no other record carries the converse holds as well. Every
    entry of the four plan sequences comes from such a deletable member of a
    bar with [HasVol = false]: a bar with [HasVol = true] contributes
    nothing. *)
Theorem deletion_plan_snapshots (aws : Provider) (input : ExpeditionInput)
    (exp' : Expedition) :
  Start aws (fst (New input)) = Done (None, exp') ->
  let in_plan_bar (nug : Nugget.t) : Prop :=
    exists j b m,
      Bars exp' !! j = Some b /\ Bar.HasVol b = false /\ m ∈ Bar.Nuggets b /\
      Nuggets exp' !! m = Some nug /\
      Nugget.ASGs nug = [] /\ Nugget.AMISharedWith nug = [] in
  (forall s, In s (SnapToDelete exp') <->
             exists nug, in_plan_bar nug /\
                         ec2.Snapshot.SnapshotId (Nugget.Snap nug) = s) /\
  NoDup (SnapToDelete exp') /\
  (forall m nug, Nuggets exp' !! m = Some nug ->
     exists j b,
       Nugget.parentBar nug = Some j /\ Bars exp' !! j = Some b /\
       m ∈ Bar.Nuggets b /\
       (Bar.HasVol b = false -> Nugget.ASGs nug = [] ->
        Nugget.AMISharedWith nug = [] ->
        In (ec2.Snapshot.SnapshotId (Nugget.Snap nug)) (SnapToDelete exp')) /\
       ((forall m' nug', Nuggets exp' !! m' = Some nug' ->
           ec2.Snapshot.SnapshotId (Nugget.Snap nug')
           = ec2.Snapshot.SnapshotId (Nugget.Snap nug) -> m' = m) ->
        In (ec2.Snapshot.SnapshotId (Nugget.Snap nug)) (SnapToDelete exp') ->
        Bar.HasVol b = false /\ Nugget.ASGs nug = [] /\
        Nugget.AMISharedWith nug = [])) /\
  (forall x, In x (LtsToDelete exp') ->
             exists nug, in_plan_bar nug /\ In x (Nugget.LTs nug)) /\
  (forall x, In x (LcsToDelete exp') ->
             exists nug, in_plan_bar nug /\ In x (Nugget.LCs nug)) /\
  (forall x, In x (AmiToDelete exp') ->
             exists nug, in_plan_bar nug /\ In x (Nugget.AMIIDs nug)).
Proof.
  intros Hstart in_plan_bar.
  destruct (New_fresh input) as (HB & _ & HLt & HLc & HAm & HSn & _).
  apply Start_cases in Hstart as [(e & He & _)|(_ & exp1 & Hun & Hagg)];
    [discriminate|].
  destruct Hun as [HB1 HLt1 HLc1 HAm1 HSn1 _ _ _ _].
  destruct (plan_of_aggregation aws exp1 exp'
              ltac:(congruence) ltac:(congruence) ltac:(congruence)
              ltac:(congruence) ltac:(congruence) Hagg)
    as (exp2 & G & HBars & HNug & HLts & HLcs & HAmi & HSnap).
  assert (Hinplan : forall nug,
            In nug (flat_map (deletableIn exp2) (Bars exp2)) <-> in_plan_bar nug).
  { intros nug. rewrite in_deletable. unfold in_plan_bar.
    rewrite HBars, HNug. reflexivity. }
  assert (Hsnap : forall s, In s (SnapToDelete exp') <->
             exists nug, in_plan_bar nug /\
                         ec2.Snapshot.SnapshotId (Nugget.Snap nug) = s).
  { intros s. rewrite HSnap, dedupeString_In, in_map_iff.
    split; intros (nug & H1 & H2); exists nug; split;
      try apply Hinplan; assumption. }
  split; [exact Hsnap|].
  split; [rewrite HSnap; apply dedupeString_NoDup|].
  split; [|split; [|split]].
  - intros m nug Hm. rewrite HNug in Hm.
    assert (Hin : m ∈ concat (map Bar.Nuggets (Bars exp2))).
    { rewrite (grouped_members _ _ _ G). apply elem_of_seq.
      apply lookup_lt_Some in Hm.
      rewrite <- (length_map record_of (Nuggets exp2)), (grouped_records _ _ _ G),
        length_map in Hm. lia. }
    apply list_elem_of_In, in_concat in Hin as (ms & Hms & Hmem).
    apply in_map_iff in Hms as (b & <- & Hb).
    apply list_elem_of_In, list_elem_of_lookup in Hb as (j & Hj).
    apply list_elem_of_In in Hmem.
    destruct (grouped_parent _ _ _ G j b m Hj Hmem) as (nug' & Hnug' & _ & Hp).
    assert (nug' = nug) by congruence. subst nug'.
    exists j, b. rewrite HBars.
    split; [exact Hp|]. split; [exact Hj|]. split; [exact Hmem|]. split.
    + intros Hhv Hasg Hsh. apply Hsnap. exists nug. split; [|reflexivity].
      exists j, b, m. rewrite HBars, HNug. split_and!; assumption.
    + intros Huniq Hin. apply Hsnap in Hin as (nug2 & Hplan & Hid).
      destruct Hplan as (j2 & b2 & m2 & Hj2 & Hhv2 & Hm2 & Hlook2 & Hasg2 & Hsh2).
      assert (m2 = m) by (apply (Huniq m2 nug2); assumption). subst m2.
      rewrite HNug in Hlook2. assert (nug2 = nug) by congruence. subst nug2.
      rewrite HBars in Hj2.
      destruct (grouped_parent _ _ _ G j2 b2 m Hj2 Hm2) as (nug3 & Hnug3 & _ & Hp3).
      assert (j2 = j) by congruence. subst j2.
      assert (b2 = b) by congruence. subst b2. auto.
  - intros x Hx. rewrite HLts, dedupeString_In, in_flat_map in Hx.
    destruct Hx as (nug & Hnug & Hx). exists nug. split; [now apply Hinplan|exact Hx].
  - intros x Hx. rewrite HLcs, dedupeString_In, in_flat_map in Hx.
    destruct Hx as (nug & Hnug & Hx). exists nug. split; [now apply Hinplan|exact Hx].
  - intros x Hx. rewrite HAmi, dedupeString_In, in_flat_map in Hx.
    destruct Hx as (nug & Hnug & Hx). exists nug. split; [now apply Hinplan|exact Hx].
Qed.

(** ** Provider errors *)


Lemma buildNuggets_drop (aws : Provider) (volBatchSize : Z) :
  buildNuggets (dropVolumeErrors aws) volBatchSize = buildNuggets aws volBatchSize.
Proof. reflexivity. Qed.





(** ** Defects met at concrete inputs *)

(** C2 at two inputs: a lone deletable 20 GB snapshot gives 20 GB, that is
    20 times the rate; two deletable snapshots of one deleted 20 GB volume
    form one bar, yet the bar's first member is counted once for each of
    them: 40 GB, at the default rate a saving of 2 instead of 1. *)
Theorem cost_counts_bar_once_per_deletable_member :
  let lone := state_after lone_snapshot default_input in
  let two := state_after two_snapshots_one_volume default_input in
  (Start lone_snapshot (fst (New default_input)) = Done (None, lone) /\
   map Bar.Nuggets (Bars lone) = [[0%nat]] /\
   SnapToDelete lone = ["snap-A"%string] /\
   last (recommendations lone)
   = Some (savingsLine lone_snapshot 20 (ebsSnapRate lone)) /\
   PrimFloat.mul (float64_of_int64 20) (ebsSnapRate lone) = 1%float) /\
  (Start two_snapshots_one_volume (fst (New default_input)) = Done (None, two) /\
   map Bar.Nuggets (Bars two) = [[0%nat; 1%nat]] /\
   SnapToDelete two = ["snap-A"%string; "snap-B"%string] /\
   last (recommendations two)
   = Some (savingsLine two_snapshots_one_volume 40 (ebsSnapRate two)) /\
   PrimFloat.mul (float64_of_int64 40) (ebsSnapRate two) = 2%float).
Proof. vm_compute. repeat split. Qed.

(** C5 at a concrete input: with [MaxPages = 1] and three pages on offer,
    the pager's callback runs twice ([pageNum = 2]) and the snapshots of the
    second page are enriched; with [MaxPages = 0] one page is still read. *)
Theorem snapshot_pages_exceed_maxPages :
  let exp1 := with_cutoffDate (fst (New (input_with_MaxPages (Some 1)))) 100 in
  let exp0 := with_cutoffDate (fst (New (input_with_MaxPages (Some 0)))) 100 in
  let ids (exp : Expedition) :=
    map (fun n => ec2.Snapshot.SnapshotId (Nugget.Snap n)) (Nuggets exp) in
  maxPages exp1 = 1 /\
  (exists exp', readSnapshotPages three_pages exp1 = Done ((None, (2, 2)), exp') /\
                ids exp' = ["snap-1"%string; "snap-2"%string]) /\
  ids (state_after three_pages (input_with_MaxPages (Some 1)))
  = ["snap-1"%string; "snap-2"%string] /\
  maxPages exp0 = 0 /\
  (exists exp', readSnapshotPages three_pages exp0 = Done ((None, (1, 1)), exp') /\
                ids exp' = ["snap-1"%string]).
Proof.
  cbv zeta. split; [reflexivity|]. split.
  { eexists. split; [vm_compute; reflexivity | vm_compute; reflexivity]. }
  split; [vm_compute; reflexivity|]. split; [reflexivity|].
  eexists. split; [vm_compute; reflexivity | vm_compute; reflexivity].
Qed.

Lemma fold_with_ASGs {A : Type} (f : A -> list string) (l : list A) :
  forall snap,
    let r := fold_left (fun snap x => Nugget.with_ASGs snap (f x)) l snap in
    Nugget.ASGs r = match last l with
                    | Some x => f x
                    | None => Nugget.ASGs snap
                    end /\
    Nugget.LCs r = Nugget.LCs snap /\ Nugget.LTs r = Nugget.LTs snap.
Proof.
  induction l as [|x l IH]; intros snap; [now cbn|].
  cbn [fold_left]. specialize (IH (Nugget.with_ASGs snap (f x))).
  cbv zeta in *. destruct IH as (IH1 & IH2 & IH3).
  rewrite IH1, IH2, IH3. destruct l as [|y l]; [cbn; auto|].
  change (last (x :: y :: l)) with (last (y :: l)).
  destruct (last (y :: l)) eqn:E; [cbn; auto|].
  apply last_None in E. discriminate.
Qed.


(** C7 at a concrete input: [snap-1] matches the launch configurations
    [lc-1] and [lc-2]; [asg-1] runs [lc-1] and nothing runs [lc-2]. The
    search for [lc-2], processed last, replaces the result for [lc-1]: the
    record ends with no autoscaling group and its snapshot, image and both
    launch configurations enter the deletion plan. *)
Theorem later_match_replaces_autoscaling_groups :
  let exp' := state_after two_launch_configs default_input in
  let asgs := fst (describeASGs two_launch_configs) in
  correlate (fst (describeLaunchConfigurations two_launch_configs)) [] asgs "ami-1"
    (Nugget.new (snapshot "snap-1" "vol-9" 5 8))
  = Done
      (Nugget.with_LCs
         (Nugget.with_AMIIDs (Nugget.new (snapshot "snap-1" "vol-9" 5 8))
            ["ami-1"%string])
         ["lc-1"%string; "lc-2"%string]) /\
  Start two_launch_configs (fst (New default_input)) = Done (None, exp') /\
  map Nugget.LCs (Nuggets exp') = [["lc-1"%string; "lc-2"%string]] /\
  lcInASGs "lc-1" asgs = (true, ["asg-1"%string]) /\
  lcInASGs "lc-2" asgs = (false, []) /\
  map Nugget.ASGs (Nuggets exp') = [[]] /\
  SnapToDelete exp' = ["snap-1"%string] /\
  LcsToDelete exp' = ["lc-1"%string; "lc-2"%string] /\
  AmiToDelete exp' = ["ami-1"%string].
Proof. vm_compute. repeat split. Qed.

(** ** The theorems at concrete inputs *)

(** The run on the lone snapshot completes, and its plan has no repeated
    snapshot id. *)
Lemma deletion_plan_snapshots_lone :
  Start lone_snapshot (fst (New default_input))
  = Done (None, state_after lone_snapshot default_input) /\
  NoDup (SnapToDelete (state_after lone_snapshot default_input)).
Proof.
  assert (H : Start lone_snapshot (fst (New default_input))
              = Done (None, state_after lone_snapshot default_input))
    by (vm_compute; reflexivity).
  split; [exact H|].
  exact (proj1 (proj2 (deletion_plan_snapshots lone_snapshot default_input _ H))).
Defined.

(** Two records of one volume are grouped into bars with distinct keys. *)
Lemma addBars_partitions_two_records :
  Bars disagreeing_members = [] /\
  exists exp',
    addBars disagreeing_members = Done (tt, exp') /\
    concat (map Bar.Nuggets (Bars exp')) ≡ₚ pointers (Nuggets disagreeing_members).
Proof.
  split; [reflexivity|].
  destruct (addBars_partitions_records disagreeing_members eq_refl)
    as (exp' & Hrun & _ & Hperm & _).
  exists exp'. split; [exact Hrun | exact Hperm].
Defined.

(** The bar of the swapped pair has a first member whose flag it carries. *)
Lemma bar_HasVol_is_first_member_swapped :
  Bars disagreeing_members_swapped = [] /\
  exists exp',
    addBars disagreeing_members_swapped = Done (tt, exp') /\
    forall j b, Bars exp' !! j = Some b ->
      Bar.HasVol b = true -> spec_groupHasVolume exp' b = true.
Proof.
  split; [reflexivity|].
  destruct (bar_HasVol_is_first_member disagreeing_members_swapped eq_refl)
    as (exp' & Hrun & Hbars).
  exists exp'. split; [exact Hrun|].
  intros j b Hj. exact (proj2 (Hbars j b Hj)).
Defined.

(** Five identifiers in batches of two. *)
Lemma makeBatches_five_by_two :
  1 <= 2 /\
  len ["a"; "b"; "c"; "d"; "e"]%string <= max_int /\
  exists batches,
    makeBatchesStringPointer ["a"; "b"; "c"; "d"; "e"]%string 2 = Done batches /\
    len batches = ceil_div 5 2 /\
    concat batches = ["a"; "b"; "c"; "d"; "e"]%string.
Proof.
  assert (H1 : 1 <= 2) by lia.
  assert (H2 : len ["a"; "b"; "c"; "d"; "e"]%string <= max_int)
    by (vm_compute; discriminate).
  split; [exact H1|]. split; [exact H2|].
  destruct (makeBatches_partition ["a"; "b"; "c"; "d"; "e"]%string 2 H1 H2)
    as (batches & Hrun & Hlen & _ & _ & Hcat).
  exists batches. split; [exact Hrun|]. split; [exact Hlen | exact Hcat].
Defined.

(** * Further properties of the code *)

(** ** Searches *)

(** X1: [containsString] (and its pointer variant, which compares the
    pointed-to strings) answers true exactly when the string occurs in the
    slice; on the empty slice it answers false. *)
Theorem containsString_reflects_membership (strSlice : list string) (searchStr : string) :
  (containsString strSlice searchStr = true <-> In searchStr strSlice) /\
  (containsStringPointer strSlice searchStr = true <-> In searchStr strSlice) /\
  containsString [] searchStr = false.
Proof.
  split; [apply containsString_In|].
  split; [apply containsString_In | reflexivity].
Qed.

Lemma lcInASGs_loop (lcName : string) (allAsgs : list autoscaling.Group.t) :
  forall inASGs asgNames,
    fold_left
      (fun '(inASGs, asgNames) asg =>
         match autoscaling.Group.LaunchConfigurationName asg with
         | Some asgLcName =>
             if String.eqb asgLcName lcName
             then (true, asgNames ++ [autoscaling.Group.AutoScalingGroupName asg])
             else (inASGs, asgNames)
         | None => (inASGs, asgNames)
         end)
      allAsgs (inASGs, asgNames)
    = (inASGs || existsb (runsLaunchConfiguration lcName) allAsgs,
       asgNames ++ map autoscaling.Group.AutoScalingGroupName
                     (List.filter (runsLaunchConfiguration lcName) allAsgs)).
Proof.
  induction allAsgs as [|asg rest IH]; intros inASGs asgNames; cbn [fold_left].
  - cbn. now rewrite orb_false_r, app_nil_r.
  - cbn [existsb List.filter]. unfold runsLaunchConfiguration at 1 3.
    destruct (autoscaling.Group.LaunchConfigurationName asg) as [n|].
    + destruct (String.eqb n lcName); rewrite IH; cbn [orb map].
      * now rewrite orb_true_r, <- app_assoc.
      * reflexivity.
    + rewrite IH. reflexivity.
Qed.

Lemma ltInASGs_loop (ltName : string) (allAsgs : list autoscaling.Group.t) :
  forall inASGs asgNames,
    fold_left
      (fun '(inASGs, asgNames) asg =>
         match autoscaling.Group.LaunchTemplate asg with
         | Some spec =>
             match autoscaling.LaunchTemplateSpecification.LaunchTemplateName spec with
             | Some asgLtName =>
                 if String.eqb asgLtName ltName
                 then (true, asgNames ++ [autoscaling.Group.AutoScalingGroupName asg])
                 else (inASGs, asgNames)
             | None => (inASGs, asgNames)
             end
         | None => (inASGs, asgNames)
         end)
      allAsgs (inASGs, asgNames)
    = (inASGs || existsb (runsLaunchTemplate ltName) allAsgs,
       asgNames ++ map autoscaling.Group.AutoScalingGroupName
                     (List.filter (runsLaunchTemplate ltName) allAsgs)).
Proof.
  induction allAsgs as [|asg rest IH]; intros inASGs asgNames; cbn [fold_left].
  - cbn. now rewrite orb_false_r, app_nil_r.
  - cbn [existsb List.filter]. unfold runsLaunchTemplate at 1 3.
    destruct (autoscaling.Group.LaunchTemplate asg) as [spec|]; [|now rewrite IH].
    destruct (autoscaling.LaunchTemplateSpecification.LaunchTemplateName spec) as [n|];
      [|now rewrite IH].
    destruct (String.eqb n ltName); rewrite IH; cbn [orb map].
    + now rewrite orb_true_r, <- app_assoc.
    + reflexivity.
Qed.

Lemma existsb_filter_nil {A : Type} (p : A -> bool) (l : list A) :
  existsb p l = true <-> List.filter p l <> [].
Proof.
  induction l as [|x l IH]; simpl.
  - split; [discriminate | congruence].
  - destruct (p x); simpl; [split; [discriminate | reflexivity] | exact IH].
Qed.

(** X2: [lcInASGs] returns the names of exactly the autoscaling groups
    whose launch configuration name is set and equal to [lcName], in the
    order of the groups; its flag is true exactly when that list is not
    empty. A group without a launch configuration name never matches. *)
Theorem lcInASGs_names_and_flag (lcName : string) (allAsgs : list autoscaling.Group.t) :
  snd (lcInASGs lcName allAsgs)
  = map autoscaling.Group.AutoScalingGroupName
      (List.filter (runsLaunchConfiguration lcName) allAsgs) /\
  (fst (lcInASGs lcName allAsgs) = true <-> snd (lcInASGs lcName allAsgs) <> []) /\
  (forall name,
     In name (snd (lcInASGs lcName allAsgs)) <->
     exists asg, In asg allAsgs /\
                 autoscaling.Group.AutoScalingGroupName asg = name /\
                 autoscaling.Group.LaunchConfigurationName asg = Some lcName).
Proof.
  unfold lcInASGs. rewrite lcInASGs_loop. cbn [fst snd orb app].
  split; [reflexivity|]. split.
  - rewrite existsb_filter_nil. split; intros H Hnil; apply H.
    + now apply map_eq_nil in Hnil.
    + now rewrite Hnil.
  - intros name. rewrite in_map_iff. split.
    + intros (asg & Hname & Hin). apply filter_In in Hin as [Hin Hp].
      exists asg. split; [exact Hin|]. split; [exact Hname|].
      unfold runsLaunchConfiguration in Hp.
      destruct (autoscaling.Group.LaunchConfigurationName asg) as [n|]; [|discriminate].
      apply String.eqb_eq in Hp. now subst.
    + intros (asg & Hin & Hname & Hlc). exists asg. split; [exact Hname|].
      apply filter_In. split; [exact Hin|].
      unfold runsLaunchConfiguration. rewrite Hlc. apply String.eqb_refl.
Qed.

(** X3: [ltInASGs] returns the names of exactly the autoscaling groups that
    have a launch template whose name is set and equal to [ltName], in the
    order of the groups; its flag is true exactly when that list is not
    empty. *)
Theorem ltInASGs_names_and_flag (ltName : string) (allAsgs : list autoscaling.Group.t) :
  snd (ltInASGs ltName allAsgs)
  = map autoscaling.Group.AutoScalingGroupName
      (List.filter (runsLaunchTemplate ltName) allAsgs) /\
  (fst (ltInASGs ltName allAsgs) = true <-> snd (ltInASGs ltName allAsgs) <> []) /\
  (forall name,
     In name (snd (ltInASGs ltName allAsgs)) <->
     exists asg spec,
       In asg allAsgs /\
       autoscaling.Group.AutoScalingGroupName asg = name /\
       autoscaling.Group.LaunchTemplate asg = Some spec /\
       autoscaling.LaunchTemplateSpecification.LaunchTemplateName spec = Some ltName).
Proof.
  unfold ltInASGs. rewrite ltInASGs_loop. cbn [fst snd orb app].
  split; [reflexivity|]. split.
  - rewrite existsb_filter_nil. split; intros H Hnil; apply H.
    + now apply map_eq_nil in Hnil.
    + now rewrite Hnil.
  - intros name. rewrite in_map_iff. split.
    + intros (asg & Hname & Hin). apply filter_In in Hin as [Hin Hp].
      unfold runsLaunchTemplate in Hp.
      destruct (autoscaling.Group.LaunchTemplate asg) as [spec|] eqn:Hspec;
        [|discriminate].
      destruct (autoscaling.LaunchTemplateSpecification.LaunchTemplateName spec)
        as [n|] eqn:Hn; [|discriminate].
      apply String.eqb_eq in Hp. subst n.
      exists asg, spec. auto.
    + intros (asg & spec & Hin & Hname & Hspec & Hn). exists asg.
      split; [exact Hname|]. apply filter_In. split; [exact Hin|].
      unfold runsLaunchTemplate. rewrite Hspec, Hn. apply String.eqb_refl.
Qed.

Lemma lcs_inner_loop (snapshotId name : string)
      (bdms : list autoscaling.BlockDeviceMapping.t) :
  forall lcNames,
    fold_left
      (fun lcNames bdm =>
         match autoscaling.BlockDeviceMapping.Ebs bdm with
         | Some ebs =>
             match autoscaling.Ebs.SnapshotId ebs with
             | Some bdmSnap =>
                 if String.eqb bdmSnap snapshotId then lcNames ++ [name] else lcNames
             | None => lcNames
             end
         | None => lcNames
         end)
      bdms lcNames
    = lcNames ++ map (fun _ => name) (List.filter (lcMapsSnapshot snapshotId) bdms).
Proof.
  induction bdms as [|bdm rest IH]; intros lcNames; cbn [fold_left List.filter].
  - cbn. now rewrite app_nil_r.
  - rewrite IH. unfold lcMapsSnapshot at 2.
    destruct (autoscaling.BlockDeviceMapping.Ebs bdm) as [ebs|]; [|reflexivity].
    destruct (autoscaling.Ebs.SnapshotId ebs) as [s|]; [|reflexivity].
    destruct (String.eqb s snapshotId); [|reflexivity].
    cbn [map]. now rewrite <- app_assoc.
Qed.

Lemma lts_inner_loop (snapshotId name : string)
      (bdms : list ec2.LaunchTemplateBlockDeviceMapping.t) :
  forall ltNames,
    rangeO
      (fun ltNames bdm =>
         match ec2.LaunchTemplateBlockDeviceMapping.Ebs bdm with
         | None => Panic nil_deref
         | Some ebs =>
             match ec2.LaunchTemplateEbsBlockDevice.SnapshotId ebs with
             | Some bdmSnap =>
                 if String.eqb bdmSnap snapshotId
                 then Done (ltNames ++ [name]) else Done ltNames
             | None => Done ltNames
             end
         end)
      bdms ltNames
    = if forallb
           (fun bdm =>
              match ec2.LaunchTemplateBlockDeviceMapping.Ebs bdm with
              | Some _ => true
              | None => false
              end) bdms
      then Done (ltNames ++
                 map (fun _ => name) (List.filter (ltMapsSnapshot snapshotId) bdms))
      else Panic nil_deref.
Proof.
  induction bdms as [|bdm rest IH]; intros ltNames;
    cbn [rangeO forallb List.filter].
  - cbn. now rewrite app_nil_r.
  - assert (Hm : ltMapsSnapshot snapshotId bdm =
                 match ec2.LaunchTemplateBlockDeviceMapping.Ebs bdm with
                 | Some ebs =>
                     match ec2.LaunchTemplateEbsBlockDevice.SnapshotId ebs with
                     | Some bdmSnap => String.eqb bdmSnap snapshotId
                     | None => false
                     end
                 | None => false
                 end) by reflexivity.
    rewrite Hm. clear Hm.
    destruct (ec2.LaunchTemplateBlockDeviceMapping.Ebs bdm) as [ebs|];
      [|reflexivity].
    destruct (ec2.LaunchTemplateEbsBlockDevice.SnapshotId ebs) as [s|];
      cbn [andb]; [|apply IH].
    destruct (String.eqb s snapshotId); cbn [andb]; [|apply IH].
    rewrite IH. cbn [map]. now rewrite <- app_assoc.
Qed.

Lemma lcsWithSnapImage_closed (lcs : list autoscaling.LaunchConfiguration.t)
      (snapshotId imageId : string) :
  lcsWithSnapImage lcs snapshotId imageId =
  flat_map
    (fun lc =>
       let name := autoscaling.LaunchConfiguration.LaunchConfigurationName lc in
       (if String.eqb (autoscaling.LaunchConfiguration.ImageId lc) imageId
        then [name] else []) ++
       map (fun _ => name)
         (List.filter (lcMapsSnapshot snapshotId)
            (autoscaling.LaunchConfiguration.BlockDeviceMappings lc)))
    lcs.
Proof.
  unfold lcsWithSnapImage.
  set (outer := fun (lcNames : list string) (lc : autoscaling.LaunchConfiguration.t) => _).
  set (sel := fun lc : autoscaling.LaunchConfiguration.t => _).
  assert (Hloop : forall acc, fold_left outer lcs acc = acc ++ flat_map sel lcs).
  { induction lcs as [|lc rest IH]; intros acc; cbn [fold_left flat_map].
    - now rewrite app_nil_r.
    - rewrite IH. unfold outer at 1, sel at 2. cbv beta zeta.
      rewrite lcs_inner_loop.
      destruct (String.eqb _ imageId); now rewrite <- ?app_assoc. }
  apply Hloop.
Qed.

Lemma ltsWithSnapImage_closed (lts : list ec2.LaunchTemplateVersion.t)
      (snapshotId imageId : string) :
  ltsWithSnapImage lts snapshotId imageId =
  if forallb ltComplete lts
  then Done (ltNamesFor lts snapshotId imageId)
  else Panic nil_deref.
Proof.
  unfold ltsWithSnapImage, ltNamesFor.
  set (outer := fun (ltNames : list string) (lt : ec2.LaunchTemplateVersion.t) => _).
  set (sel := fun lt : ec2.LaunchTemplateVersion.t => _).
  assert (Hloop : forall acc,
            rangeO outer lts acc =
            if forallb ltComplete lts then Done (acc ++ flat_map sel lts)
            else Panic nil_deref).
  { induction lts as [|lt rest IH]; intros acc; cbn [rangeO flat_map forallb].
    - now rewrite app_nil_r.
    - unfold outer at 1, ltComplete at 1. cbv beta zeta.
      destruct (ec2.ResponseLaunchTemplateData.ImageId
                  (ec2.LaunchTemplateVersion.LaunchTemplateData lt))
        as [ltImageId|] eqn:Himg; [|reflexivity].
      rewrite lts_inner_loop.
      destruct (forallb _ (ec2.ResponseLaunchTemplateData.BlockDeviceMappings _));
        [|reflexivity].
      cbn [andb]. rewrite IH.
      destruct (forallb ltComplete rest); [|reflexivity].
      subst sel. cbv beta zeta. rewrite Himg.
      destruct (String.eqb ltImageId imageId); now rewrite <- ?app_assoc. }
  apply Hloop.
Qed.

(** X4: [lcsWithSnapImage] lists a launch configuration's name once if its
    image is [imageId] and once more for every block-device mapping backed
    by [snapshotId], configurations in their order; so a name is in the
    result exactly when some configuration of that name boots the image or
    maps the snapshot. Either match suffices, and a configuration matching
    both ways is listed more than once. *)
Theorem lcsWithSnapImage_matches (lcs : list autoscaling.LaunchConfiguration.t)
    (snapshotId imageId : string) :
  lcsWithSnapImage lcs snapshotId imageId =
  flat_map
    (fun lc =>
       let name := autoscaling.LaunchConfiguration.LaunchConfigurationName lc in
       (if String.eqb (autoscaling.LaunchConfiguration.ImageId lc) imageId
        then [name] else []) ++
       map (fun _ => name)
         (List.filter (lcMapsSnapshot snapshotId)
            (autoscaling.LaunchConfiguration.BlockDeviceMappings lc)))
    lcs /\
  (forall name,
     In name (lcsWithSnapImage lcs snapshotId imageId) <->
     exists lc,
       In lc lcs /\
       autoscaling.LaunchConfiguration.LaunchConfigurationName lc = name /\
       (autoscaling.LaunchConfiguration.ImageId lc = imageId \/
        exists bdm ebs,
          In bdm (autoscaling.LaunchConfiguration.BlockDeviceMappings lc) /\
          autoscaling.BlockDeviceMapping.Ebs bdm = Some ebs /\
          autoscaling.Ebs.SnapshotId ebs = Some snapshotId)).
Proof.
  split; [apply lcsWithSnapImage_closed|].
  intros name. rewrite lcsWithSnapImage_closed, in_flat_map. cbv zeta. split.
  - intros (lc & Hlc & Hin). exists lc. split; [exact Hlc|].
    apply in_app_or in Hin as [Hin|Hin].
    + destruct (String.eqb_spec (autoscaling.LaunchConfiguration.ImageId lc) imageId);
        [|inversion Hin].
      destruct Hin as [<-|[]]. auto.
    + apply in_map_iff in Hin as (bdm & <- & Hbdm).
      apply filter_In in Hbdm as [Hbdm Hp]. split; [reflexivity|]. right.
      unfold lcMapsSnapshot in Hp.
      destruct (autoscaling.BlockDeviceMapping.Ebs bdm) as [ebs|] eqn:He; [|discriminate].
      destruct (autoscaling.Ebs.SnapshotId ebs) as [s|] eqn:Hs; [|discriminate].
      apply String.eqb_eq in Hp. subst s. exists bdm, ebs. auto.
  - intros (lc & Hlc & <- & Hmatch). exists lc. split; [exact Hlc|].
    apply in_or_app. destruct Hmatch as [Himg|(bdm & ebs & Hbdm & He & Hs)].
    + left. rewrite Himg, String.eqb_refl. now left.
    + right. apply in_map_iff. exists bdm. split; [reflexivity|].
      apply filter_In. split; [exact Hbdm|].
      unfold lcMapsSnapshot. rewrite He, Hs. apply String.eqb_refl.
Qed.

(** X5: [ltsWithSnapImage] reads the image id of every template version
    and the [Ebs] part of every block-device mapping without a nil check.
    When every version names an image and every mapping has an [Ebs] part,
    it lists a template's name once if its image is [imageId] and once more
    for every mapping backed by [snapshotId], templates in their order; a
    name is listed exactly when some template of that name boots the image
    or maps the snapshot. When some version lacks the image id or some
    mapping lacks [Ebs], it panics with a nil dereference, whatever is
    searched for. *)
Theorem ltsWithSnapImage_matches (lts : list ec2.LaunchTemplateVersion.t)
    (snapshotId imageId : string) :
  (forallb ltComplete lts = true ->
   ltsWithSnapImage lts snapshotId imageId =
   Done
     (flat_map
        (fun lt =>
           let name := ec2.LaunchTemplateVersion.LaunchTemplateName lt in
           let data := ec2.LaunchTemplateVersion.LaunchTemplateData lt in
           match ec2.ResponseLaunchTemplateData.ImageId data with
           | Some ltImageId => if String.eqb ltImageId imageId then [name] else []
           | None => []
           end ++
           map (fun _ => name)
             (List.filter (ltMapsSnapshot snapshotId)
                (ec2.ResponseLaunchTemplateData.BlockDeviceMappings data)))
        lts) /\
   forall name,
     (exists names, ltsWithSnapImage lts snapshotId imageId = Done names /\
                    In name names) <->
     exists lt,
       In lt lts /\
       ec2.LaunchTemplateVersion.LaunchTemplateName lt = name /\
       (ec2.ResponseLaunchTemplateData.ImageId
          (ec2.LaunchTemplateVersion.LaunchTemplateData lt) = Some imageId \/
        exists bdm ebs,
          In bdm (ec2.ResponseLaunchTemplateData.BlockDeviceMappings
                    (ec2.LaunchTemplateVersion.LaunchTemplateData lt)) /\
          ec2.LaunchTemplateBlockDeviceMapping.Ebs bdm = Some ebs /\
          ec2.LaunchTemplateEbsBlockDevice.SnapshotId ebs = Some snapshotId)) /\
  (forallb ltComplete lts = false ->
   ltsWithSnapImage lts snapshotId imageId = Panic nil_deref) /\
  (forall lt,
     ltComplete lt = true <->
     is_Some (ec2.ResponseLaunchTemplateData.ImageId
                (ec2.LaunchTemplateVersion.LaunchTemplateData lt)) /\
     forall bdm,
       In bdm (ec2.ResponseLaunchTemplateData.BlockDeviceMappings
                 (ec2.LaunchTemplateVersion.LaunchTemplateData lt)) ->
       is_Some (ec2.LaunchTemplateBlockDeviceMapping.Ebs bdm)).
Proof.
  rewrite ltsWithSnapImage_closed. split; [|split].
  - intros Hok. rewrite Hok. split; [reflexivity|].
    intros name. split.
    + intros (names & Hnames & Hin). injection Hnames as <-.
      unfold ltNamesFor in Hin. apply in_flat_map in Hin as (lt & Hlt & Hin).
      cbv zeta in Hin. exists lt. split; [exact Hlt|].
      apply in_app_or in Hin as [Hin|Hin].
      * destruct (ec2.ResponseLaunchTemplateData.ImageId
                    (ec2.LaunchTemplateVersion.LaunchTemplateData lt))
          as [ltImageId|] eqn:Himg; [|inversion Hin].
        destruct (String.eqb_spec ltImageId imageId) as [Heq|]; [|inversion Hin].
        subst ltImageId. destruct Hin as [<-|[]]. auto.
      * apply in_map_iff in Hin as (bdm & <- & Hbdm).
        apply filter_In in Hbdm as [Hbdm Hp]. split; [reflexivity|]. right.
        unfold ltMapsSnapshot in Hp.
        destruct (ec2.LaunchTemplateBlockDeviceMapping.Ebs bdm) as [ebs|] eqn:He;
          [|discriminate].
        destruct (ec2.LaunchTemplateEbsBlockDevice.SnapshotId ebs) as [s|] eqn:Hs;
          [|discriminate].
        apply String.eqb_eq in Hp. subst s. exists bdm, ebs. auto.
    + intros (lt & Hlt & <- & Hmatch). eexists. split; [reflexivity|].
      unfold ltNamesFor. apply in_flat_map. exists lt. split; [exact Hlt|].
      cbv zeta. apply in_or_app.
      destruct Hmatch as [Himg|(bdm & ebs & Hbdm & He & Hs)].
      * left. rewrite Himg, String.eqb_refl. now left.
      * right. apply in_map_iff. exists bdm. split; [reflexivity|].
        apply filter_In. split; [exact Hbdm|].
        unfold ltMapsSnapshot. rewrite He, Hs. apply String.eqb_refl.
  - intros Hbad. now rewrite Hbad.
  - intros lt. unfold ltComplete. cbv zeta.
    destruct (ec2.ResponseLaunchTemplateData.ImageId _) as [ltImageId|].
    + rewrite forallb_forall. split.
      * intros Hall. split; [eauto|]. intros bdm Hbdm. specialize (Hall bdm Hbdm).
        destruct (ec2.LaunchTemplateBlockDeviceMapping.Ebs bdm); [eauto|discriminate].
      * intros [_ Hall] bdm Hbdm. destruct (Hall bdm Hbdm) as [ebs ->]. reflexivity.
    + split; [discriminate|]. intros [[x Hx] _]. discriminate.
Qed.

(** A template without image makes the search panic. *)
Lemma ltsWithSnapImage_template_without_image :
  ltsWithSnapImage [template_without_image] "snap-1" "ami-1" = Panic nil_deref.
Proof.
  apply (proj1 (proj2 (ltsWithSnapImage_matches [template_without_image]
                         "snap-1" "ami-1"))).
  reflexivity.
Defined.

(** X6: [imageSharedTo] returns, for the launch permissions the provider
    reports, each permission's group followed by its user id, in order;
    an image shared with the group [all] therefore yields the token [all].
    When the provider call fails, it returns no account and the error. *)
Theorem imageSharedTo_accounts (aws : Provider) (ami : string) :
  (forall perms,
     DescribeImageAttribute aws "launchPermission" ami = inr perms ->
     imageSharedTo aws ami = (flat_map permissionAccounts perms, None) /\
     forall acct,
       In acct (fst (imageSharedTo aws ami)) <->
       exists perm, In perm perms /\
                    (ec2.LaunchPermission.Group perm = Some acct \/
                     ec2.LaunchPermission.UserId perm = Some acct)) /\
  (forall err,
     DescribeImageAttribute aws "launchPermission" ami = inl err ->
     imageSharedTo aws ami = ([], Some err)).
Proof.
  split.
  - intros perms H. unfold imageSharedTo. rewrite H.
    assert (Hloop : forall acc,
      fold_left
        (fun accts perm =>
           let accts :=
             match ec2.LaunchPermission.Group perm with
             | Some g => accts ++ [g]
             | None => accts
             end in
           match ec2.LaunchPermission.UserId perm with
           | Some u => accts ++ [u]
           | None => accts
           end) perms acc
      = acc ++ flat_map permissionAccounts perms).
    { clear H. induction perms as [|perm rest IH]; intros acc; cbn [fold_left flat_map].
      - now rewrite app_nil_r.
      - rewrite IH. cbv zeta. unfold permissionAccounts at 2.
        destruct (ec2.LaunchPermission.Group perm), (ec2.LaunchPermission.UserId perm);
          cbn [app]; now rewrite <- ?app_assoc. }
    rewrite Hloop. cbn [app fst]. split; [reflexivity|].
    intros acct. rewrite in_flat_map. split.
    + intros (perm & Hperm & Hin). exists perm. split; [exact Hperm|].
      unfold permissionAccounts in Hin. apply in_app_or in Hin as [Hin|Hin].
      * destruct (ec2.LaunchPermission.Group perm); [|inversion Hin].
        destruct Hin as [->|[]]. now left.
      * destruct (ec2.LaunchPermission.UserId perm); [|inversion Hin].
        destruct Hin as [->|[]]. now right.
    + intros (perm & Hperm & Hor). exists perm. split; [exact Hperm|].
      unfold permissionAccounts. apply in_or_app.
      destruct Hor as [-> | ->]; [left | right]; now left.
  - intros err H. unfold imageSharedTo. now rewrite H.
Qed.

(** ** Paginated listings *)

Lemma followTokens_delivers {A : Type}
      (call : option Token -> Error + (list A * option Token))
      (next : option Token) (pages : list (list A)) (next' : option Token) :
  delivers call next pages next' ->
  forall fuel acc,
    (length pages = fuel \/ ((length pages <= fuel)%nat /\ next' = None)) ->
    followTokens call fuel next acc = (acc ++ concat pages, None).
Proof.
  induction 1 as [next|tok items next rest next' Hcall Hrest IH]; intros fuel acc Hfuel.
  - cbn [concat]. rewrite app_nil_r.
    destruct Hfuel as [<-|[_ ->]]; [reflexivity|]. now destruct fuel.
  - destruct fuel as [|fuel]; [cbn [length] in Hfuel; lia|].
    cbn [followTokens]. rewrite Hcall.
    assert (Hfuel' : length rest = fuel \/ ((length rest <= fuel)%nat /\ next' = None)).
    { cbn [length] in Hfuel. destruct Hfuel as [H|[H ->]]; [left | right; split]; auto; lia. }
    rewrite (IH fuel _ Hfuel').
    cbn [concat]. now rewrite app_assoc.
Qed.

Lemma followTokens_fails {A : Type}
      (call : option Token -> Error + (list A * option Token))
      (next : option Token) (pages : list (list A)) (next' : option Token) :
  delivers call next pages next' ->
  forall tok err fuel acc,
    next' = Some tok -> call (Some tok) = inl err ->
    (length pages < fuel)%nat ->
    followTokens call fuel next acc = (acc ++ concat pages, Some err).
Proof.
  induction 1 as [next|tok0 items next rest next' Hcall Hrest IH];
    intros tok err fuel acc Hnext Herr Hfuel.
  - subst next. destruct fuel as [|fuel]; [cbn [length] in Hfuel; lia|].
    cbn [followTokens concat]. now rewrite Herr, app_nil_r.
  - destruct fuel as [|fuel]; [cbn [length] in Hfuel; lia|].
    cbn [followTokens]. rewrite Hcall.
    rewrite (IH tok err) by (try assumption; cbn [length] in Hfuel; lia).
    cbn [concat]. now rewrite app_assoc.
Qed.

(** X7: each of the three paginated listings (launch configurations, latest
    launch template versions, autoscaling groups) returns the first page
    followed by the pages its tokens lead to, in order and without error,
    when the tokens end within 48 further pages; and when 48 further pages
    are delivered it returns exactly those 49 pages, still without error,
    whatever token is left: later pages are dropped silently. Follow-up
    requests for launch templates carry the token only, not the version
    filter. *)
Theorem paged_listings_stop_after_49_pages (aws : Provider) :
  (forall first next pages next',
     DescribeLaunchConfigurations aws None = inr (first, next) ->
     delivers (DescribeLaunchConfigurations aws) next pages next' ->
     (length pages = 48%nat \/ ((length pages <= 48)%nat /\ next' = None)) ->
     describeLaunchConfigurations aws = (first ++ concat pages, None)) /\
  (forall first next pages next',
     DescribeLaunchTemplateVersions aws ["$Latest"%string] None = inr (first, next) ->
     delivers (DescribeLaunchTemplateVersions aws []) next pages next' ->
     (length pages = 48%nat \/ ((length pages <= 48)%nat /\ next' = None)) ->
     describeLaunchTemplates aws = (first ++ concat pages, None)) /\
  (forall first next pages next',
     DescribeAutoScalingGroups aws None = inr (first, next) ->
     delivers (DescribeAutoScalingGroups aws) next pages next' ->
     (length pages = 48%nat \/ ((length pages <= 48)%nat /\ next' = None)) ->
     describeASGs aws = (first ++ concat pages, None)).
Proof.
  split; [|split]; intros first next pages next' Hfirst Hpages Hlen.
  - unfold describeLaunchConfigurations. rewrite Hfirst.
    now apply followTokens_delivers with next'.
  - unfold describeLaunchTemplates. rewrite Hfirst.
    now apply followTokens_delivers with next'.
  - unfold describeASGs. rewrite Hfirst.
    now apply followTokens_delivers with next'.
Qed.

(** The listing of autoscaling groups in two pages returns both pages. *)
Lemma paged_listing_two_pages :
  describeASGs (with_DescribeAutoScalingGroups lone_snapshot two_asg_pages)
  = (match two_asg_pages None with inr (first, _) => first | inl _ => [] end ++
     concat [match two_asg_pages (Some "page-2"%string) with
             | inr (second, _) => second
             | inl _ => []
             end],
     None).
Proof.
  pose proof (proj2 (proj2 (paged_listings_stop_after_49_pages
                              (with_DescribeAutoScalingGroups lone_snapshot two_asg_pages))))
    as H.
  apply (H _ (Some "page-2"%string) _ None).
  - reflexivity.
  - eapply delivers_cons; [reflexivity | apply delivers_nil].
  - right. split; [cbn; lia | reflexivity].
Defined.

(** X8: when a request of a paginated listing fails, the listing returns
    the error together with the items of the pages read before it (none if
    the first request fails). *)
Theorem paged_listings_return_partial_list_on_error (aws : Provider) :
  (forall err,
     DescribeLaunchConfigurations aws None = inl err ->
     describeLaunchConfigurations aws = ([], Some err)) /\
  (forall first next pages tok err,
     DescribeLaunchConfigurations aws None = inr (first, next) ->
     delivers (DescribeLaunchConfigurations aws) next pages (Some tok) ->
     DescribeLaunchConfigurations aws (Some tok) = inl err ->
     (length pages < 48)%nat ->
     describeLaunchConfigurations aws = (first ++ concat pages, Some err)) /\
  (forall err,
     DescribeLaunchTemplateVersions aws ["$Latest"%string] None = inl err ->
     describeLaunchTemplates aws = ([], Some err)) /\
  (forall first next pages tok err,
     DescribeLaunchTemplateVersions aws ["$Latest"%string] None = inr (first, next) ->
     delivers (DescribeLaunchTemplateVersions aws []) next pages (Some tok) ->
     DescribeLaunchTemplateVersions aws [] (Some tok) = inl err ->
     (length pages < 48)%nat ->
     describeLaunchTemplates aws = (first ++ concat pages, Some err)) /\
  (forall err,
     DescribeAutoScalingGroups aws None = inl err ->
     describeASGs aws = ([], Some err)) /\
  (forall first next pages tok err,
     DescribeAutoScalingGroups aws None = inr (first, next) ->
     delivers (DescribeAutoScalingGroups aws) next pages (Some tok) ->
     DescribeAutoScalingGroups aws (Some tok) = inl err ->
     (length pages < 48)%nat ->
     describeASGs aws = (first ++ concat pages, Some err)).
Proof.
  split; [|split; [|split; [|split; [|split]]]].
  - intros err H. unfold describeLaunchConfigurations. now rewrite H.
  - intros first next pages tok err Hfirst Hpages Herr Hlen.
    unfold describeLaunchConfigurations. rewrite Hfirst.
    now apply followTokens_fails with (Some tok) tok.
  - intros err H. unfold describeLaunchTemplates. now rewrite H.
  - intros first next pages tok err Hfirst Hpages Herr Hlen.
    unfold describeLaunchTemplates. rewrite Hfirst.
    now apply followTokens_fails with (Some tok) tok.
  - intros err H. unfold describeASGs. now rewrite H.
  - intros first next pages tok err Hfirst Hpages Herr Hlen.
    unfold describeASGs. rewrite Hfirst.
    now apply followTokens_fails with (Some tok) tok.
Qed.

(** The listing whose second page is throttled returns the first page and
    the error. *)
Lemma paged_listing_second_page_fails :
  describeASGs (with_DescribeAutoScalingGroups lone_snapshot failing_asg_pages)
  = (match failing_asg_pages None with inr (first, _) => first | inl _ => [] end ++
     concat [], Some "Throttling"%string).
Proof.
  pose proof (proj2 (proj2 (proj2 (proj2 (proj2
                (paged_listings_return_partial_list_on_error
                   (with_DescribeAutoScalingGroups lone_snapshot failing_asg_pages)))))))
    as H.
  apply (H _ (Some "page-2"%string) [] "page-2"%string "Throttling"%string).
  - reflexivity.
  - apply delivers_nil.
  - reflexivity.
  - cbn. lia.
Defined.

(** ** Batches at the edges *)

(** X9: an empty list gives no batch, for every batch size other than 0;
    and a non-empty list no longer than the batch size gives the list
    itself as the only batch. *)
Theorem makeBatches_small_inputs (strSlice : list string) (batchSize : Z) :
  (batchSize <> 0 -> makeBatchesStringPointer [] batchSize = Done []) /\
  (strSlice <> [] -> len strSlice <= batchSize -> batchSize <= max_int ->
   makeBatchesStringPointer strSlice batchSize = Done [strSlice]).
Proof.
  split.
  - intros HB. unfold makeBatchesStringPointer, go_div, go_mod.
    destruct (Z.eqb_spec batchSize 0) as [?|_]; [contradiction|].
    cbn [len length Z.of_nat]. rewrite Z.quot_0_l, Z.rem_0_l by assumption.
    reflexivity.
  - intros Hne Hle Hmax.
    assert (Hpos : 1 <= len strSlice).
    { destruct strSlice; [contradiction|]. unfold len. cbn [length]. lia. }
    rewrite makeBatches_result by lia. cbv zeta.
    destruct (Z.eq_dec (len strSlice) batchSize) as [Heq|Hneq].
    + rewrite Heq, Z.div_same, Z.mod_same by lia.
      change (Z.to_nat 1) with 1%nat. cbn [seq map app Nat.sub Nat.mul].
      rewrite drop_0. do 2 f_equal. apply take_ge. unfold len in Heq. lia.
    + rewrite Z.div_small, Z.mod_small by lia.
      destruct (Z.ltb_spec 0 (len strSlice)); [|lia].
      change (Z.to_nat 0) with 0%nat. cbn [seq map app Nat.mul]. now rewrite drop_0.
Qed.

(** Three identifiers with the default batch size of 30 form one batch. *)
Lemma makeBatches_three_in_thirty :
  makeBatchesStringPointer ["a"; "b"; "c"]%string 30 = Done [["a"; "b"; "c"]%string].
Proof.
  apply (proj2 (makeBatches_small_inputs ["a"; "b"; "c"]%string 30)).
  - discriminate.
  - vm_compute. discriminate.
  - vm_compute. discriminate.
Defined.

(** ** Enrichment of a page *)

Lemma new_nuggets_loop (page : list ec2.Snapshot.t) :
  forall nuggets inVols,
    fold_left
      (fun '(nuggets, inVols) snap =>
         (nuggets ++ [Nugget.new snap], inVols ++ [ec2.Snapshot.VolumeId snap]))
      page (nuggets, inVols)
    = (nuggets ++ map Nugget.new page, inVols ++ map ec2.Snapshot.VolumeId page).
Proof.
  induction page as [|snap rest IH]; intros nuggets inVols; cbn [fold_left map].
  - now rewrite !app_nil_r.
  - rewrite IH. now rewrite <- !app_assoc.
Qed.

Lemma mark_loop (vols : list ec2.Volume.t) :
  forall (page : list ec2.Snapshot.t) (seen : list ec2.Volume.t),
    fold_left
      (fun nuggets vol =>
         map (fun nug =>
                if String.eqb (ec2.Volume.VolumeId vol)
                              (ec2.Snapshot.VolumeId (Nugget.Snap nug))
                then Nugget.with_HasVol nug true else nug)
             nuggets)
      vols
      (map (fun snap => Nugget.with_HasVol (Nugget.new snap) (volumeAmong seen snap))
           page)
    = map (fun snap =>
             Nugget.with_HasVol (Nugget.new snap) (volumeAmong (seen ++ vols) snap))
          page.
Proof.
  induction vols as [|vol rest IH]; intros page seen; cbn [fold_left].
  - now rewrite app_nil_r.
  - rewrite map_map.
    replace (seen ++ vol :: rest) with ((seen ++ [vol]) ++ rest)
      by now rewrite <- app_assoc.
    rewrite <- IH. f_equal. apply map_ext. intros snap.
    unfold volumeAmong. rewrite existsb_app. cbn [existsb Nugget.Snap Nugget.with_HasVol
      Nugget.new].
    rewrite orb_false_r.
    destruct (String.eqb (ec2.Volume.VolumeId vol) (ec2.Snapshot.VolumeId snap));
      [now rewrite orb_true_r | now rewrite orb_false_r].
Qed.

(** The marking loop of a builder over the volumes [vols] it loaded. *)
Lemma mark_all (vols : list ec2.Volume.t) (page : list ec2.Snapshot.t) :
  fold_left
    (fun nuggets vol =>
       map (fun nug =>
              if String.eqb (ec2.Volume.VolumeId vol)
                            (ec2.Snapshot.VolumeId (Nugget.Snap nug))
              then Nugget.with_HasVol nug true else nug)
           nuggets)
    vols (map Nugget.new page)
  = map (fun snap => Nugget.with_HasVol (Nugget.new snap) (volumeAmong vols snap)) page.
Proof. exact (mark_loop vols page []). Qed.

Lemma go_slice_members {A : Type} (s b : list A) (lo hi : Z) (x : A) :
  go_slice s lo hi = Done b -> In x b -> In x s.
Proof.
  unfold go_slice. destruct (_ && _); [|discriminate].
  intros H Hin. injection H as <-.
  apply list_elem_of_In. apply list_elem_of_In in Hin.
  apply (subseteq_drop (Z.to_nat lo)), (subseteq_take (Z.to_nat (hi - lo))), Hin.
Qed.

(** Whatever the batch size, a batch holds identifiers of the list only. *)
Lemma makeBatches_members (strSlice : list string) (batchSize : Z)
      (batches : list (list string)) :
  makeBatchesStringPointer strSlice batchSize = Done batches ->
  Forall (fun batch => forall x, In x batch -> In x strSlice) batches.
Proof.
  unfold makeBatchesStringPointer, go_div, go_mod.
  destruct (batchSize =? 0); [discriminate|].
  cbn [mbind Outcome_bind].
  assert (Hloop : forall idx acc res,
            Forall (fun batch => forall x, In x batch -> In x strSlice) acc ->
            rangeO
              (fun batches i =>
                 let endIndex := wrap64 (i * batchSize) in
                 let startIndex :=
                   if i =? 1 then 0 else wrap64 (batchSize * wrap64 (i - 1)) in
                 b ← go_slice strSlice startIndex endIndex;
                 Done (batches ++ [b]))
              idx acc = Done res ->
            Forall (fun batch => forall x, In x batch -> In x strSlice) res).
  { induction idx as [|i idx IH]; intros acc res Hacc H; cbn [rangeO] in H.
    - now injection H as <-.
    - cbv zeta in H. unfold mbind at 1, Outcome_bind at 1 in H.
      destruct (go_slice strSlice _ _) as [b|] eqn:Hs; [|discriminate].
      apply IH in H; [exact H|].
      apply Forall_app. split; [exact Hacc|].
      constructor; [|constructor]. intros x. exact (go_slice_members _ _ _ _ _ Hs). }
  destruct (rangeO _ _ _) as [full|] eqn:Hfull; [|discriminate].
  apply Hloop in Hfull; [|constructor].
  destruct (0 <? _).
  - cbv zeta. destruct (go_slice strSlice _ _) as [b|] eqn:Hs; [|discriminate].
    intros H. injection H as <-.
    apply Forall_app. split; [exact Hfull|].
    constructor; [|constructor]. intros x. exact (go_slice_members _ _ _ _ _ Hs).
  - intros H. now injection H as <-.
Qed.

Lemma filtered_before (cutoff : Z) (pages : list (list ec2.Snapshot.t))
      (snap : ec2.Snapshot.t) :
  In snap (filtered cutoff pages) -> ec2.Snapshot.StartTime snap < cutoff.
Proof.
  unfold filtered. intros Hin. apply in_flat_map in Hin as (page & _ & Hin).
  apply filter_In in Hin as [_ Hb]. now apply Z.ltb_lt.
Qed.

Lemma date_filter_loop (cutoff : Z) (page : list ec2.Snapshot.t) :
  forall acc,
    fold_left
      (fun filteredSnapshots snap =>
         if ec2.Snapshot.StartTime snap <? cutoff
         then filteredSnapshots ++ [snap] else filteredSnapshots)
      page acc
    = acc ++ List.filter (startedBefore cutoff) page.
Proof.
  induction page as [|snap rest IH]; intros acc; cbn [fold_left List.filter].
  - now rewrite app_nil_r.
  - rewrite IH. unfold startedBefore at 2.
    destruct (ec2.Snapshot.StartTime snap <? cutoff); [|reflexivity].
    now rewrite <- app_assoc.
Qed.

(** *** The goroutines keep the invariant, however they are scheduled *)

Section IntakeInvariant.

Variable aws : Provider.
Variable sent : ec2.Snapshot.t -> Prop.
Variable V0 : list ec2.Volume.t.
Variable N0 : list Nugget.t.

Lemma safe_appends (r : list ec2.Volume.t) (k : Goroutine) :
  Forall (knownVolume aws sent V0) r -> safe aws sent V0 N0 k ->
  safe aws sent V0 N0
    (rangeG
       (fun vol k =>
          LoadRealVols (fun realVols => StoreRealVols (realVols ++ [vol]) k))
       r k).
Proof.
  intros Hr Hk. induction Hr as [|vol r Hvol _ IH]; cbn [rangeG]; [exact Hk|].
  cbn [safe]. intros v Hv. split; [|exact IH].
  apply Forall_app. split; [exact Hv|]. constructor; [exact Hvol | constructor].
Qed.

Lemma safe_describeVolumes (inVols : list string) :
  (forall id, In id inVols ->
              exists snap, sent snap /\ ec2.Snapshot.VolumeId snap = id) ->
  safe aws sent V0 N0 (describeVolumes aws inVols).
Proof.
  unfold describeVolumes. induction inVols as [|vol rest IH]; intros Hids;
    cbn [rangeG]; [exact I|].
  cbv zeta. apply safe_appends.
  - apply Forall_forall. intros v Hv. right.
    destruct (Hids vol (or_introl eq_refl)) as (snap & Hsent & Hid).
    exists snap. split; [exact Hsent|]. rewrite Hid. now apply list_elem_of_In.
  - apply IH. intros id Hid. apply Hids. now right.
Qed.

Lemma safe_lookups (batches : list (list string)) (k : Goroutine) :
  Forall (fun batch => forall id, In id batch ->
            exists snap, sent snap /\ ec2.Snapshot.VolumeId snap = id) batches ->
  safe aws sent V0 N0 k ->
  safe aws sent V0 N0
    (rangeG (fun batch k => Go (describeVolumes aws batch) k) batches k).
Proof.
  intros Hb Hk. induction Hb as [|batch batches Hbatch _ IH]; cbn [rangeG];
    [exact Hk|].
  cbn [safe]. split; [now apply safe_describeVolumes | exact IH].
Qed.

Lemma safe_buildNuggets (volBatchSize : Z) :
  safe aws sent V0 N0 (buildNuggets aws volBatchSize).
Proof.
  unfold buildNuggets. cbn [safe]. intros page Hpage.
  rewrite (new_nuggets_loop page [] []). cbn [app].
  change (dedupeStringPointer ?l) with (dedupeString l).
  destruct (makeBatchesStringPointer _ _) as [batchVols|msg] eqn:Hb; [|exact I].
  apply safe_lookups.
  - apply makeBatches_members in Hb. eapply Forall_impl; [exact Hb|].
    cbv beta. intros batch Hbatch id Hid.
    apply Hbatch, dedupeString_In, in_map_iff in Hid as (snap & Hv & Hin).
    exists snap. split; [|exact Hv].
    rewrite Forall_forall in Hpage. apply Hpage. now apply list_elem_of_In.
  - cbn [safe]. intros realVols Hvols old (news & -> & Hnews). split; [|exact I].
    rewrite mark_all. eexists. split; [symmetry; apply app_assoc|].
    apply Forall_app. split; [exact Hnews|].
    apply Forall_forall. intros nug Hnug.
    apply list_elem_of_In, in_map_iff in Hnug as (snap & <- & Hin).
    split; [|split].
    + cbn [Nugget.Snap Nugget.with_HasVol Nugget.new].
      rewrite Forall_forall in Hpage. apply Hpage. now apply list_elem_of_In.
    + reflexivity.
    + unfold flaggedForKnownVolume.
      cbn [Nugget.Snap Nugget.HasVol Nugget.with_HasVol Nugget.new].
      unfold volumeAmong. rewrite existsb_exists. intros (vol & Hvol & Hid).
      exists vol. split; [|now apply String.eqb_eq].
      unfold okRealVols in Hvols. rewrite Forall_forall in Hvols.
      apply Hvols. now apply list_elem_of_In.
Qed.

Lemma advance_intact (g k : Goroutine) (started : list Goroutine)
      (exp exp' : Expedition) :
  intact aws sent V0 N0 exp -> safe aws sent V0 N0 g ->
  advance g exp = Done (Continues k started exp') ->
  intact aws sent V0 N0 exp' /\ safe aws sent V0 N0 k /\
  Forall (safe aws sent V0 N0) started /\
  wgq exp' = wgq exp /\ wgv exp' = wgv exp.
Proof.
  intros [HN HV HQ Hq Hv] Hg.
  destruct g; cbn [advance]; intros H; try discriminate.
  - destruct (queue exp) as [|page rest] eqn:Hqueue; [discriminate|].
    injection H as <- <- <-. inversion HQ as [|? ? Hpage Hrest]; subst.
    split; [now split|]. split; [now apply Hg|]. now split.
  - injection H as <- <- <-. destruct Hg as [Hc Hk].
    split; [now split|]. split; [exact Hk|]. split; [|now split].
    constructor; [exact Hc | constructor].
  - destruct (wgv exp) eqn:Hwait; [|discriminate]. injection H as <- <- <-.
    split; [split; try assumption; rewrite Hwait; constructor|].
    split; [exact Hg|]. now split.
  - injection H as <- <- <-.
    split; [now split|]. split; [now apply Hg|]. now split.
  - injection H as <- <- <-. destruct Hg as [Hstore Hk].
    split; [now split|]. split; [exact Hk|]. now split.
  - injection H as <- <- <-.
    split; [now split|]. split; [now apply Hg|]. now split.
  - injection H as <- <- <-. destruct Hg as [Hstore Hk].
    split; [now split|]. split; [exact Hk|]. now split.
Qed.

Lemma step_intact (choice : nat) (exp exp' : Expedition) :
  intact aws sent V0 N0 exp -> step choice exp = Done (tt, exp') ->
  intact aws sent V0 N0 exp'.
Proof.
  intros Hexp. unfold step.
  destruct (choice <? length (wgv exp))%nat.
  - destruct (wgv exp !! choice) as [g|] eqn:Hg; [|now intros H; injection H as <-].
    assert (Hsafe : safe aws sent V0 N0 g)
      by exact (Forall_lookup_1 _ _ _ _ (intact_wgv _ _ _ _ _ Hexp) Hg).
    destruct (advance g exp) as [[| |k started exp1]|] eqn:Hadv; intros H;
      try discriminate; injection H as <-.
    + exact Hexp.
    + destruct Hexp as [HN HV HQ Hq Hv]. split; try assumption.
      cbn [wgv with_wgv]. now apply Forall_delete.
    + destruct (advance_intact _ _ _ _ _ Hexp Hsafe Hadv)
        as ([HN HV HQ Hq Hv] & Hk & Hst & _ & _).
      split; try assumption. cbn [wgv with_wgv].
      apply Forall_app. split; [now apply Forall_insert | exact Hst].
  - destruct (wgq exp !! (choice - length (wgv exp))%nat) as [g|] eqn:Hg;
      [|now intros H; injection H as <-].
    assert (Hsafe : safe aws sent V0 N0 g)
      by exact (Forall_lookup_1 _ _ _ _ (intact_wgq _ _ _ _ _ Hexp) Hg).
    destruct (advance g exp) as [[| |k started exp1]|] eqn:Hadv; intros H;
      try discriminate; injection H as <-.
    + exact Hexp.
    + destruct Hexp as [HN HV HQ Hq Hv]. split; try assumption.
      cbn [wgq with_wgq]. now apply Forall_delete.
    + destruct (advance_intact _ _ _ _ _ Hexp Hsafe Hadv)
        as ([HN HV HQ Hq Hv] & Hk & Hst & _ & _).
      split; try assumption.
      * cbn [wgq with_wgq with_wgv]. now apply Forall_insert.
      * cbn [wgv with_wgq with_wgv]. apply Forall_app. now split.
Qed.

Lemma schedule_intact (choices : list nat) :
  forall exp exp',
    intact aws sent V0 N0 exp -> schedule choices exp = Done (tt, exp') ->
    intact aws sent V0 N0 exp'.
Proof.
  unfold schedule. induction choices as [|c rest IH]; intros exp exp' Hexp H.
  - now injection H as <-.
  - cbn [rangeM] in H. unfold mbind, M_bind in H.
    destruct (step c exp) as [[[] exp1]|] eqn:Hstep; [|discriminate].
    eapply IH; [|exact H]. exact (step_intact _ _ _ Hexp Hstep).
Qed.

Lemma complete_intact (g : Goroutine) :
  forall exp exp',
    intact aws sent V0 N0 exp -> safe aws sent V0 N0 g ->
    complete g exp = Done exp' ->
    intact aws sent V0 N0 exp' /\ wgq exp' = wgq exp /\ wgv exp' = wgv exp.
Proof.
  induction g as [|msg|k IH|child IHc k IHk|k IH|k IH|v k IH|k IH|v k IH];
    intros exp exp' Hexp Hg H; cbn [complete] in H.
  - injection H as <-. now split.
  - discriminate.
  - destruct (queue exp) as [|page rest] eqn:Hqueue; [discriminate|].
    destruct Hexp as [HN HV HQ Hq Hv]. rewrite Hqueue in HQ.
    inversion HQ as [|? ? Hpage Hrest]; subst.
    apply IH in H; [exact H | now split | now apply Hg].
  - destruct Hg as [Hc Hk].
    destruct (complete child exp) as [exp1|] eqn:Hrun; [|discriminate].
    apply IHc in Hrun as (H1 & Hq1 & Hv1); [|exact Hexp|exact Hc].
    apply IHk in H as (H2 & Hq2 & Hv2); [|exact H1|exact Hk].
    split; [exact H2|]. split; congruence.
  - apply IH in H; [exact H | exact Hexp | exact Hg].
  - apply IH in H; [exact H | exact Hexp |].
    apply Hg. exact (intact_realVols _ _ _ _ _ Hexp).
  - destruct Hg as [Hstore Hk]. destruct Hexp as [HN HV HQ Hq Hv].
    apply IH in H; [exact H | now split | exact Hk].
  - apply IH in H; [exact H | exact Hexp |].
    apply Hg. exact (intact_Nuggets _ _ _ _ _ Hexp).
  - destruct Hg as [Hstore Hk]. destruct Hexp as [HN HV HQ Hq Hv].
    apply IH in H; [exact H | now split | exact Hk].
Qed.

Lemma complete_all_intact (gs : list Goroutine) :
  forall exp exp',
    intact aws sent V0 N0 exp -> Forall (safe aws sent V0 N0) gs ->
    rangeO (fun exp g => complete g exp) gs exp = Done exp' ->
    intact aws sent V0 N0 exp' /\ wgq exp' = wgq exp /\ wgv exp' = wgv exp.
Proof.
  induction gs as [|g gs IH]; intros exp exp' Hexp Hgs H; cbn [rangeO] in H.
  - injection H as <-. now split.
  - inversion Hgs as [|? ? Hg Hrest]; subst.
    destruct (complete g exp) as [exp1|] eqn:Hc; [|discriminate].
    apply complete_intact in Hc as (H1 & Hq1 & Hv1); [|exact Hexp|exact Hg].
    apply IH in H as (H2 & Hq2 & Hv2); [|exact H1|exact Hrest].
    split; [exact H2|]. split; congruence.
Qed.

Lemma settle_intact (exp exp' : Expedition) :
  intact aws sent V0 N0 exp -> settle exp = Done (tt, exp') ->
  intact aws sent V0 N0 exp' /\ wgq exp' = [] /\ wgv exp' = [].
Proof.
  intros [HN HV HQ Hq Hv]. unfold settle. intros H.
  destruct (rangeO _ (wgv exp) _) as [exp1|] eqn:H1; [|discriminate].
  apply complete_all_intact in H1 as (I1 & Hq1 & Hv1);
    [| split; try assumption; constructor | exact Hv].
  cbn [wgq wgv with_wgv] in Hq1, Hv1.
  destruct (rangeO _ (wgq exp1) _) as [exp2|] eqn:H2; [|discriminate].
  injection H as <-.
  apply complete_all_intact in H2 as (I2 & Hq2 & Hv2).
  - cbn [wgq wgv with_wgq] in Hq2, Hv2. split; [exact I2|]. split; congruence.
  - destruct I1 as [HN1 HV1 HQ1 Hq1' Hv1']. split; try assumption. constructor.
  - exact (intact_wgq _ _ _ _ _ I1).
Qed.

(** One call of the pager's callback. *)
Lemma snapshotPage_intact (locals locals' : Z * Z) (page : list ec2.Snapshot.t)
      (lastPage more : bool) (exp exp' : Expedition) :
  (forall snap, In snap (List.filter (startedBefore (cutoffDate exp)) page) ->
                sent snap) ->
  intact aws sent V0 N0 exp ->
  snapshotPage aws locals page lastPage exp = Done ((more, locals'), exp') ->
  intact aws sent V0 N0 exp'.
Proof.
  intros Hsent Hexp. unfold snapshotPage. destruct locals as [pageNum totalSnaps].
  unfold mbind at 1, M_bind at 1, get at 1.
  rewrite (date_filter_loop (cutoffDate exp) page []). cbn [app].
  set (filteredSnapshots := List.filter _ page) in *.
  unfold mbind at 1, M_bind at 1.
  assert (Hsend : forall e1,
            intact aws sent V0 N0 e1 ->
            intact aws sent V0 N0
              (with_wgq (with_queue e1 (queue e1 ++ [filteredSnapshots]))
                 (wgq (with_queue e1 (queue e1 ++ [filteredSnapshots]))
                  ++ [buildNuggets aws
                        (volBatchSize
                           (with_queue e1 (queue e1 ++ [filteredSnapshots])))]))).
  { intros e1 [HN HV HQ Hq Hv]. split; try assumption.
    - cbn [queue with_queue with_wgq]. apply Forall_app. split; [exact HQ|].
      constructor; [|constructor]. apply Forall_forall. intros snap Hsnap.
      apply Hsent. now apply list_elem_of_In.
    - cbn [wgq with_queue with_wgq]. apply Forall_app. split; [exact Hq|].
      constructor; [apply safe_buildNuggets | constructor]. }
  destruct (0 <? len filteredSnapshots).
  - unfold mbind at 1, M_bind at 1.
    destruct (10 <=? len (queue exp)).
    + destruct (settle exp) as [[[] e1]|] eqn:Hsettle; [|discriminate].
      apply settle_intact in Hsettle as (I1 & _ & _); [|exact Hexp].
      unfold mbind at 1, M_bind at 1. cbn [modify].
      unfold mbind at 1, M_bind at 1.
      destruct (schedule _ _) as [[[] e2]|] eqn:Hsched; [|discriminate].
      intros H. injection H as _ _ <-.
      exact (schedule_intact _ _ _ (Hsend _ I1) Hsched).
    + cbn [mret M_ret]. unfold mbind at 1, M_bind at 1. cbn [modify].
      unfold mbind at 1, M_bind at 1.
      destruct (schedule _ _) as [[[] e2]|] eqn:Hsched; [|discriminate].
      intros H. injection H as _ _ <-.
      exact (schedule_intact _ _ _ (Hsend _ Hexp) Hsched).
  - cbn [mret M_ret]. unfold mbind at 1, M_bind at 1.
    destruct (schedule _ _) as [[[] e2]|] eqn:Hsched; [|discriminate].
    intros H. injection H as _ _ <-.
    exact (schedule_intact _ _ _ Hexp Hsched).
Qed.

End IntakeInvariant.

(** ** Snapshot intake *)

(** One call of the pager's callback: what it returns, and that it leaves
    all but the shared fields alone. *)
Lemma snapshotPage_Done (aws : Provider) (exp exp' : Expedition) (pn ts pn' ts' : Z)
      (page : list ec2.Snapshot.t) (lastPage more : bool) :
  snapshotPage aws (pn, ts) page lastPage exp = Done ((more, (pn', ts')), exp') ->
  pn' = wrap64 (pn + 1) /\ more = (pn' <=? maxPages exp) /\ same_others exp exp'.
Proof.
  unfold snapshotPage.
  unfold mbind at 1, M_bind at 1, get at 1.
  set (filteredSnapshots := fold_left _ page []).
  unfold mbind at 1, M_bind at 1.
  destruct (0 <? len filteredSnapshots).
  - unfold mbind at 1, M_bind at 1.
    destruct (10 <=? len (queue exp)).
    + destruct (settle exp) as [[[] e1]|] eqn:Hsettle; [|discriminate].
      apply settle_same_others in Hsettle.
      unfold mbind at 1, M_bind at 1. cbn [modify].
      unfold mbind at 1, M_bind at 1.
      destruct (schedule _ _) as [[[] e2]|] eqn:Hsched; [|discriminate].
      apply schedule_same_others in Hsched.
      intros H. injection H as <- <- <- <-.
      split; [reflexivity|]. split; [reflexivity|].
      eapply same_others_trans; [exact Hsettle|].
      eapply same_others_trans; [|exact Hsched]. reflexivity.
    + cbn [mret M_ret]. unfold mbind at 1, M_bind at 1. cbn [modify].
      unfold mbind at 1, M_bind at 1.
      destruct (schedule _ _) as [[[] e2]|] eqn:Hsched; [|discriminate].
      apply schedule_same_others in Hsched.
      intros H. injection H as <- <- <- <-.
      split; [reflexivity|]. split; [reflexivity|].
      eapply same_others_trans; [|exact Hsched]. reflexivity.
  - cbn [mret M_ret]. unfold mbind at 1, M_bind at 1.
    destruct (schedule _ _) as [[[] e2]|] eqn:Hsched; [|discriminate].
    apply schedule_same_others in Hsched.
    intros H. injection H as <- <- <- <-.
    split; [reflexivity|]. split; [reflexivity|]. exact Hsched.
Qed.

(** *** No schedule panics or deadlocks, unless the batch size is 0 *)



















(** The pages the pager hands to the callback, and the invariant over
    them. *)
Lemma pages_intact (aws : Provider) (responses : list (Error + list ec2.Snapshot.t)) :
  forall (pn ts : Z) (exp : Expedition) (err : option Error) (pn' ts' : Z)
         (exp' : Expedition),
    DescribeSnapshotsPages responses (snapshotPage aws) (pn, ts) exp
    = Done ((err, (pn', ts')), exp') ->
    exists consumed rest,
      responses = map inr consumed ++ rest /\
      same_others exp exp' /\
      forall sent V0 N0,
        (forall snap, In snap (filtered (cutoffDate exp) consumed) -> sent snap) ->
        intact aws sent V0 N0 exp -> intact aws sent V0 N0 exp'.
Proof.
  induction responses as [|[e|page] responses IH];
    intros pn ts exp err pn' ts' exp' Hrun.
  - cbn in Hrun. injection Hrun as <- <- <- <-.
    exists [], []. split; [reflexivity|]. split; [reflexivity|]. auto.
  - cbn in Hrun. injection Hrun as <- <- <- <-.
    exists [], (inl e :: responses). split; [reflexivity|]. split; [reflexivity|]. auto.
  - cbn [DescribeSnapshotsPages] in Hrun. unfold mbind, M_bind in Hrun.
    destruct (snapshotPage aws (pn, ts) page _ exp) as [[[more [pn1 ts1]] exp1]|] eqn:Hpage;
      [|discriminate].
    pose proof (snapshotPage_Done _ _ _ _ _ _ _ _ _ _ Hpage) as (_ & _ & Hsame1).
    assert (Hstep : forall sent V0 N0,
              (forall snap,
                 In snap (List.filter (startedBefore (cutoffDate exp)) page) ->
                 sent snap) ->
              intact aws sent V0 N0 exp -> intact aws sent V0 N0 exp1).
    { intros sent V0 N0 Hsent Hexp.
      exact (snapshotPage_intact aws sent V0 N0 _ _ _ _ _ _ _ Hsent Hexp Hpage). }
    destruct more.
    + apply IH in Hrun as (consumed & rest & Hresp & Hsame & Hinv).
      exists (page :: consumed), rest.
      split; [cbn [map app]; now rewrite Hresp|].
      split; [exact (same_others_trans _ _ _ Hsame1 Hsame)|].
      intros sent V0 N0 Hsent Hexp. apply Hinv.
      * intros snap Hsnap. apply Hsent. unfold filtered. cbn [flat_map].
        apply in_or_app. right.
        assert (Hcut : cutoffDate exp1 = cutoffDate exp)
          by exact (f_equal cutoffDate Hsame1).
        rewrite Hcut in Hsnap. exact Hsnap.
      * apply Hstep; [|exact Hexp].
        intros snap Hsnap. apply Hsent. unfold filtered. cbn [flat_map].
        apply in_or_app. now left.
    + cbn [mret M_ret] in Hrun. injection Hrun as <- <- <- <-.
      exists [page], responses.
      split; [reflexivity|]. split; [exact Hsame1|].
      intros sent V0 N0 Hsent Hexp. apply Hstep; [|exact Hexp].
      intros snap Hsnap. apply Hsent. unfold filtered. cbn [flat_map].
      apply in_or_app. now left.
Qed.

(** How many pages the pager hands to the callback. *)
Lemma pages_count (aws : Provider) (responses : list (Error + list ec2.Snapshot.t)) :
  forall (pn ts : Z) (exp : Expedition) (err : option Error) (pn' ts' : Z)
         (exp' : Expedition),
    maxPages exp < max_int ->
    0 <= pn <= Z.max (maxPages exp) 0 ->
    DescribeSnapshotsPages responses (snapshotPage aws) (pn, ts) exp
    = Done ((err, (pn', ts')), exp') ->
    exists consumed rest,
      responses = map inr consumed ++ rest /\
      pn' = pn + len consumed /\
      pn' <= Z.max (maxPages exp) 0 + 1 /\
      match err with
      | Some e => exists rest', rest = inl e :: rest'
      | None => rest = [] \/ maxPages exp < pn'
      end.
Proof.
  assert (Hmax : max_int = 2 ^ 63 - 1) by reflexivity.
  assert (Hmin : min_int = - 2 ^ 63) by reflexivity.
  induction responses as [|[e|page] responses IH];
    intros pn ts exp err pn' ts' exp' Hcap Hpn Hrun.
  - cbn in Hrun. injection Hrun as <- <- <- <-.
    exists [], []. cbn [map app len length Z.of_nat].
    rewrite Z.add_0_r. split_and!; auto; lia.
  - cbn in Hrun. injection Hrun as <- <- <- <-.
    exists [], (inl e :: responses). cbn [map app len length Z.of_nat].
    rewrite Z.add_0_r. split_and!; eauto; lia.
  - cbn [DescribeSnapshotsPages] in Hrun. unfold mbind, M_bind in Hrun.
    destruct (snapshotPage aws (pn, ts) page _ exp) as [[[more [pn1 ts1]] exp1]|] eqn:Hpage;
      [|discriminate].
    apply snapshotPage_Done in Hpage as (Hpn1 & Hmore & Hsame1).
    assert (Hmp1 : maxPages exp1 = maxPages exp) by exact (f_equal maxPages Hsame1).
    rewrite wrap64_id in Hpn1 by lia.
    destruct more.
    + symmetry in Hmore. apply Z.leb_le in Hmore.
      apply IH in Hrun as (consumed & rest & Hresp & Hcount & Hbound & Hstop);
        [| rewrite Hmp1; exact Hcap | rewrite Hmp1; lia].
      exists (page :: consumed), rest.
      rewrite Hmp1 in *.
      split; [cbn [map app]; now rewrite Hresp|].
      split; [unfold len in *; cbn [length]; lia|].
      split; [exact Hbound|]. exact Hstop.
    + cbn [mret M_ret] in Hrun. injection Hrun as <- <- <- <-.
      symmetry in Hmore. apply Z.leb_gt in Hmore.
      exists [page], responses.
      split; [reflexivity|].
      split; [unfold len; cbn [length]; lia|].
      split; [lia|]. right. exact Hmore.
Qed.

(** The intake as a whole: the pages read, the frame, the wait for the
    goroutines on success, and the invariant. *)
Lemma getSnapshots_intact (aws : Provider) (exp exp' : Expedition)
      (err : option Error) :
  wgq exp = [] -> wgv exp = [] ->
  getSnapshots aws exp = Done (err, exp') ->
  exists consumed rest,
    DescribeSnapshots aws [account exp] (pageSize exp) = map inr consumed ++ rest /\
    same_others exp exp' /\
    (err = None -> wgq exp' = [] /\ wgv exp' = []) /\
    forall sent : ec2.Snapshot.t -> Prop,
      (forall snap, In snap (filtered (cutoffDate exp) consumed) -> sent snap) ->
      intact aws sent (realVols exp) (Nuggets exp) exp'.
Proof.
  intros Hq Hv. unfold getSnapshots.
  unfold mbind at 1, M_bind at 1. cbn [modify].
  unfold mbind at 1, M_bind at 1.
  destruct (readSnapshotPages aws (with_queue exp []))
    as [[[err1 [pn ts]] exp1]|] eqn:Hread; [|discriminate].
  unfold readSnapshotPages, mbind, M_bind, get in Hread.
  cbn [account pageSize with_queue] in Hread.
  apply pages_intact in Hread as (consumed & rest & Hresp & Hsame1 & Hinv).
  assert (Hstart : forall sent : ec2.Snapshot.t -> Prop,
            intact aws sent (realVols exp) (Nuggets exp) (with_queue exp [])).
  { intros sent. split.
    - exists []. now rewrite app_nil_r.
    - apply Forall_forall. intros vol Hvol. left. now apply list_elem_of_In.
    - constructor.
    - cbn [wgq with_queue]. rewrite Hq. constructor.
    - cbn [wgv with_queue]. rewrite Hv. constructor. }
  destruct err1 as [e|].
  - cbn [mret M_ret]. intros H. injection H as <- <-.
    exists consumed, rest. split; [exact Hresp|].
    split; [eapply same_others_trans; [|exact Hsame1]; reflexivity|].
    split; [discriminate|].
    intros sent Hsent. apply Hinv; [exact Hsent | apply Hstart].
  - unfold mbind at 1, M_bind at 1.
    destruct (schedule _ exp1) as [[[] exp2]|] eqn:Hsched; [|discriminate].
    unfold mbind at 1, M_bind at 1.
    destruct (settle exp2) as [[[] exp3]|] eqn:Hsettle; [|discriminate].
    cbn [mret M_ret]. intros H. injection H as <- <-.
    exists consumed, rest. split; [exact Hresp|].
    assert (Hall : forall sent : ec2.Snapshot.t -> Prop,
              (forall snap, In snap (filtered (cutoffDate exp) consumed) -> sent snap) ->
              intact aws sent (realVols exp) (Nuggets exp) exp3 /\
              wgq exp3 = [] /\ wgv exp3 = []).
    { intros sent Hsent.
      eapply (settle_intact aws sent _ _ exp2); [|exact Hsettle].
      eapply (schedule_intact aws sent _ _ _ exp1); [|exact Hsched].
      apply Hinv; [exact Hsent | apply Hstart]. }
    split.
    { eapply same_others_trans; [|exact (settle_same_others _ _ Hsettle)].
      eapply same_others_trans; [|exact (schedule_same_others _ _ _ Hsched)].
      eapply same_others_trans; [|exact Hsame1]. reflexivity. }
    split.
    { intros _. exact (proj2 (Hall (fun _ => True) (fun _ _ => I))). }
    intros sent Hsent. exact (proj1 (Hall sent Hsent)).
Qed.

(** X10: whatever the order in which the goroutines of the intake run, a
    volume stands in [realVols] after the intake only if it was there
    before or the provider reported it for the volume id of a snapshot
    that passed the date filter on a page read; and a nugget the intake
    added has [HasVol] set only if such a volume has its volume id. The
    converse does not hold: the appends to [realVols] are not
    synchronised, and a volume found can be lost. *)
Theorem enrichment_flags_only_reported_volumes (aws : Provider)
    (exp exp' : Expedition) (err : option Error) :
  wgq exp = [] -> wgv exp = [] ->
  getSnapshots aws exp = Done (err, exp') ->
  exists consumed rest news,
    DescribeSnapshots aws [account exp] (pageSize exp) = map inr consumed ++ rest /\
    Nuggets exp' = Nuggets exp ++ news /\
    let sent := fun snap => In snap (filtered (cutoffDate exp) consumed) in
    Forall (knownVolume aws sent (realVols exp)) (realVols exp') /\
    Forall (flaggedForKnownVolume aws sent (realVols exp)) news.
Proof.
  intros Hq Hv Hrun.
  destruct (getSnapshots_intact _ _ _ _ Hq Hv Hrun)
    as (consumed & rest & Hresp & _ & _ & Hinv).
  destruct (Hinv (fun snap => In snap (filtered (cutoffDate exp) consumed))
                 (fun _ H => H)) as [(news & HN & Hnews) HV _ _ _].
  exists consumed, rest, news. split; [exact Hresp|]. split; [exact HN|].
  cbv zeta. split; [exact HV|].
  eapply Forall_impl; [exact Hnews|]. intros nug (_ & _ & Hflag). exact Hflag.
Qed.

(** Two lookups race: both volumes exist, but the append of [vol-1] is
    overwritten, and the nugget of [snap-1] is left without its flag. *)
Lemma enrichment_loses_racing_append :
  let aws := with_scheduler two_existing_volumes racing_lookups in
  let exp := ready_for_intake (input_with_VolumeBatchSize (Some 1)) in
  getSnapshots aws exp = Done (None, intake_result aws exp) /\
  map (fun id => fst (DescribeVolumes aws [id])) ["vol-1"; "vol-2"]%string
  = [[{| ec2.Volume.VolumeId := "vol-1" |}]; [{| ec2.Volume.VolumeId := "vol-2" |}]] /\
  realVols (intake_result aws exp) = [{| ec2.Volume.VolumeId := "vol-2" |}] /\
  map Nugget.HasVol (Nuggets (intake_result aws exp)) = [false; true] /\
  exists consumed,
    Forall (knownVolume aws (fun snap => In snap (filtered (cutoffDate exp) consumed))
              (realVols exp))
           (realVols (intake_result aws exp)).
Proof.
  cbv zeta.
  assert (Hrun : getSnapshots (with_scheduler two_existing_volumes racing_lookups)
                   (ready_for_intake (input_with_VolumeBatchSize (Some 1)))
                 = Done (None,
                         intake_result
                           (with_scheduler two_existing_volumes racing_lookups)
                           (ready_for_intake (input_with_VolumeBatchSize (Some 1)))))
    by (vm_compute; reflexivity).
  assert (Hq : wgq (ready_for_intake (input_with_VolumeBatchSize (Some 1))) = [])
    by (vm_compute; reflexivity).
  assert (Hv : wgv (ready_for_intake (input_with_VolumeBatchSize (Some 1))) = [])
    by (vm_compute; reflexivity).
  split; [exact Hrun|].
  split; [vm_compute; reflexivity|].
  split; [vm_compute; reflexivity|].
  split; [vm_compute; reflexivity|].
  destruct (enrichment_flags_only_reported_volumes _ _ _ _ Hq Hv Hrun)
    as (consumed & rest & news & _ & _ & HV & _).
  exists consumed. exact HV.
Defined.


(** X12: the paginated read of a fresh intake, when it returns, has run
    its callback once per page read; it never reads more than
    [maxPages + 1] pages (one page when [maxPages] is not positive), and it
    stops without error only when the responses are exhausted or [pageNum]
    has passed [maxPages]; it returns an error only when the response after
    the pages read is a failed request. *)
Theorem intake_reads_at_most_maxPages_plus_one (aws : Provider) (exp exp' : Expedition)
    (err : option Error) (pageNum totalSnaps : Z) :
  queue exp = [] -> maxPages exp < max_int ->
  readSnapshotPages aws exp = Done ((err, (pageNum, totalSnaps)), exp') ->
  exists consumed rest,
    DescribeSnapshots aws [account exp] (pageSize exp) = map inr consumed ++ rest /\
    pageNum = len consumed /\
    pageNum <= Z.max (maxPages exp) 0 + 1 /\
    match err with
    | Some e => exists rest', rest = inl e :: rest'
    | None => rest = [] \/ maxPages exp < pageNum
    end.
Proof.
  intros Hq Hcap Hrun. unfold readSnapshotPages, mbind, M_bind, get in Hrun.
  apply pages_count in Hrun
    as (consumed & rest & Hresp & Hcount & Hbound & Hstop);
    [| exact Hcap | lia].
  exists consumed, rest. split_and!; first [assumption | lia].
Qed.


(** The three-page read with [MaxPages = 1] reads two pages. *)
Lemma intake_three_pages_bound :
  let exp := ready_for_intake (input_with_MaxPages (Some 1)) in
  readSnapshotPages three_pages exp
  = Done ((None, (2, 2)), intake_state_after three_pages exp) /\
  2 <= Z.max (maxPages exp) 0 + 1.
Proof.
  cbv zeta.
  assert (Hrun : readSnapshotPages three_pages
                   (ready_for_intake (input_with_MaxPages (Some 1)))
                 = Done ((None, (2, 2)),
                         intake_state_after three_pages
                           (ready_for_intake (input_with_MaxPages (Some 1)))))
    by (vm_compute; reflexivity).
  split; [exact Hrun|].
  destruct (intake_reads_at_most_maxPages_plus_one three_pages
              (ready_for_intake (input_with_MaxPages (Some 1))) _ _ _ _
              eq_refl ltac:(vm_compute; reflexivity) Hrun)
    as (consumed & rest & _ & _ & Hbound & _).
  exact Hbound.
Defined.

(** ** Correlation *)

Lemma maintains_ret {A : Type} (I : Expedition -> Prop) (a : A) : maintains I (mret a).
Proof. intros exp a' exp' HI H. now injection H as _ <-. Qed.

Lemma maintains_bind {A B : Type} (I : Expedition -> Prop) (m : M A) (f : A -> M B) :
  maintains I m -> (forall a, maintains I (f a)) -> maintains I (m ≫= f).
Proof.
  intros Hm Hf exp b exp' HI H. unfold mbind, M_bind in H.
  destruct (m exp) as [[a exp1]|] eqn:Hm1; [|discriminate].
  eapply Hf; [|exact H]. eapply Hm; eassumption.
Qed.

Lemma maintains_rangeE {A : Type} (I : Expedition -> Prop)
      (body : A -> M (option Error)) (xs : list A) :
  (forall x, In x xs -> maintains I (body x)) -> maintains I (rangeE body xs).
Proof.
  induction xs as [|x xs IH]; intros Hbody; cbn [rangeE].
  - apply maintains_ret.
  - apply maintains_bind; [apply Hbody; now left|].
    intros [e|]; [apply maintains_ret|]. apply IH. intros y Hy. apply Hbody. now right.
Qed.

Lemma fold_with_ASGs_intake_part {A : Type} (f : A -> list string) (l : list A) :
  forall snap,
    intake_part (fold_left (fun snap x => Nugget.with_ASGs snap (f x)) l snap)
    = intake_part snap.
Proof.
  induction l as [|x l IH]; intros snap; cbn [fold_left]; [reflexivity|].
  now rewrite IH.
Qed.

Lemma correlate_intake_part (lcs : list autoscaling.LaunchConfiguration.t)
      (lts : list ec2.LaunchTemplateVersion.t) (asgs : list autoscaling.Group.t)
      (imageId : string) (snap r : Nugget.t) :
  correlate lcs lts asgs imageId snap = Done r ->
  intake_part r = intake_part snap.
Proof.
  unfold correlate. destruct (ltsWithSnapImage _ _ _) as [ltNames|]; [|discriminate].
  cbn [mbind Outcome_bind]. intros H. injection H as <-.
  now rewrite !fold_with_ASGs_intake_part.
Qed.

(** The part of [populateNuggets] behind its four listings. *)
Lemma populateNuggets_cases (aws : Provider) (exp : Expedition) :
  (exists e, populateNuggets aws exp = Done (Some e, exp)) \/
  exists lcs lts images asgs,
    describeImagesOwnedByThisAccount aws = (images, None) /\
    populateNuggets aws exp =
    rangeE
      (fun image =>
         rangeE
           (fun snap =>
              rangeE
                (fun bdm =>
                   match ec2.BlockDeviceMapping.Ebs bdm with
                   | Some ebs =>
                       match ec2.EbsBlockDevice.SnapshotId ebs with
                       | Some bdmSnap =>
                           nug ← derefNugget snap;
                           if String.eqb (ec2.Snapshot.SnapshotId (Nugget.Snap nug))
                                         bdmSnap
                           then
                             nug ← liftO
                                     (correlate lcs lts asgs (ec2.Image.ImageId image)
                                        nug);
                             let '(accts, err) :=
                               imageSharedTo aws (ec2.Image.ImageId image) in
                             _ ← storeNugget snap (Nugget.with_AMISharedWith nug accts);
                             mret err
                           else mret None
                       | None => mret None
                       end
                   | None => mret None
                   end)
                (ec2.Image.BlockDeviceMappings image))
           (pointers (Nuggets exp)))
      images exp.
Proof.
  unfold populateNuggets.
  destruct (describeLaunchConfigurations aws) as [lcs [e|]]; [left; eauto|].
  destruct (describeLaunchTemplates aws) as [lts [e|]]; [left; eauto|].
  destruct (describeImagesOwnedByThisAccount aws) as [images [e|]]; [left; eauto|].
  destruct (describeASGs aws) as [asgs [e|]]; [left; eauto|].
  right. exists lcs, lts, images, asgs. split; reflexivity.
Qed.

Lemma only_associations_refl (exp : Expedition) : only_associations exp exp.
Proof. split; [now destruct exp | reflexivity]. Qed.

Lemma populateNuggets_only_associations (aws : Provider) (exp exp' : Expedition)
      (r : option Error) :
  populateNuggets aws exp = Done (r, exp') -> only_associations exp exp'.
Proof.
  intros Hrun.
  destruct (populateNuggets_cases aws exp)
    as [(e & He)|(lcs & lts & images & asgs & _ & Heq)].
  - rewrite He in Hrun. injection Hrun as _ <-. apply only_associations_refl.
  - rewrite Heq in Hrun. revert Hrun.
    apply (maintains_rangeE (only_associations exp)); [|apply only_associations_refl].
    intros image _. apply maintains_rangeE. intros snap _.
    apply maintains_rangeE. intros bdm _.
    intros e1 a e2 [Hfr Hparts] Hbody.
    destruct (ec2.BlockDeviceMapping.Ebs bdm) as [ebs|];
      [|injection Hbody as _ <-; now split].
    destruct (ec2.EbsBlockDevice.SnapshotId ebs) as [bdmSnap|];
      [|injection Hbody as _ <-; now split].
    unfold mbind, M_bind, derefNugget in Hbody.
    destruct (Nuggets e1 !! snap) as [nug|] eqn:Hnug; [|discriminate].
    destruct (String.eqb _ bdmSnap); [|injection Hbody as _ <-; now split].
    unfold liftO in Hbody.
    destruct (correlate lcs lts asgs (ec2.Image.ImageId image) nug)
      as [nug1|] eqn:Hcor; [|discriminate].
    destruct (imageSharedTo aws (ec2.Image.ImageId image)) as [accts err].
    cbn in Hbody. injection Hbody as _ <-. split.
    + rewrite Hfr at 1. reflexivity.
    + cbn [Nuggets with_Nuggets]. rewrite <- Hparts.
      change (map intake_part) with (fmap (M:=list) intake_part).
      rewrite list_fmap_insert. apply list_insert_id.
      rewrite list_lookup_fmap, Hnug. cbn [fmap option_fmap option_map]. f_equal.
      change (intake_part (Nugget.with_AMISharedWith ?n accts)) with (intake_part n).
      symmetry. exact (correlate_intake_part _ _ _ _ _ _ Hcor).
Qed.

(** X13: correlation touches nothing but the associations of the records:
    when [populateNuggets] returns, with or without error, the expedition
    has the same records in the same order, each with its snapshot, volume
    flag and bar pointer unchanged, and every other field of the expedition
    is as before. *)
Theorem populateNuggets_changes_only_associations (aws : Provider)
    (exp exp' : Expedition) (r : option Error) :
  populateNuggets aws exp = Done (r, exp') ->
  exp' = with_Nuggets exp (Nuggets exp') /\
  map intake_part (Nuggets exp') = map intake_part (Nuggets exp) /\
  length (Nuggets exp') = length (Nuggets exp).
Proof.
  intros Hrun.
  destruct (populateNuggets_only_associations aws exp exp' r Hrun) as [Hfr Hparts].
  split; [exact Hfr|]. split; [exact Hparts|].
  rewrite <- (length_map intake_part), Hparts. apply length_map.
Qed.

(** Correlation of the direct-mapping scenario keeps both records'
    snapshots. *)
Lemma populateNuggets_keeps_records :
  populateNuggets direct_mapping one_mapped_record
  = Done (None, correlated direct_mapping one_mapped_record) /\
  map intake_part (Nuggets (correlated direct_mapping one_mapped_record))
  = map intake_part (Nuggets one_mapped_record).
Proof.
  assert (Hrun : populateNuggets direct_mapping one_mapped_record
                 = Done (None, correlated direct_mapping one_mapped_record))
    by (vm_compute; reflexivity).
  split; [exact Hrun|].
  exact (proj1 (proj2 (populateNuggets_changes_only_associations _ _ _ _ Hrun))).
Defined.

(** X14: a record whose snapshot no image of the account maps is left as
    it is by [populateNuggets]: launch configurations and templates are
    searched only for records matched to an image, so one that maps the
    snapshot directly, without an image, is not found. *)
Theorem populateNuggets_skips_records_without_image (aws : Provider)
    (exp exp' : Expedition) (r : option Error) (m : nat) (nug : Nugget.t) :
  Nuggets exp !! m = Some nug ->
  (forall image bdm ebs,
     In image (fst (describeImagesOwnedByThisAccount aws)) ->
     In bdm (ec2.Image.BlockDeviceMappings image) ->
     ec2.BlockDeviceMapping.Ebs bdm = Some ebs ->
     ec2.EbsBlockDevice.SnapshotId ebs
     <> Some (ec2.Snapshot.SnapshotId (Nugget.Snap nug))) ->
  populateNuggets aws exp = Done (r, exp') ->
  Nuggets exp' !! m = Some nug.
Proof.
  intros Hm Hunmapped Hrun.
  destruct (populateNuggets_cases aws exp)
    as [(e & He)|(lcs & lts & images & asgs & Himages & Heq)].
  - rewrite He in Hrun. now injection Hrun as _ <-.
  - rewrite Himages in Hunmapped. cbn [fst] in Hunmapped.
    rewrite Heq in Hrun. revert Hrun.
    apply (maintains_rangeE (fun e => Nuggets e !! m = Some nug)); [|exact Hm].
    intros image Himage. apply maintains_rangeE. intros snap _.
    apply maintains_rangeE. intros bdm Hbdm.
    intros e1 a e2 HI Hbody.
    destruct (ec2.BlockDeviceMapping.Ebs bdm) as [ebs|] eqn:Hebs;
      [|now injection Hbody as _ <-].
    destruct (ec2.EbsBlockDevice.SnapshotId ebs) as [bdmSnap|] eqn:Hsnap;
      [|now injection Hbody as _ <-].
    unfold mbind, M_bind, derefNugget in Hbody.
    destruct (Nuggets e1 !! snap) as [nug1|] eqn:Hnug; [|discriminate].
    destruct (String.eqb_spec (ec2.Snapshot.SnapshotId (Nugget.Snap nug1)) bdmSnap)
      as [Heqid|_]; [|now injection Hbody as _ <-].
    unfold liftO in Hbody.
    destruct (correlate lcs lts asgs (ec2.Image.ImageId image) nug1)
      as [nug2|]; [|discriminate].
    destruct (imageSharedTo aws (ec2.Image.ImageId image)) as [accts err].
    cbn in Hbody. injection Hbody as _ <-. cbn [Nuggets with_Nuggets].
    destruct (decide (snap = m)) as [->|Hne].
    + exfalso. assert (nug1 = nug) by congruence. subst nug1.
      apply (Hunmapped image bdm ebs Himage Hbdm Hebs). now rewrite Hsnap, Heqid.
    + now rewrite list_lookup_insert_ne.
Qed.

(** The record whose snapshot only a launch configuration maps, directly,
    stays without association. *)
Lemma populateNuggets_misses_direct_mapping :
  lcsWithSnapImage (fst (describeLaunchConfigurations direct_mapping)) "snap-2" "ami-1"
  = ["lc-2"%string] /\
  populateNuggets direct_mapping one_mapped_record
  = Done (None, correlated direct_mapping one_mapped_record) /\
  Nuggets (correlated direct_mapping one_mapped_record) !! 1%nat
  = Some (Nugget.new (snapshot "snap-2" "vol-2" 5 8)).
Proof.
  assert (Hrun : populateNuggets direct_mapping one_mapped_record
                 = Done (None, correlated direct_mapping one_mapped_record))
    by (vm_compute; reflexivity).
  split; [reflexivity|]. split; [exact Hrun|].
  apply (populateNuggets_skips_records_without_image direct_mapping one_mapped_record
           _ None 1 _ eq_refl); [|exact Hrun].
  intros image bdm ebs Himage Hbdm Hebs.
  cbn in Himage. destruct Himage as [<-|[]].
  cbn in Hbdm. destruct Hbdm as [<-|[]].
  cbn in Hebs. injection Hebs as <-. cbn. discriminate.
Defined.

(** ** Completed runs *)

(** The stages of a completed run. *)
Lemma Start_completed (aws : Provider) (exp exp' : Expedition) :
  Start aws exp = Done (None, exp') ->
  exists e1 e2 e3 e4,
    setDateFilter aws (dateFilter exp) exp = Done (None, e1) /\
    getAccountNumber aws e1 = Done (None, e2) /\
    getSnapshots aws e2 = Done (None, e3) /\
    populateNuggets aws e3 = Done (None, e4) /\
    (addBars ≫= fun _ => setRecommendations aws) e4 = Done (tt, exp').
Proof.
  unfold Start. unfold mbind at 1, M_bind at 1, get at 1. intros H.
  unfold mbind at 1, M_bind at 1 in H.
  destruct (setDateFilter aws (dateFilter exp) exp) as [[[e|] e1]|] eqn:H1;
    try discriminate.
  unfold mbind at 1, M_bind at 1 in H.
  destruct (getAccountNumber aws e1) as [[[e|] e2]|] eqn:H2; try discriminate.
  unfold mbind at 1, M_bind at 1 in H.
  destruct (getSnapshots aws e2) as [[[e|] e3]|] eqn:H3; try discriminate.
  unfold mbind at 1, M_bind at 1 in H.
  destruct (populateNuggets aws e3) as [[[e|] e4]|] eqn:H4; try discriminate.
  exists e1, e2, e3, e4.
  split; [reflexivity|]. split; [exact H2|]. split; [exact H3|]. split; [exact H4|].
  unfold mbind, M_bind in *.
  destruct (addBars e4) as [[[] e5]|]; [|discriminate].
  destruct (setRecommendations aws e5) as [[[] e6]|]; [|discriminate].
  unfold mret, M_ret in H. injection H as ->. reflexivity.
Qed.

Lemma setDateFilter_result (aws : Provider) (datestring : string) (exp : Expedition) :
  setDateFilter aws datestring exp =
  Done (snd (time_Parse aws "2006-01-02" datestring),
        with_cutoffDate exp (fst (time_Parse aws "2006-01-02" datestring))).
Proof. unfold setDateFilter. now destruct (time_Parse aws _ _). Qed.

Lemma getAccountNumber_Done (aws : Provider) (exp exp' : Expedition) :
  getAccountNumber aws exp = Done (None, exp') ->
  exists acct, exp' = with_account exp acct.
Proof.
  unfold getAccountNumber. destruct (GetCallerIdentity aws) as [e|acct]; [discriminate|].
  intros H. injection H as <-. now exists acct.
Qed.

(** X15: in a completed run of a new expedition, however the goroutines
    of the intake were scheduled, every snapshot id of the deletion plan is
    the id of a record whose snapshot started before the cutoff date the
    run parsed from its date filter; a snapshot that started at or after
    the cutoff is never recommended. *)
Theorem plan_holds_only_snapshots_before_cutoff (aws : Provider)
    (input : ExpeditionInput) (exp' : Expedition) :
  Start aws (fst (New input)) = Done (None, exp') ->
  cutoffDate exp'
  = fst (time_Parse aws "2006-01-02" (dateFilter (fst (New input)))) /\
  Forall (fun nug => ec2.Snapshot.StartTime (Nugget.Snap nug) < cutoffDate exp')
         (Nuggets exp') /\
  forall s, In s (SnapToDelete exp') ->
    exists nug, In nug (Nuggets exp') /\
                ec2.Snapshot.SnapshotId (Nugget.Snap nug) = s /\
                ec2.Snapshot.StartTime (Nugget.Snap nug) < cutoffDate exp'.
Proof.
  intros Hstart.
  destruct (New_fresh input) as (HB & HN & HLt & HLc & HAm & HSn & _).
  apply Start_completed in Hstart as (e1 & e2 & e3 & e4 & H1 & H2 & H3 & H4 & H5).
  rewrite setDateFilter_result in H1. injection H1 as _ <-.
  apply getAccountNumber_Done in H2 as (acct & ->).
  set (cutoff := fst (time_Parse aws "2006-01-02" (dateFilter (fst (New input))))) in *.
  set (e2 := with_account _ acct) in *.
  (* intake *)
  assert (Hq2 : wgq e2 = []).
  { subst e2. cbn [wgq with_account with_cutoffDate]. unfold New.
    destruct (Session_ input); [destruct (Logger_ input)|]; reflexivity. }
  assert (Hv2 : wgv e2 = []).
  { subst e2. cbn [wgv with_account with_cutoffDate]. unfold New.
    destruct (Session_ input); [destruct (Logger_ input)|]; reflexivity. }
  destruct (getSnapshots_intact aws e2 e3 None Hq2 Hv2 H3)
    as (consumed & rest & _ & Hsame3 & _ & Hinv).
  destruct (Hinv (fun snap => In snap (filtered (cutoffDate e2) consumed))
                 (fun _ H => H)) as [(news & HN3 & Hnews) _ _ _ _].
  change (Nuggets e2) with (Nuggets (fst (New input))) in HN3.
  rewrite HN in HN3. cbn [app] in HN3.
  assert (Hcut3 : cutoffDate e3 = cutoff) by exact (f_equal cutoffDate Hsame3).
  change (cutoffDate e2) with cutoff in Hnews.
  assert (Hbefore3 : Forall (fun snap => ec2.Snapshot.StartTime snap < cutoff)
                       (map Nugget.Snap (Nuggets e3))).
  { rewrite HN3. apply Forall_forall. intros snap Hsnap.
    apply list_elem_of_In, in_map_iff in Hsnap as (nug & <- & Hnug).
    rewrite Forall_forall in Hnews.
    destruct (Hnews nug) as (Hin & _); [now apply list_elem_of_In|].
    exact (filtered_before _ _ _ Hin). }
  (* correlation *)
  pose proof (keeps_getSnapshots aws _ _ _ H3) as Hk3.
  apply populateNuggets_only_associations in H4 as (Hfr4 & Hparts4).
  assert (Hsnaps4 : map Nugget.Snap (Nuggets e4) = map Nugget.Snap (Nuggets e3)).
  { assert (Hmm : forall l, map Nugget.Snap l = map (fun p => fst (fst p))
                                                  (map intake_part l))
      by (intros l; rewrite map_map; reflexivity).
    now rewrite (Hmm (Nuggets e4)), (Hmm (Nuggets e3)), Hparts4. }
  assert (Hcut4 : cutoffDate e4 = cutoff) by (rewrite Hfr4; exact Hcut3).
  assert (HB4 : Bars e4 = []).
  { rewrite Hfr4. cbn [Bars with_Nuggets]. rewrite (untouched_Bars _ _ Hk3). exact HB. }
  (* aggregation *)
  destruct (aggregate_spec aws e4 HB4) as (e5 & cA & cH & G & Hagg).
  rewrite Hagg in H5. injection H5 as <-.
  pose proof (grouped_frame _ _ _ G) as Hfr5.
  assert (Hcut5 : cutoffDate e5 = cutoff) by (rewrite Hfr5; exact Hcut4).
  assert (Hsnaps5 : map Nugget.Snap (Nuggets e5) = map Nugget.Snap (Nuggets e4)).
  { assert (Hmm : forall l, map Nugget.Snap l = map Nugget.Snap (map record_of l))
      by (intros l; rewrite map_map; reflexivity).
    now rewrite (Hmm (Nuggets e5)), (Hmm (Nuggets e4)), (grouped_records _ _ _ G). }
  assert (Hall : Forall (fun nug => ec2.Snapshot.StartTime (Nugget.Snap nug) < cutoff)
                        (Nuggets e5)).
  { rewrite Hsnaps4 in Hsnaps5. rewrite <- Hsnaps5 in Hbefore3.
    apply Forall_forall. intros nug Hnug.
    rewrite Forall_forall in Hbefore3. apply Hbefore3.
    apply list_elem_of_In, in_map, list_elem_of_In. exact Hnug. }
  change (cutoffDate (setRecommendations_result _ _ _ _ _)) with (cutoffDate e5).
  change (Nuggets (setRecommendations_result _ _ _ _ _)) with (Nuggets e5).
  rewrite Hcut5. split; [reflexivity|]. split; [exact Hall|].
  intros s Hs.
  assert (HSn5 : SnapToDelete e5 = []).
  { rewrite Hfr5. cbn [SnapToDelete with_Bars with_Nuggets]. rewrite Hfr4.
    cbn [SnapToDelete with_Nuggets]. rewrite (untouched_Snap _ _ Hk3). exact HSn. }
  unfold setRecommendations_result, dedupe_plan, append_plan in Hs.
  cbn [SnapToDelete with_recommendations with_SnapToDelete] in Hs.
  rewrite HSn5, dedupeString_In in Hs. cbn [app] in Hs.
  apply in_map_iff in Hs as (nug & <- & Hnug).
  apply in_deletable in Hnug as (j & b & m & _ & _ & _ & Hlook & _).
  exists nug. split; [|split; [reflexivity|]].
  - apply list_elem_of_In, list_elem_of_lookup. eauto.
  - rewrite Forall_forall in Hall. apply Hall, list_elem_of_lookup. eauto.
Qed.

(** The run on the lone snapshot keeps to the cutoff. *)
Lemma plan_of_lone_snapshot_before_cutoff :
  Start lone_snapshot (fst (New default_input))
  = Done (None, state_after lone_snapshot default_input) /\
  Forall (fun nug => ec2.Snapshot.StartTime (Nugget.Snap nug)
                     < cutoffDate (state_after lone_snapshot default_input))
         (Nuggets (state_after lone_snapshot default_input)).
Proof.
  assert (Hrun : Start lone_snapshot (fst (New default_input))
                 = Done (None, state_after lone_snapshot default_input))
    by (vm_compute; reflexivity).
  split; [exact Hrun|].
  exact (proj1 (proj2 (plan_holds_only_snapshots_before_cutoff
                         lone_snapshot default_input _ Hrun))).
Defined.

(** ** The order of bars and members *)

Lemma dedupeString_snoc (l : list string) (v : string) :
  dedupeString (l ++ [v]) =
  if containsString (dedupeString l) v then dedupeString l else dedupeString l ++ [v].
Proof.
  unfold dedupeString. rewrite fold_left_app. cbn [fold_left].
  now destruct (containsString _ v).
Qed.

Lemma existsb_key_contains (v : string) (bars : list Bar.t) :
  existsb (fun b => String.eqb (Bar.VolumeId b) v) bars
  = containsString (map Bar.VolumeId bars) v.
Proof.
  induction bars as [|b bars IH]; cbn [existsb map containsString]; [reflexivity|].
  rewrite IH. now destruct (String.eqb (Bar.VolumeId b) v).
Qed.

Lemma filter_seq_snoc (p : nat -> bool) (k : nat) :
  List.filter p (seq 0 (S k)) = List.filter p (seq 0 k) ++ (if p k then [k] else []).
Proof. rewrite seq_S, List.filter_app. reflexivity. Qed.

Lemma grouped_in_order_step (exp0 exp : Expedition) (k : nat) (nug : Nugget.t) :
  grouped exp0 k exp -> grouped_in_order exp0 k exp ->
  Nuggets exp !! k = Some nug ->
  grouped_in_order exp0 (S k) (addBar_result k nug exp).
Proof.
  intros G [Hkeys Hmem] HN.
  assert (Hv : volumeOf exp0 k = ec2.Snapshot.VolumeId (Nugget.Snap nug)).
  { unfold volumeOf.
    assert (Hrec : record_of <$> (Nuggets exp0 !! k) = Some (record_of nug)).
    { rewrite <- list_lookup_fmap.
      change (fmap (M:=list) record_of) with (map record_of).
      rewrite <- (grouped_records _ _ _ G).
      change (map record_of) with (fmap (M:=list) record_of).
      now rewrite list_lookup_fmap, HN. }
    destruct (Nuggets exp0 !! k) as [n0|]; [|discriminate].
    cbn in Hrec. injection Hrec as Hs _ _ _ _ _ _. now rewrite Hs. }
  set (v := ec2.Snapshot.VolumeId (Nugget.Snap nug)) in *.
  unfold addBar_result. fold v. rewrite existsb_key_contains, Hkeys.
  unfold grouped_in_order.
  rewrite seq_S, map_app. cbn [map Nat.add]. rewrite Hv, dedupeString_snoc.
  rewrite <- seq_S.
  destruct (containsString (dedupeString (map (volumeOf exp0) (seq 0 k))) v) eqn:Hc;
    cbn [Bars with_Bars].
  - split.
    + rewrite map_map, <- Hkeys. apply map_ext. intros b. apply addTo_VolumeId.
    + apply Forall_forall. intros b' Hb'.
      apply list_elem_of_In, in_map_iff in Hb' as (b & <- & Hb).
      rewrite Forall_forall in Hmem.
      rewrite addTo_Nuggets, addTo_VolumeId, filter_seq_snoc, Hv.
      rewrite (Hmem b) by now apply list_elem_of_In. reflexivity.
  - split.
    + rewrite map_app, Hkeys. reflexivity.
    + apply Forall_app. split.
      * apply Forall_forall. intros b Hb. rewrite Forall_forall in Hmem.
        rewrite filter_seq_snoc, Hv, (Hmem b Hb).
        assert (Hne : String.eqb (Bar.VolumeId b) v = false).
        { apply containsString_false in Hc. rewrite <- Hkeys in Hc.
          apply String.eqb_neq. intros Heq. apply Hc. rewrite <- Heq.
          apply in_map. now apply list_elem_of_In. }
        rewrite Hne. now rewrite app_nil_r.
      * constructor; [|constructor]. cbn [Bar.Nuggets Bar.VolumeId].
        rewrite filter_seq_snoc, Hv, String.eqb_refl.
        assert (Hnone : List.filter (fun m => String.eqb v (volumeOf exp0 m)) (seq 0 k)
                        = []).
        { apply containsString_false in Hc. rewrite dedupeString_In in Hc.
          revert Hc. generalize (seq 0 k) as ms. intros ms.
          induction ms as [|m ms IHs]; intros Hc; cbn [List.filter]; [reflexivity|].
          destruct (String.eqb_spec v (volumeOf exp0 m)) as [Heq|_].
          - exfalso. apply Hc. rewrite Heq. now left.
          - apply IHs. intros Hin. apply Hc. now right. }
        now rewrite Hnone.
Qed.

Lemma addBars_in_order_loop (exp0 : Expedition) (r : nat) :
  forall k exp,
    grouped exp0 k exp -> grouped_in_order exp0 k exp ->
    (k + r = length (Nuggets exp0))%nat ->
    exists exp',
      rangeM (fun _ nug => addBar nug) (seq k r) tt exp = Done (tt, exp') /\
      grouped exp0 (k + r) exp' /\ grouped_in_order exp0 (k + r) exp'.
Proof.
  induction r as [|r IH]; intros k exp G O Hlen.
  - exists exp. rewrite Nat.add_0_r. now split.
  - assert (HN : is_Some (Nuggets exp !! k)).
    { apply lookup_lt_is_Some.
      rewrite <- (length_map record_of), (grouped_records _ _ _ G), length_map. lia. }
    destruct HN as [nug HN].
    cbn [seq rangeM].
    rewrite (bind_Done _ _ _ _ _ (addBar_spec k exp nug HN)).
    destruct (IH (S k) _ (grouped_step _ _ _ _ G HN)
                (grouped_in_order_step _ _ _ _ G O HN) ltac:(lia))
      as (exp' & Hrun & G' & O').
    exists exp'. split; [exact Hrun|].
    now replace (k + S r)%nat with (S k + r)%nat by lia.
Qed.

(** X16: aggregation keeps order. Started without bars, [addBars] leaves
    the bars in the order in which their volume ids first occur among the
    records (the deduplicated sequence of the records' volume ids), and the
    members of each bar are exactly the records of its volume id, in the
    order of the records. *)
Theorem addBars_keeps_first_occurrence_order (exp : Expedition) :
  Bars exp = [] ->
  exists exp',
    addBars exp = Done (tt, exp') /\
    map Bar.VolumeId (Bars exp')
    = dedupeString
        (map (fun nug => ec2.Snapshot.VolumeId (Nugget.Snap nug)) (Nuggets exp)) /\
    Forall (fun b =>
              Bar.Nuggets b =
              List.filter (fun m => String.eqb (Bar.VolumeId b) (volumeOf exp m))
                (pointers (Nuggets exp)))
           (Bars exp').
Proof.
  intros HB. unfold addBars, pointers.
  destruct (addBars_in_order_loop exp (length (Nuggets exp)) 0 exp
              (grouped_start exp HB)) as (exp' & Hrun & _ & [Hkeys Hmem]).
  { split; rewrite HB; [reflexivity | constructor]. }
  { reflexivity. }
  exists exp'. split; [unfold mbind, M_bind, get; exact Hrun|].
  split; [|exact Hmem]. rewrite Hkeys. f_equal. cbn [Nat.add].
  unfold volumeOf.
  generalize (Nuggets exp) as N. intros N.
  induction N as [|n N IH] using rev_ind; [reflexivity|].
  rewrite length_app, Nat.add_1_r, seq_S, !map_app. cbn [map Nat.add length].
  rewrite list_lookup_middle by reflexivity. f_equal.
  rewrite <- IH. apply map_ext_in. intros m Hm. apply in_seq in Hm.
  now rewrite lookup_app_l by lia.
Qed.

(** The two records of [vol-3] form one bar with both as members. *)
Lemma addBars_orders_two_records :
  Bars disagreeing_members = [] /\
  exists exp',
    addBars disagreeing_members = Done (tt, exp') /\
    map Bar.VolumeId (Bars exp') = ["vol-3"%string].
Proof.
  split; [reflexivity|].
  destruct (addBars_keeps_first_occurrence_order disagreeing_members eq_refl)
    as (exp' & Hrun & Hkeys & _).
  exists exp'. split; [exact Hrun|]. rewrite Hkeys. reflexivity.
Defined.

(** ** Counters and cost of the report *)

Lemma wrap64_add_l (a b : Z) : wrap64 (wrap64 a + b) = wrap64 (a + b).
Proof.
  unfold wrap64. f_equal.
  replace ((a + 2 ^ 63) mod 2 ^ 64 - 2 ^ 63 + b + 2 ^ 63)
    with ((a + 2 ^ 63) mod 2 ^ 64 + b) by lia.
  rewrite Zplus_mod_idemp_l. f_equal. lia.
Qed.

Section Counters.

Let inner : Z * Z * list (option nat) -> nat -> M (Z * Z * list (option nat)) :=
  (fun '(countAsgShare, countHasVol, barsToDelete) nug =>
   n ← derefNugget nug;
   if (len (Nugget.ASGs n) =? 0) && (len (Nugget.AMISharedWith n) =? 0)
   then
     _ ← modify (fun exp =>
            with_LtsToDelete exp (LtsToDelete exp ++ Nugget.LTs n));
     _ ← modify (fun exp =>
            with_LcsToDelete exp (LcsToDelete exp ++ Nugget.LCs n));
     _ ← modify (fun exp =>
            with_AmiToDelete exp (AmiToDelete exp ++ Nugget.AMIIDs n));
     _ ← modify (fun exp =>
            with_SnapToDelete exp
              (SnapToDelete exp ++ [ec2.Snapshot.SnapshotId (Nugget.Snap n)]));
     mret (countAsgShare, countHasVol, barsToDelete ++ [Nugget.parentBar n])
   else mret (wrap64 (countAsgShare + 1), countHasVol, barsToDelete)).

Let outer : Z * Z * list (option nat) -> nat -> M (Z * Z * list (option nat)) :=
  (fun '(countAsgShare, countHasVol, barsToDelete) bar =>
   b ← derefBar bar;
   if negb (Bar.HasVol b) then
     rangeM inner (Bar.Nuggets b) (countAsgShare, countHasVol, barsToDelete)
   else mret (countAsgShare, wrap64 (countHasVol + 1), barsToDelete)).

Lemma count_inner (members : list nat) :
  forall (exp : Expedition) (cA cH : Z) (btd : list (option nat)),
    Forall (fun m => is_Some (Nuggets exp !! m)) members ->
    let all := omap (fun m => Nuggets exp !! m) members in
    let D := List.filter deletable all in
    let R := List.filter (fun nug => negb (deletable nug)) all in
    rangeM inner members (wrap64 cA, cH, btd) exp =
    Done ((wrap64 (cA + len R), cH, btd ++ map Nugget.parentBar D),
          append_plan exp D).
Proof.
  induction members as [|m ms IH]; intros exp cA cH btd Hvalid all D R.
  - subst all D R. cbn. now rewrite Z.add_0_r, app_nil_r, append_plan_nil.
  - apply Forall_cons in Hvalid as [[nug Hm] Hvalid].
    subst all D R. cbn [omap list_omap rangeM]. rewrite Hm.
    rewrite (bind_Done _ _ _ _ _ (inner_step exp (wrap64 cA) cH btd m nug Hm)).
    cbn [List.filter].
    destruct (deletable nug); cbn [negb].
    + rewrite (IH (append_plan exp [nug]) cA cH (btd ++ [Nugget.parentBar nug]) Hvalid).
      cbv zeta. cbn [Nuggets append_plan with_SnapToDelete with_AmiToDelete
                     with_LcsToDelete with_LtsToDelete].
      rewrite append_plan_app, <- app_assoc. reflexivity.
    + rewrite wrap64_add_l.
      rewrite (IH exp (cA + 1) cH btd Hvalid). cbv zeta.
      unfold len. cbn [length].
      rewrite Nat2Z.inj_succ, <- Z.add_1_l, Z.add_assoc. reflexivity.
Qed.

Lemma count_outer (post : list Bar.t) :
  forall (pre : list Bar.t) (exp : Expedition) (cA cH : Z) (btd : list (option nat)),
    Bars exp = pre ++ post ->
    Forall (fun b => Forall (fun m => is_Some (Nuggets exp !! m)) (Bar.Nuggets b)) post ->
    let D := flat_map (deletableIn exp) post in
    rangeM outer (seq (length pre) (length post)) (wrap64 cA, wrap64 cH, btd) exp =
    Done ((wrap64 (cA + len (flat_map (retainedIn exp) post)),
           wrap64 (cH + len (List.filter Bar.HasVol post)),
           btd ++ map Nugget.parentBar D),
          append_plan exp D).
Proof.
  induction post as [|b post IH]; intros pre exp cA cH btd HB Hvalid D.
  - subst D. cbn. now rewrite !Z.add_0_r, app_nil_r, append_plan_nil.
  - apply Forall_cons in Hvalid as [Hb Hvalid].
    assert (Hlook : Bars exp !! length pre = Some b).
    { rewrite HB. now apply list_lookup_middle. }
    subst D. cbn [length seq rangeM flat_map List.filter].
    pose proof (outer_step exp (wrap64 cA) (wrap64 cH) btd _ _ Hlook) as Hstep.
    change (outer (wrap64 cA, wrap64 cH, btd) (length pre) exp =
            if Bar.HasVol b
            then Done ((wrap64 cA, wrap64 (wrap64 cH + 1), btd), exp)
            else rangeM inner (Bar.Nuggets b) (wrap64 cA, wrap64 cH, btd) exp)
      in Hstep.
    unfold mbind, M_bind. rewrite Hstep. clear Hstep.
    replace (S (length pre)) with (length (pre ++ [b]))
      by (rewrite length_app; simpl; lia).
    assert (HD : deletableIn exp b =
                 if Bar.HasVol b then []
                 else List.filter deletable
                        (omap (fun m => Nuggets exp !! m) (Bar.Nuggets b)))
      by reflexivity.
    assert (HR : retainedIn exp b =
                 if Bar.HasVol b then []
                 else List.filter (fun nug => negb (deletable nug))
                        (omap (fun m => Nuggets exp !! m) (Bar.Nuggets b)))
      by reflexivity.
    rewrite !HD, HR. clear HD HR.
    destruct (Bar.HasVol b).
    + rewrite wrap64_add_l.
      rewrite (IH (pre ++ [b]) exp cA (cH + 1) btd
                 ltac:(now rewrite <- app_assoc) Hvalid).
      cbv zeta. cbn [app]. unfold len. cbn [length].
      rewrite Nat2Z.inj_succ, <- Z.add_1_l, Z.add_assoc. reflexivity.
    + rewrite (count_inner (Bar.Nuggets b) exp cA (wrap64 cH) btd Hb). cbv zeta.
      set (all := omap (fun m => Nuggets exp !! m) (Bar.Nuggets b)).
      rewrite (IH (pre ++ [b]) (append_plan exp (List.filter deletable all))
                 (cA + len (List.filter (fun nug => negb (deletable nug)) all)) cH
                 (btd ++ map Nugget.parentBar (List.filter deletable all))
                 ltac:(now rewrite <- app_assoc) Hvalid).
      cbv zeta.
      rewrite append_plan_app, map_app, <- app_assoc.
      unfold len. rewrite length_app, Nat2Z.inj_add, Z.add_assoc. reflexivity.
Qed.

Lemma collectDeletable_counts (exp : Expedition) :
  Forall (fun b => Forall (fun m => is_Some (Nuggets exp !! m)) (Bar.Nuggets b))
         (Bars exp) ->
  let D := flat_map (deletableIn exp) (Bars exp) in
  collectDeletable exp =
  Done ((wrap64 (len (flat_map (retainedIn exp) (Bars exp))),
         wrap64 (len (List.filter Bar.HasVol (Bars exp))),
         map Nugget.parentBar D),
        append_plan exp D).
Proof.
  intros Hvalid D. unfold collectDeletable, pointers.
  unfold mbind, M_bind, get.
  change (rangeM _ ?xs ?acc exp) with (rangeM outer xs acc exp).
  exact (count_outer (Bars exp) [] exp 0 0 [] eq_refl Hvalid).
Qed.

End Counters.


Lemma grouped_valid (exp0 exp : Expedition) (k : nat) :
  grouped exp0 k exp ->
  Forall (fun b => Forall (fun m => is_Some (Nuggets exp !! m)) (Bar.Nuggets b))
         (Bars exp).
Proof.
  intros G. apply Forall_forall. intros b Hb. apply Forall_forall. intros m Hm.
  apply list_elem_of_lookup in Hb as (j & Hj).
  destruct (grouped_parent _ _ _ G j b m Hj Hm) as (nug & Hnug & _). eauto.
Qed.

(** [setRecommendations] on grouped bars, with its two counters. *)
Lemma setRecommendations_counts (aws : Provider) (exp0 exp : Expedition) (k : nat) :
  grouped exp0 k exp ->
  setRecommendations aws exp =
  Done (tt, setRecommendations_result aws exp
              (flat_map (deletableIn exp) (Bars exp))
              (wrap64 (len (flat_map (retainedIn exp) (Bars exp))))
              (wrap64 (len (List.filter Bar.HasVol (Bars exp))))).
Proof.
  intros G.
  pose proof (collectDeletable_counts exp (grouped_valid _ _ _ G)) as Hcol.
  cbv zeta in Hcol. set (D := flat_map (deletableIn exp) (Bars exp)) in *.
  assert (Hfollow :
            Forall (fun b => exists p bar first rest n,
                        b = Some p /\
                        Bars (dedupe_plan (append_plan exp D)) !! p = Some bar /\
                        Bar.Nuggets bar = first :: rest /\
                        Nuggets (dedupe_plan (append_plan exp D)) !! first = Some n)
                   (map Nugget.parentBar D)).
  { apply Forall_forall. intros pb Hpb.
    apply list_elem_of_In, in_map_iff in Hpb as (nug & <- & Hnug).
    apply in_deletable in Hnug as (j & b & m & Hj & _ & Hm & Hlook & _).
    destruct (grouped_parent _ _ _ G j b m Hj Hm) as (nug' & Hnug' & _ & Hp).
    destruct (grouped_first _ _ _ G j b Hj) as (first & rest & n & Hmem & Hn & _).
    assert (nug' = nug) by congruence. subst nug'.
    exists j, b, first, rest, n. auto. }
  unfold setRecommendations.
  rewrite (bind_Done _ _ _ _ _ Hcol).
  unfold modify, get, mbind at 1 2 3 4 5, M_bind at 1 2 3 4 5.
  change (with_SnapToDelete _ _) with (dedupe_plan (append_plan exp D)).
  rewrite (bind_Done _ _ _ _ _ (totalGbsOf_spec _ _ Hfollow)).
  reflexivity.
Qed.

Lemma fold_tab_lines (l : list string) :
  forall msg : list string,
    fold_left (fun msg x => msg ++ [(tab ++ x)%string]) l msg
    = msg ++ map (String.append tab) l.
Proof.
  induction l as [|x l IH]; intros msg; cbn [fold_left map].
  - now rewrite app_nil_r.
  - rewrite IH, <- app_assoc. reflexivity.
Qed.

Lemma planLines_layout (exp : Expedition) (cA cH : Z) :
  exists intro caveat,
    planLines exp cA cH =
    [intro; caveat; "Delete the following LaunchTemplates first:"%string]
    ++ map (String.append tab) (LtsToDelete exp)
    ++ ["then delete the following LaunchConfigurations:"%string]
    ++ map (String.append tab) (LcsToDelete exp)
    ++ ["then delete the following AMIs:"%string]
    ++ map (String.append tab) (AmiToDelete exp)
    ++ ["then finally delete the following Snapshots:"%string]
    ++ map (String.append tab) (SnapToDelete exp)
    ++ [(Sprintf_d cH ++
         " snapshots were spared because their EBS volume still exists")%string;
        (Sprintf_d cA ++
         " snapshots were spared because they were associated with an " ++
         "autoscaling group, were shared directly to another account, " ++
         "or were registered as an AMI that was shared to another account.")%string].
Proof.
  eexists _, _. unfold planLines. cbv zeta.
  rewrite !fold_tab_lines. cbn [app]. rewrite <- !app_assoc. cbn [app].
  reflexivity.
Qed.

Lemma addSize_member (exp0 exp : Expedition) (k j : nat) (b : Bar.t) (t : Z) :
  grouped exp0 k exp -> Bars exp !! j = Some b -> Bar.HasVol b = false ->
  addSize exp t (Some j) = wrap64 (t + firstSize exp b).
Proof.
  intros G Hj Hhv.
  destruct (grouped_first _ _ _ G j b Hj) as (first & rest & n & Hmem & Hn & _).
  unfold addSize, firstSize. cbn [mbind option_bind]. rewrite Hj, Hhv, Hmem, Hn.
  reflexivity.
Qed.

Lemma fold_addSize_bar (exp0 exp : Expedition) (k j : nat) (b : Bar.t) :
  grouped exp0 k exp -> Bars exp !! j = Some b -> Bar.HasVol b = false ->
  forall (l : list Nugget.t) (t : Z),
    Forall (fun nug => Nugget.parentBar nug = Some j) l ->
    fold_left (addSize exp) (map Nugget.parentBar l) (wrap64 t)
    = wrap64 (t + len l * firstSize exp b).
Proof.
  intros G Hj Hhv. induction l as [|nug l IH]; intros t Hall.
  - cbn [map fold_left]. unfold len. cbn [length]. f_equal. lia.
  - apply Forall_cons in Hall as [Hp Hall]. cbn [map fold_left]. rewrite Hp.
    rewrite (addSize_member _ _ _ _ _ _ G Hj Hhv), wrap64_add_l, (IH _ Hall).
    f_equal. unfold len. cbn [length]. rewrite Nat2Z.inj_succ. lia.
Qed.

Lemma fold_addSize (exp0 exp : Expedition) (k : nat) :
  grouped exp0 k exp ->
  forall (post : list Bar.t) (t : Z),
    Forall (fun b => b ∈ Bars exp) post ->
    fold_left (addSize exp)
      (map Nugget.parentBar (flat_map (deletableIn exp) post)) (wrap64 t)
    = wrap64 (t + sumZ (map (fun b => len (deletableIn exp b) * firstSize exp b) post)).
Proof.
  intros G. induction post as [|b post IH]; intros t Hall.
  - cbn [flat_map map fold_left sumZ fold_right]. f_equal. lia.
  - apply Forall_cons in Hall as [Hb Hall].
    apply list_elem_of_lookup in Hb as (j & Hj).
    cbn [flat_map map sumZ fold_right]. rewrite map_app, fold_left_app.
    destruct (Bar.HasVol b) eqn:Hhv.
    + assert (Hd : deletableIn exp b = [])
        by (unfold deletableIn; now rewrite Hhv).
      rewrite Hd. cbn [map fold_left].
      rewrite (IH _ Hall). reflexivity.
    + rewrite (fold_addSize_bar _ _ _ _ _ G Hj Hhv).
      * rewrite (IH _ Hall), <- Z.add_assoc. reflexivity.
      * apply Forall_forall. intros nug Hnug.
        unfold deletableIn, membersOf in Hnug. rewrite Hhv in Hnug.
        apply list_elem_of_In, filter_In in Hnug as [Hnug _].
        apply list_elem_of_In, list_elem_of_omap in Hnug as (m & Hm & Hlook).
        destruct (grouped_parent _ _ _ G j b m Hj Hm) as (nug' & Hnug' & _ & Hp).
        congruence.
Qed.

Lemma with_recommendations_plan (exp : Expedition) (msg : list string) :
  recommendations (with_recommendations exp msg) = msg /\
  LtsToDelete (with_recommendations exp msg) = LtsToDelete exp /\
  LcsToDelete (with_recommendations exp msg) = LcsToDelete exp /\
  AmiToDelete (with_recommendations exp msg) = AmiToDelete exp /\
  SnapToDelete (with_recommendations exp msg) = SnapToDelete exp.
Proof. repeat split. Qed.

Lemma setRecommendations_result_fields (aws : Provider) (exp : Expedition)
    (D : list Nugget.t) (cA cH : Z) :
  let res := setRecommendations_result aws exp D cA cH in
  let planned := dedupe_plan (append_plan exp D) in
  recommendations res =
    planLines planned cA cH
    ++ [savingsLine aws (fold_left (addSize exp) (map Nugget.parentBar D) 0)
          (ebsSnapRate exp)] /\
  LtsToDelete res = LtsToDelete planned /\
  LcsToDelete res = LcsToDelete planned /\
  AmiToDelete res = AmiToDelete planned /\
  SnapToDelete res = SnapToDelete planned.
Proof.
  cbv zeta. unfold setRecommendations_result. cbv zeta.
  exact (with_recommendations_plan _ _).
Qed.

(** X17: after aggregation, [setRecommendations] returns and lays the
    report out as two opening paragraphs, then the four plan sequences under
    their headings in the order launch templates, launch configurations,
    images, snapshots, each entry behind a tab, then two counter lines and
    the cost line. The counter of the line on existing volumes is the
    number of bars whose flag is set (one per volume, however many
    snapshots the bar holds), the other one the number of members of the
    remaining bars that did not enter the plan. *)
Theorem report_layout_and_counters (aws : Provider) (exp0 exp : Expedition) :
  Bars exp0 = [] ->
  addBars exp0 = Done (tt, exp) ->
  exists exp' intro caveat cost,
    setRecommendations aws exp = Done (tt, exp') /\
    recommendations exp' =
    report intro caveat
      (LtsToDelete exp') (LcsToDelete exp') (AmiToDelete exp') (SnapToDelete exp')
      (wrap64 (len (List.filter Bar.HasVol (Bars exp))))
      (wrap64 (len (flat_map (retainedIn exp) (Bars exp))))
      cost.
Proof.
  intros HB Hrun.
  destruct (addBars_grouped exp0 HB) as (exp1 & Hrun1 & G).
  assert (exp1 = exp) by congruence. subst exp1.
  pose proof (setRecommendations_counts aws _ _ _ G) as Hset.
  destruct (setRecommendations_result_fields aws exp
              (flat_map (deletableIn exp) (Bars exp))
              (wrap64 (len (flat_map (retainedIn exp) (Bars exp))))
              (wrap64 (len (List.filter Bar.HasVol (Bars exp)))))
    as (Hrec & HLt & HLc & HAm & HSn).
  destruct (planLines_layout
              (dedupe_plan (append_plan exp (flat_map (deletableIn exp) (Bars exp))))
              (wrap64 (len (flat_map (retainedIn exp) (Bars exp))))
              (wrap64 (len (List.filter Bar.HasVol (Bars exp)))))
    as (intro & caveat & Hlines).
  eexists _, intro, caveat, _.
  split; [exact Hset|].
  rewrite Hrec, HLt, HLc, HAm, HSn, Hlines. unfold report.
  rewrite <- !app_assoc. reflexivity.
Qed.

Lemma report_of_mixed_records :
  Bars mixed_records = [] /\
  map Bar.Nuggets (Bars (bars_of mixed_records)) = [[0; 1; 2]; [3; 4]]%nat /\
  exists exp' intro caveat cost,
    setRecommendations lone_snapshot (bars_of mixed_records) = Done (tt, exp') /\
    recommendations exp' =
    report intro caveat
      (LtsToDelete exp') (LcsToDelete exp') (AmiToDelete exp') (SnapToDelete exp')
      1 1 cost.
Proof.
  split; [reflexivity|]. split; [vm_compute; reflexivity|].
  assert (Hrun : addBars mixed_records = Done (tt, bars_of mixed_records))
    by (vm_compute; reflexivity).
  destruct (report_layout_and_counters lone_snapshot mixed_records
              (bars_of mixed_records) eq_refl Hrun)
    as (exp' & intro & caveat & cost & Hset & Hrec).
  assert (HcH : wrap64 (len (List.filter Bar.HasVol (Bars (bars_of mixed_records)))) = 1)
    by (vm_compute; reflexivity).
  assert (HcA : wrap64 (len (flat_map (retainedIn (bars_of mixed_records))
                               (Bars (bars_of mixed_records)))) = 1)
    by (vm_compute; reflexivity).
  rewrite HcH, HcA in Hrec.
  exists exp', intro, caveat, cost. split; [exact Hset | exact Hrec].
Defined.

(** X18: the size in the cost line is, for every bar without volume, the
    size of the bar's first member multiplied by the number of its members
    that entered the plan, summed over the bars (in 64-bit arithmetic): the
    members' own sizes are not read. *)
Theorem cost_is_first_member_size_per_planned_member
    (aws : Provider) (exp0 exp : Expedition) :
  Bars exp0 = [] ->
  addBars exp0 = Done (tt, exp) ->
  exists exp',
    setRecommendations aws exp = Done (tt, exp') /\
    last (recommendations exp') =
    Some (savingsLine aws
            (wrap64 (sumZ (map (fun b => len (deletableIn exp b) * firstSize exp b)
                               (Bars exp))))
            (ebsSnapRate exp)).
Proof.
  intros HB Hrun.
  destruct (addBars_grouped exp0 HB) as (exp1 & Hrun1 & G).
  assert (exp1 = exp) by congruence. subst exp1.
  eexists. split; [exact (setRecommendations_counts aws _ _ _ G)|].
  destruct (setRecommendations_result_fields aws exp
              (flat_map (deletableIn exp) (Bars exp))
              (wrap64 (len (flat_map (retainedIn exp) (Bars exp))))
              (wrap64 (len (List.filter Bar.HasVol (Bars exp)))))
    as (Hrec & _).
  rewrite Hrec, last_snoc.
  pose proof (fold_addSize _ _ _ G (Bars exp) 0) as Hsum.
  rewrite Z.add_0_l in Hsum. rewrite <- Hsum; [reflexivity|].
  apply Forall_forall. auto.
Qed.

Lemma cost_of_mixed_records :
  Bars mixed_records = [] /\
  map (firstSize (bars_of mixed_records)) (Bars (bars_of mixed_records)) = [30; 8] /\
  exists exp',
    setRecommendations lone_snapshot (bars_of mixed_records) = Done (tt, exp') /\
    last (recommendations exp') =
    Some (savingsLine lone_snapshot 60 (ebsSnapRate (bars_of mixed_records))).
Proof.
  split; [reflexivity|]. split; [vm_compute; reflexivity|].
  assert (Hrun : addBars mixed_records = Done (tt, bars_of mixed_records))
    by (vm_compute; reflexivity).
  destruct (cost_is_first_member_size_per_planned_member lone_snapshot mixed_records
              (bars_of mixed_records) eq_refl Hrun)
    as (exp' & Hset & Hlast).
  assert (Hsum : wrap64 (sumZ (map (fun b => len (deletableIn (bars_of mixed_records) b)
                                             * firstSize (bars_of mixed_records) b)
                                  (Bars (bars_of mixed_records)))) = 60)
    by (vm_compute; reflexivity).
  rewrite Hsum in Hlast.
  exists exp'. split; [exact Hset | exact Hlast].
Defined.


(** ** Blockers in the plan *)

(** X19: in every completed run of a new expedition the plan is closed
    under what blocks its snapshots: every launch template, launch
    configuration and image recorded on a record that entered the plan (a
    member without autoscaling group and sharing account of a bar without
    volume) is in the plan's sequence of its kind, and none of the three
    sequences repeats a name. *)
Theorem plan_lists_every_blocker_once (aws : Provider) (input : ExpeditionInput)
    (exp' : Expedition) :
  Start aws (fst (New input)) = Done (None, exp') ->
  NoDup (LtsToDelete exp') /\ NoDup (LcsToDelete exp') /\ NoDup (AmiToDelete exp') /\
  forall j b m nug,
    Bars exp' !! j = Some b -> Bar.HasVol b = false -> m ∈ Bar.Nuggets b ->
    Nuggets exp' !! m = Some nug ->
    Nugget.ASGs nug = [] -> Nugget.AMISharedWith nug = [] ->
    In (ec2.Snapshot.SnapshotId (Nugget.Snap nug)) (SnapToDelete exp') /\
    (forall x, In x (Nugget.LTs nug) -> In x (LtsToDelete exp')) /\
    (forall x, In x (Nugget.LCs nug) -> In x (LcsToDelete exp')) /\
    (forall x, In x (Nugget.AMIIDs nug) -> In x (AmiToDelete exp')).
Proof.
  intros Hstart.
  destruct (New_fresh input) as (HB & _ & HLt & HLc & HAm & HSn & _).
  apply Start_cases in Hstart as [(e & He & _)|(_ & exp1 & Hun & Hagg)];
    [discriminate|].
  destruct Hun as [HB1 HLt1 HLc1 HAm1 HSn1 _ _ _ _].
  destruct (plan_of_aggregation aws exp1 exp'
              ltac:(congruence) ltac:(congruence) ltac:(congruence)
              ltac:(congruence) ltac:(congruence) Hagg)
    as (exp2 & G & HBars & HNug & HLts & HLcs & HAmi & HSnap).
  rewrite HLts, HLcs, HAmi, HSnap.
  split_and!; try apply dedupeString_NoDup.
  intros j b m nug Hj Hhv Hm Hlook Hasg Hsh.
  assert (HD : In nug (flat_map (deletableIn exp2) (Bars exp2))).
  { apply in_deletable. exists j, b, m. rewrite <- HBars, <- HNug.
    split_and!; assumption. }
  split_and!.
  - apply dedupeString_In, in_map_iff. exists nug. split; [reflexivity | exact HD].
  - intros x Hx. apply dedupeString_In, in_flat_map. exists nug. split; assumption.
  - intros x Hx. apply dedupeString_In, in_flat_map. exists nug. split; assumption.
  - intros x Hx. apply dedupeString_In, in_flat_map. exists nug. split; assumption.
Qed.

Lemma plan_of_two_launch_configs :
  Start two_launch_configs (fst (New default_input))
  = Done (None, state_after two_launch_configs default_input) /\
  LcsToDelete (state_after two_launch_configs default_input)
  = ["lc-1"%string; "lc-2"%string] /\
  NoDup (LcsToDelete (state_after two_launch_configs default_input)).
Proof.
  assert (H : Start two_launch_configs (fst (New default_input))
              = Done (None, state_after two_launch_configs default_input))
    by (vm_compute; reflexivity).
  split; [exact H|]. split; [vm_compute; reflexivity|].
  exact (proj1 (proj2 (plan_lists_every_blocker_once _ _ _ H))).
Defined.


(** ** Export of the bars *)

Lemma sids_loop (exp : Expedition) (members : list nat) :
  forall sids : list string,
    Forall (fun m => is_Some (Nuggets exp !! m)) members ->
    rangeM (fun sids n =>
              nug ← derefNugget n;
              mret (sids ++ [ec2.Snapshot.SnapshotId (Nugget.Snap nug)]))
           members sids exp
    = Done (sids ++ map (fun nug => ec2.Snapshot.SnapshotId (Nugget.Snap nug))
                        (omap (fun m => Nuggets exp !! m) members), exp).
Proof.
  induction members as [|m ms IH]; intros sids Hvalid.
  - cbn. now rewrite app_nil_r.
  - apply Forall_cons in Hvalid as [[nug Hm] Hvalid].
    cbn [rangeM omap list_omap]. rewrite Hm. cbn [map].
    unfold mbind at 1, M_bind at 1. unfold mbind at 1, M_bind at 1.
    rewrite (derefNugget_Some _ _ _ Hm). cbn [mret M_ret].
    rewrite (IH _ Hvalid), <- app_assoc. reflexivity.
Qed.

Lemma Bar_dumpString_row (time_Format : Z -> string) (exp : Expedition) (b : Bar.t) :
  Bar.Nuggets b <> [] ->
  Forall (fun m => is_Some (Nuggets exp !! m)) (Bar.Nuggets b) ->
  Bar_dumpString time_Format b exp = Done (barRow time_Format exp b, exp).
Proof.
  intros Hne Hvalid. unfold Bar_dumpString, barRow, membersOf.
  rewrite (bind_Done _ _ _ _ _ (sids_loop exp (Bar.Nuggets b) [] Hvalid)).
  destruct (Bar.Nuggets b) as [|first rest] eqn:Hmem; [congruence|].
  apply Forall_cons in Hvalid as [[n Hn] Hvalid].
  cbn [omap list_omap app]. rewrite Hn. cbn [map].
  set (ids := map _ (omap _ rest)).
  assert (Hssid : ((if 1 <? len (ec2.Snapshot.SnapshotId (Nugget.Snap n) :: ids)
                    then mret (strings_Join
                                 (ec2.Snapshot.SnapshotId (Nugget.Snap n) :: ids) "|")
                    else mret (ec2.Snapshot.SnapshotId (Nugget.Snap n))) : M string) exp
                  = Done (strings_Join
                            (ec2.Snapshot.SnapshotId (Nugget.Snap n) :: ids) "|", exp)).
  { destruct (Z.ltb_spec 1 (len (ec2.Snapshot.SnapshotId (Nugget.Snap n) :: ids)))
      as [|Hle]; [reflexivity|].
    destruct ids; [reflexivity|]. unfold len in Hle. cbn [length] in Hle. lia. }
  rewrite (bind_Done _ _ _ _ _ Hssid).
  rewrite (bind_Done _ _ _ _ _ (derefNugget_Some _ _ _ Hn)).
  reflexivity.
Qed.

Lemma rows_loop (time_Format : Z -> string) (exp : Expedition) (post : list Bar.t) :
  forall (pre : list Bar.t) (written : list (list string)),
    Bars exp = pre ++ post ->
    Forall (fun b => Bar.Nuggets b <> [] /\
                     Forall (fun m => is_Some (Nuggets exp !! m)) (Bar.Nuggets b))
           post ->
    rangeM (fun written bar =>
              b ← derefBar bar;
              row ← Bar_dumpString time_Format b;
              mret (written ++ [row]))
           (seq (length pre) (length post)) written exp
    = Done (written ++ map (barRow time_Format exp) post, exp).
Proof.
  induction post as [|b post IH]; intros pre written HB Hall.
  - cbn. now rewrite app_nil_r.
  - apply Forall_cons in Hall as [[Hne Hvalid] Hall].
    assert (Hlook : Bars exp !! length pre = Some b).
    { rewrite HB. now apply list_lookup_middle. }
    cbn [length seq rangeM map].
    unfold mbind at 1, M_bind at 1. unfold mbind at 1, M_bind at 1.
    rewrite (derefBar_Some _ _ _ Hlook).
    rewrite (bind_Done _ _ _ _ _ (Bar_dumpString_row time_Format exp b Hne Hvalid)).
    cbn [mret M_ret].
    replace (S (length pre)) with (length (pre ++ [b]))
      by (rewrite length_app; simpl; lia).
    rewrite (IH (pre ++ [b]) _ ltac:(now rewrite <- app_assoc) Hall).
    now rewrite <- app_assoc.
Qed.

(** X20: after aggregation [ExportBars] does not panic: it hands the csv
    writer the header and then one record of five fields per bar, in the
    order of the bars, holding the owner, date and size of the bar's first
    member, the bar's flag, and the snapshot ids of all its members joined
    by a bar sign. On a bar without members [Bar.dumpString] panics with an
    index out of range; [addBars] builds no such bar. When the file cannot
    be created nothing is written and the error is returned. *)
Theorem ExportBars_writes_one_row_per_bar
    (time_Format : Z -> string) (exp0 exp : Expedition) :
  Bars exp0 = [] ->
  addBars exp0 = Done (tt, exp) ->
  ExportBars time_Format None exp
  = Done ((None, bars_header :: map (barRow time_Format exp) (Bars exp)), exp) /\
  Forall (fun b => length (barRow time_Format exp b) = length bars_header) (Bars exp) /\
  (forall e, ExportBars time_Format (Some e) exp = Done ((Some e, []), exp)) /\
  (forall b exp1, Bar.Nuggets b = [] ->
                  Bar_dumpString time_Format b exp1 = Panic index_out_of_range).
Proof.
  intros HB Hrun.
  destruct (addBars_grouped exp0 HB) as (exp1 & Hrun1 & G).
  assert (exp1 = exp) by congruence. subst exp1.
  assert (Hall : Forall (fun b => Bar.Nuggets b <> [] /\
                     Forall (fun m => is_Some (Nuggets exp !! m)) (Bar.Nuggets b))
                   (Bars exp)).
  { apply Forall_forall. intros b Hb.
    apply list_elem_of_lookup in Hb as (j & Hj). split.
    - destruct (grouped_first _ _ _ G j b Hj) as (m & rest & n & Hmem & _).
      rewrite Hmem. discriminate.
    - apply Forall_forall. intros m Hm.
      destruct (grouped_parent _ _ _ G j b m Hj Hm) as (nug & Hnug & _). eauto. }
  split_and!.
  - unfold ExportBars, pointers. unfold mbind at 1, M_bind at 1, get.
    rewrite (bind_Done _ _ _ _ _
               (rows_loop time_Format exp (Bars exp) [] [bars_header] eq_refl Hall)).
    reflexivity.
  - apply Forall_forall. intros b Hb.
    apply list_elem_of_lookup in Hb as (j & Hj).
    destruct (grouped_first _ _ _ G j b Hj) as (m & rest & n & Hmem & Hn & _).
    unfold barRow, membersOf. rewrite Hmem. cbn [omap list_omap]. rewrite Hn.
    reflexivity.
  - reflexivity.
  - intros b exp1 Hmem. unfold Bar_dumpString. rewrite Hmem. reflexivity.
Qed.

Lemma ExportBars_of_mixed_records :
  Bars mixed_records = [] /\
  exists rows,
    ExportBars (fun _ => "2018-06-01"%string) None (bars_of mixed_records)
    = Done ((None, bars_header :: rows), bars_of mixed_records) /\
    map (fun row => nth 1 row ""%string) rows
    = ["snap-1|snap-2|snap-3"; "snap-4|snap-5"]%string.
Proof.
  split; [reflexivity|].
  assert (Hrun : addBars mixed_records = Done (tt, bars_of mixed_records))
    by (vm_compute; reflexivity).
  destruct (ExportBars_writes_one_row_per_bar (fun _ => "2018-06-01"%string)
              mixed_records (bars_of mixed_records) eq_refl Hrun)
    as (Hrows & _).
  eexists. split; [exact Hrows|]. vm_compute. reflexivity.
Defined.


(** ** The record correlation leaves *)

(** A loop that returns no error has run all its rounds; what the rounds
    collect adds up. *)
Lemma rangeE_collects {A : Type} (Q : list string -> Expedition -> Prop)
      (f : A -> list string) (body : A -> M (option Error)) (xs : list A) :
  forall (h : list string) (e e' : Expedition),
    Q h e ->
    rangeE body xs e = Done (None, e') ->
    (forall x h e e', Q h e -> body x e = Done (None, e') -> Q (h ++ f x) e') ->
    Q (h ++ flat_map f xs) e'.
Proof.
  induction xs as [|x xs IH]; intros h e e' HQ Hrun Hstep.
  - injection Hrun as <-. cbn. now rewrite app_nil_r.
  - cbn [rangeE] in Hrun. unfold mbind, M_bind in Hrun.
    destruct (body x e) as [[[err|] e1]|] eqn:Hb; try discriminate.
    cbn [flat_map]. rewrite app_assoc.
    apply (IH _ e1 e'); [eapply Hstep; eassumption | exact Hrun | exact Hstep].
Qed.

Lemma fold_with_ASGs_images {A : Type} (f : A -> list string) (l : list A) :
  forall snap,
    Nugget.AMIIDs (fold_left (fun snap x => Nugget.with_ASGs snap (f x)) l snap)
    = Nugget.AMIIDs snap.
Proof.
  induction l as [|x l IH]; intros snap; cbn [fold_left]; [reflexivity|].
  now rewrite IH.
Qed.

Lemma correlate_Done_complete (lcs : list autoscaling.LaunchConfiguration.t)
      (lts : list ec2.LaunchTemplateVersion.t) (asgs : list autoscaling.Group.t)
      (imageId : string) (nug r : Nugget.t) :
  correlate lcs lts asgs imageId nug = Done r -> forallb ltComplete lts = true.
Proof.
  unfold correlate. rewrite ltsWithSnapImage_closed.
  now destruct (forallb ltComplete lts).
Qed.

Lemma matched_Snap (aws : Provider) (lcs : list autoscaling.LaunchConfiguration.t)
      (lts : list ec2.LaunchTemplateVersion.t) (asgs : list autoscaling.Group.t)
      (imageId : string) (nug : Nugget.t) :
  Nugget.Snap (matched aws lcs lts asgs imageId nug) = Nugget.Snap nug.
Proof.
  unfold matched.
  destruct (correlate lcs lts asgs imageId nug) as [r|] eqn:Hcor; [|reflexivity].
  pose proof (correlate_intake_part _ _ _ _ _ _ Hcor) as Hpart.
  now injection Hpart as HSnap _ _.
Qed.

Lemma matched_fields (aws : Provider) (lcs : list autoscaling.LaunchConfiguration.t)
      (lts : list ec2.LaunchTemplateVersion.t) (asgs : list autoscaling.Group.t)
      (imageId : string) (nug : Nugget.t) :
  forallb ltComplete lts = true ->
  let nug' := matched aws lcs lts asgs imageId nug in
  let snapshotId := ec2.Snapshot.SnapshotId (Nugget.Snap nug) in
  Nugget.AMIIDs nug' = Nugget.AMIIDs nug ++ [imageId] /\
  Nugget.AMISharedWith nug' = fst (imageSharedTo aws imageId) /\
  Nugget.LCs nug' = lcsWithSnapImage lcs snapshotId imageId /\
  ltsWithSnapImage lts snapshotId imageId = Done (Nugget.LTs nug').
Proof.
  intros Hok. cbv zeta. unfold matched, correlate.
  rewrite ltsWithSnapImage_closed, Hok. cbn [mbind Outcome_bind].
  set (s1 := Nugget.with_LTs _ _).
  destruct (fold_with_ASGs (fun lc => snd (lcInASGs lc asgs)) (Nugget.LCs s1) s1)
    as (_ & H2 & H3).
  pose proof (fold_with_ASGs_images (fun lc => snd (lcInASGs lc asgs))
                (Nugget.LCs s1) s1) as H1.
  set (s2 := fold_left _ (Nugget.LCs s1) s1) in *.
  destruct (fold_with_ASGs (fun lt => snd (ltInASGs lt asgs)) (Nugget.LTs s2) s2)
    as (_ & H5 & H6).
  pose proof (fold_with_ASGs_images (fun lt => snd (ltInASGs lt asgs))
                (Nugget.LTs s2) s2) as H4.
  cbv zeta in *.
  set (s3 := fold_left _ (Nugget.LTs s2) s2) in *.
  change (Nugget.AMIIDs (Nugget.with_AMISharedWith s3 ?a)) with (Nugget.AMIIDs s3).
  change (Nugget.AMISharedWith (Nugget.with_AMISharedWith s3 ?a)) with a.
  change (Nugget.LCs (Nugget.with_AMISharedWith s3 ?a)) with (Nugget.LCs s3).
  change (Nugget.LTs (Nugget.with_AMISharedWith s3 ?a)) with (Nugget.LTs s3).
  rewrite H4, H1, H5, H2, H6, H3. split_and!; reflexivity.
Qed.

Lemma fold_matched_Snap (aws : Provider)
      (lcs : list autoscaling.LaunchConfiguration.t)
      (lts : list ec2.LaunchTemplateVersion.t) (asgs : list autoscaling.Group.t)
      (h : list string) :
  forall nug,
    Nugget.Snap (fold_left (fun n ami => matched aws lcs lts asgs ami n) h nug)
    = Nugget.Snap nug.
Proof.
  induction h as [|ami h IH]; intros nug; cbn [fold_left]; [reflexivity|].
  now rewrite IH, matched_Snap.
Qed.

Lemma fold_matched (aws : Provider) (lcs : list autoscaling.LaunchConfiguration.t)
      (lts : list ec2.LaunchTemplateVersion.t) (asgs : list autoscaling.Group.t)
      (h : list string) :
  forallb ltComplete lts = true ->
  forall nug,
    Nugget.AMIIDs (fold_left (fun n ami => matched aws lcs lts asgs ami n) h nug)
    = Nugget.AMIIDs nug ++ h.
Proof.
  intros Hok. induction h as [|ami h IH]; intros nug; cbn [fold_left].
  - now rewrite app_nil_r.
  - destruct (matched_fields aws lcs lts asgs ami nug Hok) as (HA1 & _).
    cbv zeta in HA1. rewrite IH, HA1, <- app_assoc. reflexivity.
Qed.

Lemma mapping_of_self (ami sid : string) (bdms : list ec2.BlockDeviceMapping.t) :
  flat_map (fun bdm => if true && imageMapsSnapshot sid bdm then [ami] else []) bdms
  = map (fun _ => ami) (List.filter (imageMapsSnapshot sid) bdms).
Proof.
  induction bdms as [|bdm bdms IHb]; cbn [flat_map List.filter]; [reflexivity|].
  rewrite IHb. now destruct (imageMapsSnapshot sid bdm).
Qed.

Lemma mapping_of_other (ami sid : string) (bdms : list ec2.BlockDeviceMapping.t) :
  flat_map (fun bdm => if false && imageMapsSnapshot sid bdm then [ami] else []) bdms
  = [].
Proof. induction bdms as [|bdm bdms IHb]; cbn; auto. Qed.

Lemma mapping_of_pointer (m : nat) (ami sid : string)
      (bdms : list ec2.BlockDeviceMapping.t) (n : nat) :
  forall a : nat,
    flat_map
      (fun p => flat_map
                  (fun bdm => if (p =? m)%nat && imageMapsSnapshot sid bdm
                              then [ami] else [])
                  bdms)
      (seq a n)
    = if (a <=? m)%nat && (m <? a + n)%nat
      then map (fun _ => ami) (List.filter (imageMapsSnapshot sid) bdms)
      else [].
Proof.
  induction n as [|n IH]; intros a; cbn [seq flat_map].
  - destruct (Nat.leb_spec a m), (Nat.ltb_spec m (a + 0)); cbn; try reflexivity. lia.
  - rewrite IH. destruct (Nat.eqb_spec a m) as [->|Hne].
    + replace ((S m <=? m)%nat) with false by (symmetry; apply Nat.leb_gt; lia).
      replace ((m <=? m)%nat) with true by (symmetry; apply Nat.leb_le; lia).
      replace ((m <? m + S n)%nat) with true by (symmetry; apply Nat.ltb_lt; lia).
      cbn [andb]. rewrite app_nil_r. apply mapping_of_self.
    + rewrite mapping_of_other. cbn [app].
      destruct (Nat.leb_spec a m), (Nat.leb_spec (S a) m),
               (Nat.ltb_spec m (a + S n)), (Nat.ltb_spec m (S a + n));
        cbn [andb]; try reflexivity; lia.
Qed.

Lemma populateNuggets_completed (aws : Provider) (exp exp' : Expedition) :
  populateNuggets aws exp = Done (None, exp') ->
  let lcs := fst (describeLaunchConfigurations aws) in
  let lts := fst (describeLaunchTemplates aws) in
  let images := fst (describeImagesOwnedByThisAccount aws) in
  let asgs := fst (describeASGs aws) in
  rangeE
    (fun image =>
       rangeE
         (fun snap =>
            rangeE
              (fun bdm =>
                 match ec2.BlockDeviceMapping.Ebs bdm with
                 | Some ebs =>
                     match ec2.EbsBlockDevice.SnapshotId ebs with
                     | Some bdmSnap =>
                         nug ← derefNugget snap;
                         if String.eqb (ec2.Snapshot.SnapshotId (Nugget.Snap nug))
                                       bdmSnap
                         then
                           nug ← liftO
                                   (correlate lcs lts asgs (ec2.Image.ImageId image) nug);
                           let '(accts, err) :=
                             imageSharedTo aws (ec2.Image.ImageId image) in
                           _ ← storeNugget snap (Nugget.with_AMISharedWith nug accts);
                           mret err
                         else mret None
                     | None => mret None
                     end
                 | None => mret None
                 end)
              (ec2.Image.BlockDeviceMappings image))
         (pointers (Nuggets exp)))
    images exp = Done (None, exp').
Proof.
  unfold populateNuggets.
  destruct (describeLaunchConfigurations aws) as [lcs [e|]]; [discriminate|].
  destruct (describeLaunchTemplates aws) as [lts [e|]]; [discriminate|].
  destruct (describeImagesOwnedByThisAccount aws) as [images [e|]]; [discriminate|].
  destruct (describeASGs aws) as [asgs [e|]]; [discriminate|].
  intros H. exact H.
Qed.

(** What a completed correlation has done to the record [m]: one round per
    image mapping its snapshot, in listing order, each with a sharing
    lookup that returned no error. *)
Lemma populateNuggets_hits (aws : Provider) (exp exp' : Expedition)
      (m : nat) (nug : Nugget.t) :
  populateNuggets aws exp = Done (None, exp') ->
  Nuggets exp !! m = Some nug ->
  let lcs := fst (describeLaunchConfigurations aws) in
  let lts := fst (describeLaunchTemplates aws) in
  let asgs := fst (describeASGs aws) in
  let hits := mappingImages (fst (describeImagesOwnedByThisAccount aws))
                (ec2.Snapshot.SnapshotId (Nugget.Snap nug)) in
  Nuggets exp' !! m
  = Some (fold_left (fun n ami => matched aws lcs lts asgs ami n) hits nug) /\
  (hits <> [] -> forallb ltComplete lts = true) /\
  Forall (fun ami => snd (imageSharedTo aws ami) = None) hits.
Proof.
  intros Hrun Hm. cbv zeta.
  set (snapshotId := ec2.Snapshot.SnapshotId (Nugget.Snap nug)).
  set (hits := mappingImages _ snapshotId).
  apply populateNuggets_completed in Hrun. cbv zeta in Hrun.
  set (lcs := fst (describeLaunchConfigurations aws)) in *.
  set (lts := fst (describeLaunchTemplates aws)) in *.
  set (asgs := fst (describeASGs aws)) in *.
  set (images := fst (describeImagesOwnedByThisAccount aws)) in *.
  set (hit := fun (n : Nugget.t) (ami : string) => matched aws lcs lts asgs ami n).
  set (Q := fun (h : list string) (e : Expedition) =>
              Nuggets e !! m = Some (fold_left hit h nug) /\
              (h <> [] -> forallb ltComplete lts = true) /\
              Forall (fun ami => snd (imageSharedTo aws ami) = None) h).
  assert (HQ : Q [] exp) by (split; [exact Hm | split; [congruence | constructor]]).
  pose proof (rangeE_collects Q
                (fun image =>
                   flat_map
                     (fun p => flat_map
                                 (fun bdm =>
                                    if (p =? m)%nat && imageMapsSnapshot snapshotId bdm
                                    then [ec2.Image.ImageId image] else [])
                                 (ec2.Image.BlockDeviceMappings image))
                     (pointers (Nuggets exp)))
                _ _ _ _ _ HQ Hrun) as Hall.
  cbn [app] in Hall.
  assert (Hhits : flat_map
                    (fun image =>
                       flat_map
                         (fun p => flat_map
                                     (fun bdm =>
                                        if (p =? m)%nat && imageMapsSnapshot snapshotId bdm
                                        then [ec2.Image.ImageId image] else [])
                                     (ec2.Image.BlockDeviceMappings image))
                         (pointers (Nuggets exp)))
                    images = hits).
  { unfold hits, mappingImages. fold images. apply flat_map_ext. intros image.
    unfold pointers. rewrite mapping_of_pointer.
    apply lookup_lt_Some in Hm.
    replace ((0 <=? m)%nat) with true by (symmetry; apply Nat.leb_le; lia).
    replace ((m <? 0 + length (Nuggets exp))%nat) with true
      by (symmetry; apply Nat.ltb_lt; lia).
    reflexivity. }
  rewrite Hhits in Hall.
  assert (Hfinal : Q hits exp').
  { apply Hall. clear Hall Hhits HQ Hrun.
    intros image h e e' HQ Hrun.
    apply (rangeE_collects Q _ _ _ _ _ _ HQ Hrun). clear HQ Hrun h e e'.
    intros p h e e' HQ Hrun.
    apply (rangeE_collects Q _ _ _ _ _ _ HQ Hrun). clear HQ Hrun h e e'.
    intros bdm h e e' HQ Hbody.
    unfold imageMapsSnapshot.
    destruct (ec2.BlockDeviceMapping.Ebs bdm) as [ebs|];
      [|injection Hbody as <-; now rewrite andb_false_r, app_nil_r].
    destruct (ec2.EbsBlockDevice.SnapshotId ebs) as [bdmSnap|];
      [|injection Hbody as <-; now rewrite andb_false_r, app_nil_r].
    unfold mbind, M_bind, derefNugget in Hbody.
    destruct (Nuggets e !! p) as [nug1|] eqn:Hp; [|discriminate].
    destruct HQ as (HQ & Hok & Hsh0).
    destruct (Nat.eqb_spec p m) as [->|Hne]; cbn [andb].
    - assert (nug1 = fold_left hit h nug) by congruence.
      subst nug1.
      pose proof (fold_matched_Snap aws lcs lts asgs h nug) as HS.
      fold hit in HS. rewrite HS in Hbody. fold snapshotId in Hbody.
      destruct (String.eqb snapshotId bdmSnap);
        [|injection Hbody as <-; rewrite app_nil_r; split; [|split]; assumption].
      unfold liftO in Hbody.
      destruct (correlate lcs lts asgs (ec2.Image.ImageId image)
                  (fold_left hit h nug)) as [nug2|] eqn:Hcor; [|discriminate].
      destruct (imageSharedTo aws (ec2.Image.ImageId image)) as [accts err] eqn:Hsh.
      cbn in Hbody. injection Hbody as -> <-.
      split;
        [|split; [intros _; exact (correlate_Done_complete _ _ _ _ _ _ Hcor)|];
          apply Forall_app; split; [exact Hsh0|];
          constructor; [now rewrite Hsh | constructor]].
      cbn [Nuggets with_Nuggets].
      rewrite fold_left_app. cbn [fold_left].
      rewrite list_lookup_insert_eq by (eapply lookup_lt_Some; exact Hp).
      assert (Hhit : hit (fold_left hit h nug) (ec2.Image.ImageId image)
                     = Nugget.with_AMISharedWith nug2 accts)
        by (unfold hit at 1, matched; now rewrite Hcor, Hsh).
      now rewrite Hhit.
    - rewrite app_nil_r.
      destruct (String.eqb _ bdmSnap);
        [|injection Hbody as <-; split; [|split]; assumption].
      unfold liftO in Hbody.
      destruct (correlate lcs lts asgs (ec2.Image.ImageId image) nug1)
        as [nug2|]; [|discriminate].
      destruct (imageSharedTo aws (ec2.Image.ImageId image)) as [accts err].
      cbn in Hbody. injection Hbody as _ <-.
      split; [|split; assumption]. cbn [Nuggets with_Nuggets].
      now rewrite list_lookup_insert_ne. }
  exact Hfinal.
Qed.

(** X21: when [populateNuggets] returns without error, a record has gained
    one image id for every mapping of its snapshot by an image of the
    account, in listing order; its sharing accounts, launch configurations
    and launch templates are those found for the last of these images
    alone, what earlier images gave being replaced; a record that no image
    maps is as before. *)
Theorem populateNuggets_last_image_decides (aws : Provider) (exp exp' : Expedition)
    (m : nat) (nug : Nugget.t) :
  populateNuggets aws exp = Done (None, exp') ->
  Nuggets exp !! m = Some nug ->
  let snapshotId := ec2.Snapshot.SnapshotId (Nugget.Snap nug) in
  let hits := mappingImages (fst (describeImagesOwnedByThisAccount aws)) snapshotId in
  exists nug',
    Nuggets exp' !! m = Some nug' /\
    Nugget.AMIIDs nug' = Nugget.AMIIDs nug ++ hits /\
    match last hits with
    | None => nug' = nug
    | Some ami =>
        Nugget.AMISharedWith nug' = fst (imageSharedTo aws ami) /\
        Nugget.LCs nug'
        = lcsWithSnapImage (fst (describeLaunchConfigurations aws)) snapshotId ami /\
        ltsWithSnapImage (fst (describeLaunchTemplates aws)) snapshotId ami
        = Done (Nugget.LTs nug')
    end.
Proof.
  intros Hrun Hm snapshotId hits.
  destruct (populateNuggets_hits aws exp exp' m nug Hrun Hm) as (Hfinal & Hok & _).
  cbv zeta in Hfinal, Hok. fold snapshotId in Hfinal, Hok. fold hits in Hfinal, Hok.
  set (lcs := fst (describeLaunchConfigurations aws)) in *.
  set (lts := fst (describeLaunchTemplates aws)) in *.
  set (asgs := fst (describeASGs aws)) in *.
  set (hit := fun (n : Nugget.t) (ami : string) => matched aws lcs lts asgs ami n) in *.
  exists (fold_left hit hits nug). split; [exact Hfinal|].
  destruct (last hits) as [ami|] eqn:Hlast.
  - assert (Hne : hits <> []).
    { intros Hnil. rewrite Hnil in Hlast. discriminate. }
    specialize (Hok Hne).
    split; [exact (fold_matched aws lcs lts asgs hits Hok nug)|].
    apply last_Some in Hlast as (h' & Hh'). rewrite Hh', fold_left_app.
    cbn [fold_left]. unfold hit at 1.
    destruct (matched_fields aws lcs lts asgs ami (fold_left hit h' nug) Hok)
      as (_ & HSh & HLc & HLt).
    pose proof (fold_matched_Snap aws lcs lts asgs h' nug) as HS'.
    cbv zeta in *. fold hit in HS'. rewrite HS' in HLc, HLt.
    split_and!; assumption.
  - apply last_None in Hlast. rewrite Hlast. cbn [fold_left].
    split; [now rewrite app_nil_r | reflexivity].
Qed.

Lemma populateNuggets_forgets_shared_image :
  let exp := with_Nuggets (fst (New default_input))
               [Nugget.new (snapshot "snap-1" "vol-9" 5 8)] in
  fst (imageSharedTo shared_then_private "ami-1") = ["999988887777"%string] /\
  populateNuggets shared_then_private exp
  = Done (None, correlated shared_then_private exp) /\
  exists nug',
    Nuggets (correlated shared_then_private exp) !! 0%nat = Some nug' /\
    Nugget.AMIIDs nug' = ["ami-1"; "ami-2"]%string /\
    Nugget.AMISharedWith nug' = [].
Proof.
  cbv zeta.
  set (exp := with_Nuggets (fst (New default_input))
                [Nugget.new (snapshot "snap-1" "vol-9" 5 8)]).
  assert (Hrun : populateNuggets shared_then_private exp
                 = Done (None, correlated shared_then_private exp))
    by (vm_compute; reflexivity).
  split; [reflexivity|]. split; [exact Hrun|].
  destruct (populateNuggets_last_image_decides shared_then_private exp _ 0
              (Nugget.new (snapshot "snap-1" "vol-9" 5 8)) Hrun eq_refl)
    as (nug' & Hlook & HA & Hlast).
  exists nug'. split; [exact Hlook|]. split; [exact HA|].
  exact (proj1 Hlast).
Defined.


(** ** Provider errors, request by request *)














(** ** Construction *)

(** X22: [New] refuses exactly the inputs without session or without
    logger, the session being checked first, and validates nothing else:
    on success every setting is the given value, whatever it is, or its
    default (25 pages, page size 500, batches of 30 volumes, the date
    filter 2019-01-01, the rate 0.05 and the three [out-] file names). The
    expedition returned with an error is partly configured: without session
    only its date filter is set; without logger everything but the rate. *)
Theorem New_checks_session_then_logger (input : ExpeditionInput) :
  let exp := fst (New input) in
  (snd (New input) = None <->
   is_Some (Session_ input) /\ is_Some (Logger_ input)) /\
  (Session_ input = None ->
   snd (New input) = Some "Session is required"%string /\
   exp = with_dateFilter zeroExpedition
           (default "2019-01-01"%string (DateFilter input))) /\
  (is_Some (Session_ input) -> Logger_ input = None ->
   snd (New input) = Some "log15 logger is required"%string /\
   ebsSnapRate exp = 0%float) /\
  (is_Some (Session_ input) ->
   dateFilter exp = default "2019-01-01"%string (DateFilter input) /\
   maxPages exp = default 25 (MaxPages input) /\
   pageSize exp = default 500 (PageSize input) /\
   volBatchSize exp = default 30 (VolumeBatchSize input) /\
   outfileRecommendations exp
   = default "out-summary.txt"%string (OutfileRecommendations input) /\
   outfileNuggets exp = default "out-nuggets.csv"%string (OutfileNuggets input) /\
   outfileBars exp = default "out-bars.csv"%string (OutfileBars input)) /\
  (snd (New input) = None ->
   ebsSnapRate exp = default 0x1.999999999999ap-5%float (EbsSnapRate input)).
Proof.
  cbv zeta. unfold New.
  destruct (Session_ input) as [sess|]; [destruct (Logger_ input) as [logger|]|];
    cbn [fst snd].
  - split_and!.
    + split; [intros _; split; eauto | reflexivity].
    + discriminate.
    + discriminate.
    + intros _. split_and!; reflexivity.
    + reflexivity.
  - split_and!.
    + split; [discriminate | intros [_ [x Hx]]; discriminate].
    + discriminate.
    + intros _ _. split; reflexivity.
    + intros _. split_and!; reflexivity.
    + discriminate.
  - split_and!.
    + split; [discriminate | intros [[x Hx] _]; discriminate].
    + intros _. split; reflexivity.
    + intros [x Hx]. discriminate.
    + intros [x Hx]. discriminate.
    + discriminate.
Qed.
